(** * uigen: the streaming text pipeline and the generate handler

    A shallow embedding of the JavaScript sources

      - [CodeBlockParser]   (model/CodeBlockParser.js)
      - [StreamProcessor]   (model/StreamProcessor.js)
      - [ModelManager]      (model/index.js)
      - [Server]            (index.js, the /api/generate handler)

    Strings are lists of code units.  The code only ever inspects
    code units below 256 (backtick, '<', '/', blanks, word characters),
    so a code unit is modelled as an [ascii]; the whitespace classes of
    [trim] and of the regular expression class [\s] are the members of
    the ECMAScript classes that fit in eight bits. Indices are [Z], with
    [-1] for a failed search, as in the source. *)

From Stdlib Require Import Ascii String List ZArith Lia Bool Arith.
Import ListNotations.
Local Open Scope Z_scope.

(** ** String primitives of the host language *)

Module JS.

Definition str := list ascii.

Definition lit (s : string) : str := list_ascii_of_string s.

(** The line feed. *)
Definition nl : ascii := "010"%char.

Definition len (s : str) : Z := Z.of_nat (length s).

(** [starts pat s]: [pat] occurs in [s] at index 0. *)
Fixpoint starts (pat s : str) : bool :=
  match pat, s with
  | [], _ => true
  | _ :: _, [] => false
  | p :: pat', c :: s' => Ascii.eqb p c && starts pat' s'
  end.

Definition str_eqb (a b : str) : bool :=
  starts a b && (length a =? length b)%nat.

(** Position of the first occurrence. *)
Fixpoint find_first (pat s : str) : option nat :=
  if starts pat s then Some O
  else match s with
       | [] => None
       | _ :: s' => option_map S (find_first pat s')
       end.

(** Position of the last occurrence. *)
Fixpoint find_last (pat s : str) : option nat :=
  match s with
  | [] => if starts pat [] then Some O else None
  | _ :: s' =>
      match find_last pat s' with
      | Some i => Some (S i)
      | None => if starts pat s then Some O else None
      end
  end.

Definition index_of_option (o : option nat) : Z :=
  match o with
  | Some i => Z.of_nat i
  | None => -1
  end.

(** [s.indexOf(pat)] *)
Definition indexOf (s pat : str) : Z := index_of_option (find_first pat s).

(** [s.lastIndexOf(pat)] *)
Definition lastIndexOf (s pat : str) : Z := index_of_option (find_last pat s).

(** [s.includes(pat)] *)
Definition includes (s pat : str) : bool :=
  match find_first pat s with Some _ => true | None => false end.

(** [s.startsWith(pat)] *)
Definition startsWith (s pat : str) : bool := starts pat s.

(** Relative indices of [slice]: a negative index counts from the end,
    and both ends are clamped to the string. *)
Definition clamp (n i : Z) : Z :=
  if i <? 0 then Z.max (n + i) 0 else Z.min i n.

(** [s.slice(a, b)] *)
Definition slice (s : str) (a b : Z) : str :=
  let from := clamp (len s) a in
  let to := clamp (len s) b in
  firstn (Z.to_nat (to - from)) (skipn (Z.to_nat from) s).

(** [s.slice(a)] *)
Definition slice_from (s : str) (a : Z) : str := slice s a (len s).

(** White space and line terminators, as [trim] and [\s] see them. *)
Definition is_space (c : ascii) : bool :=
  let n := nat_of_ascii c in
  ((9 <=? n) && (n <=? 13) || (n =? 32) || (n =? 160))%nat.

(** The class [\w]: letters, digits and the underscore. *)
Definition is_word (c : ascii) : bool :=
  let n := nat_of_ascii c in
  ((48 <=? n) && (n <=? 57) || (65 <=? n) && (n <=? 90)
   || (97 <=? n) && (n <=? 122) || (n =? 95))%nat.

Fixpoint trimStart (s : str) : str :=
  match s with
  | c :: s' => if is_space c then trimStart s' else s
  | [] => []
  end.

Definition trimEnd (s : str) : str := rev (trimStart (rev s)).

(** [s.trim()] *)
Definition trim (s : str) : str := trimEnd (trimStart s).

(** [s.split(sep)] for a separator of one code unit. *)
Fixpoint split (sep : ascii) (s : str) : list str :=
  match s with
  | [] => [[]]
  | c :: s' =>
      if Ascii.eqb c sep then [] :: split sep s'
      else match split sep s' with
           | w :: ws => (c :: w) :: ws
           | [] => [[c]]
           end
  end.

End JS.

Import JS.

(** ** CodeBlockParser *)

Module CodeBlockParser.

Definition fence : str := lit "```".
Definition tick : str := lit "`".

Record state := mkState {
  buffer : str;
  inCodeBlock : bool;
  codeStartIndex : Z;
  languageTag : str;
  codeBlockComplete : bool
}.

(** The constructor. *)
Definition init : state :=
  {| buffer := []; inCodeBlock := false; codeStartIndex := -1;
     languageTag := []; codeBlockComplete := false |}.

(** The characters the two [while] loops step over. *)
Definition is_blank (c : ascii) : bool :=
  Ascii.eqb c " " || Ascii.eqb c "010" || Ascii.eqb c "013".

(** [while (i < buffer.length && blank(buffer[i])) i++], run on the
    part of the buffer from [i] on. *)
Fixpoint skipBlank (rest : str) (i : Z) : Z :=
  match rest with
  | c :: rest' => if is_blank c then skipBlank rest' (i + 1) else i
  | [] => i
  end.

Fixpoint wordRun (s : str) : str :=
  match s with
  | c :: s' => if is_word c then c :: wordRun s' else []
  | [] => []
  end.

(** [s.match(/^(\w+)[\s\n]/)], returning group 1.  The greedy [\w+]
    takes the longest run of word characters; giving characters back
    cannot help, because the character after a shorter run is a word
    character and so no white space. *)
Definition matchLang (s : str) : option str :=
  let w := wordRun s in
  match w, skipn (length w) s with
  | _ :: _, c :: _ => if is_space c then Some w else None
  | _, _ => None
  end.

(** The opening branch (lines 29-59), on a buffer in which the first
    fence starts at [firstBacktick]. *)
Definition openBlock (st : state) (firstBacktick : Z) : state :=
  let buf := buffer st in
  let start := firstBacktick + 3 in
  let afterBackticks := slice_from buf start in
  let '(tag, start1) :=
    match matchLang afterBackticks with
    | Some l => (l, start + len l)
    | None => (languageTag st, start)
    end in
  let start2 := skipBlank (skipn (Z.to_nat start1) buf) start1 in
  {| buffer := slice_from buf start2; inCodeBlock := true;
     codeStartIndex := 0; languageTag := tag;
     codeBlockComplete := codeBlockComplete st |}.

Definition setBuffer (st : state) (b : str) : state :=
  {| buffer := b; inCodeBlock := inCodeBlock st;
     codeStartIndex := codeStartIndex st; languageTag := languageTag st;
     codeBlockComplete := codeBlockComplete st |}.

Definition nonEmpty (s : str) : list str :=
  match s with [] => [] | _ => [s] end.

(** Lines 66-102: the body run once the parser is inside a block. *)
Definition inBlock (st : state) : list str * state :=
  if inCodeBlock st && negb (codeBlockComplete st) then
    let buf := buffer st in
    let lastBacktick := lastIndexOf buf fence in
    if negb (lastBacktick =? -1) && (lastBacktick >? 0) then
      let codeContent := slice buf 0 lastBacktick in
      (nonEmpty codeContent,
       {| buffer := []; inCodeBlock := inCodeBlock st;
          codeStartIndex := codeStartIndex st;
          languageTag := languageTag st; codeBlockComplete := true |})
    else
      let partialBacktick := lastIndexOf buf tick in
      if negb (partialBacktick =? -1) && (partialBacktick >=? len buf - 2) then
        let safeLen := Z.max 0 (len buf - 2) in
        let toYield := slice buf 0 safeLen in
        let toBuffer := slice_from buf safeLen in
        (nonEmpty toYield, setBuffer st toBuffer)
      else
        match buf with
        | [] => ([], st)
        | _ => ([buf], setBuffer st [])
        end
  else ([], st).

(** [processChunk(chunk)], the generator run to its end: the fragments
    it yields and the parser afterwards. *)
Definition processChunk (st : state) (chunk : str) : list str * state :=
  match chunk with
  | [] => ([], st)
  | _ =>
      let st1 := setBuffer st (buffer st ++ chunk) in
      if negb (inCodeBlock st1) then
        let firstBacktick := indexOf (buffer st1) fence in
        if negb (firstBacktick =? -1) then inBlock (openBlock st1 firstBacktick)
        else ([], st1)
      else inBlock st1
  end.

(** [finalize()] *)
Definition finalize (st : state) : list str * state :=
  if inCodeBlock st && negb (codeBlockComplete st)
     && (0 <? len (buffer st)) then
    ([buffer st], setBuffer st [])
  else ([], st).

(** Feeding a sequence of chunks: fragments in order, the value of
    [codeBlockComplete] after each chunk, and the parser at the end. *)
Fixpoint feed (st : state) (chunks : list str)
  : list str * list bool * state :=
  match chunks with
  | [] => ([], [], st)
  | c :: cs =>
      let '(out, st1) := processChunk st c in
      let '(outs, flags, st2) := feed st1 cs in
      (out ++ outs, codeBlockComplete st1 :: flags, st2)
  end.

(** Everything a consumer receives: the chunks, then [finalize]. *)
Definition extract (chunks : list str) : str :=
  let '(outs, _, st) := feed init chunks in
  concat outs ++ concat (fst (finalize st)).

End CodeBlockParser.

(** ** StreamProcessor *)

Module StreamProcessor.

Definition openTag : str := lit "<think>".
Definition closeTag : str := lit "</think>".
Definition lt : str := lit "<".

(** What the two generators of the class yield: text, or (only when the
    processor was built with [extractCodeBlock]) the generator object
    that [codeBlockParser.processChunk] or [.finalize] returns. *)
Inductive fragment :=
| Text (s : str)
| ParserGenerator.

Record state := mkState {
  isThinking : bool;
  buffer : str;
  extractCodeBlock : bool;
  codeBlockParser : option CodeBlockParser.state;
  codeBlockBuffer : str;
  codeBlockComplete : bool
}.

(** [new StreamProcessor(extractCodeBlock)] *)
Definition new (extract : bool) : state :=
  {| isThinking := false; buffer := []; extractCodeBlock := extract;
     codeBlockParser := if extract then Some CodeBlockParser.init else None;
     codeBlockBuffer := []; codeBlockComplete := false |}.

(** The result of the [while] loop: fragments yielded, then the values
    of [isThinking] and [buffer] when it exits. *)
Definition scanned := (list str * bool * str)%type.

Definition yield (s : str) (r : option scanned) : option scanned :=
  match r with
  | Some (out, t, b) => Some (s :: out, t, b)
  | None => None
  end.

(** Lines 98-164.  Every round either shortens [content] or empties
    it; [fuel] bounds the number of rounds, [None] is fuel run out. *)
Fixpoint scan (fuel : nat) (thinking : bool) (buf content : str)
  : option scanned :=
  if len content >? 0 then
    match fuel with
    | O => None
    | S fuel' =>
        if thinking then
          let endTagIndex := indexOf content closeTag in
          if negb (endTagIndex =? -1) then
            scan fuel' false buf (slice_from content (endTagIndex + 8))
          else if len content >? 7 then
            scan fuel' thinking (slice_from content (-7)) []
          else
            scan fuel' thinking content []
        else
          let startTagIndex := indexOf content openTag in
          if negb (startTagIndex =? -1) then
            let rest :=
              scan fuel' true buf (slice_from content (startTagIndex + 7)) in
            if startTagIndex >? 0 then
              yield (slice content 0 startTagIndex) rest
            else rest
          else if len content >=? 7 then
            let safeLen := len content - 6 in
            let safePart := slice content 0 safeLen in
            let riskyPart := slice_from content safeLen in
            let lastOpen := lastIndexOf riskyPart lt in
            if negb (lastOpen =? -1) then
              yield (safePart ++ slice riskyPart 0 lastOpen)
                    (scan fuel' thinking (slice_from riskyPart lastOpen) [])
            else
              yield content (scan fuel' thinking buf [])
          else if includes content lt then
            scan fuel' thinking content []
          else
            yield content (scan fuel' thinking buf [])
    end
  else Some ([], thinking, buf).

(** [process(chunk)], the generator run to its end.  The loop is given
    one round per code unit of [content], which [scan_total] shows is
    enough, so the last branch is never taken. *)
Definition process (st : state) (chunk : str) : list fragment * state :=
  match chunk with
  | [] => ([], st)
  | _ =>
      let content := buffer st ++ chunk in
      if extractCodeBlock st
         && match codeBlockParser st with Some _ => true | None => false end
      then
        ([ParserGenerator],
         {| isThinking := isThinking st; buffer := [];
            extractCodeBlock := extractCodeBlock st;
            codeBlockParser := codeBlockParser st;
            codeBlockBuffer := codeBlockBuffer st ++ content;
            codeBlockComplete := true |})
      else
        match scan (length content) (isThinking st) [] content with
        | Some (out, t, b) =>
            (map Text out,
             {| isThinking := t; buffer := b;
                extractCodeBlock := extractCodeBlock st;
                codeBlockParser := codeBlockParser st;
                codeBlockBuffer := codeBlockBuffer st;
                codeBlockComplete := codeBlockComplete st |})
        | None => ([], st)
        end
  end.

(** [finalize()] *)
Definition finalize (st : state) : list fragment * state :=
  if extractCodeBlock st
     && match codeBlockParser st with Some _ => true | None => false end
  then ([ParserGenerator], st)
  else ([], st).

(** Feeding a sequence of chunks. *)
Fixpoint feed (st : state) (chunks : list str) : list fragment * state :=
  match chunks with
  | [] => ([], st)
  | c :: cs =>
      let '(out, st1) := process st c in
      let '(outs, st2) := feed st1 cs in
      (out ++ outs, st2)
  end.

(** The text of a sequence of fragments. *)
Fixpoint text (fs : list fragment) : str :=
  match fs with
  | [] => []
  | Text s :: fs' => s ++ text fs'
  | ParserGenerator :: fs' => text fs'
  end.

(** Everything a consumer of the tag filter receives. *)
Definition filter (chunks : list str) : str :=
  let '(outs, st) := feed (new false) chunks in
  text outs ++ text (fst (finalize st)).

End StreamProcessor.

(** ** Asynchronous generators *)

(** An asynchronous generator, seen by its consumer: the values it
    yields, then either a normal end ([failure = None]) or a thrown
    error with its message. *)
Record stream (A : Type) := mkStream {
  items : list A;
  failure : option str
}.
Arguments mkStream {A} _ _.
Arguments items {A} _.
Arguments failure {A} _.

Definition prepend {A} (xs : list A) (s : stream A) : stream A :=
  mkStream (xs ++ items s) (failure s).

(** ** ModelManager *)

Module ModelManager.

Inductive stage := html | css | js.

Definition stage_eqb (a b : stage) : bool :=
  match a, b with
  | html, html | css, css | js, js => true
  | _, _ => false
  end.

Record parsed := mkParsed {
  providerName : option str;
  modelName : option str
}.

Inductive result (A : Type) :=
| Ok (a : A)
| Throw (message : str).
Arguments Ok {A} _.
Arguments Throw {A} _.

Definition slash : ascii := "/"%char.

(** [parseModelString(modelString)]; the array pattern
    [[providerName, modelName]] reads elements 0 and 1, [None] standing
    for [undefined]. *)
Definition parseModelString (modelString : str) : result parsed :=
  if includes modelString [slash] then
    let parts := split slash modelString in
    Ok {| providerName := nth_error parts 0; modelName := nth_error parts 1 |}
  else Throw (lit "Invalid model format. Expected 'Provider/Model'").

(** String conversion of a fragment appended to a string. *)
Definition coerce (f : StreamProcessor.fragment) : str :=
  match f with
  | StreamProcessor.Text s => s
  | StreamProcessor.ParserGenerator => lit "[object Generator]"
  end.

(** The body of the innermost [for] of [streamCodeBlock]: each fragment
    is yielded, then [codeBlockComplete] is read, [true] meaning
    [return].  [flag] is the value read: the parser is suspended at its
    [yield], and its only assignment to the flag (line 77) comes after
    the [yield] of line 73, so the value is the one the flag had when
    [processChunk] was called. *)
Fixpoint yieldUntil (flag : bool) (out : list str) : list str * bool :=
  match out with
  | [] => ([], false)
  | f :: out' =>
      if flag then ([f], true)
      else let '(o, r) := yieldUntil flag out' in (f :: o, r)
  end.

(** The [for] over the clean chunks of one raw chunk.  After a
    [return] the parser is never used again. *)
Fixpoint overClean (cb : CodeBlockParser.state) (clean : list str)
  : list str * CodeBlockParser.state * bool :=
  match clean with
  | [] => ([], cb, false)
  | c :: clean' =>
      let '(out, cb1) := CodeBlockParser.processChunk cb c in
      let '(o, returned) :=
        yieldUntil (CodeBlockParser.codeBlockComplete cb) out in
      if returned then (o, cb1, true)
      else let '(o', cb2, r) := overClean cb1 clean' in (o ++ o', cb2, r)
  end.

(** The [for await] over the raw chunks, then the closing [finalize]. *)
Fixpoint overRaw (sp : StreamProcessor.state) (cb : CodeBlockParser.state)
    (raw : list str) (fail : option str) : stream str :=
  match raw with
  | [] =>
      match fail with
      | Some e => mkStream [] (Some e)
      | None => mkStream (fst (CodeBlockParser.finalize cb)) None
      end
  | r :: raw' =>
      let '(clean, sp1) := StreamProcessor.process sp r in
      let '(out, cb1, returned) := overClean cb (map coerce clean) in
      if returned then mkStream out None
      else prepend out (overRaw sp1 cb1 raw' fail)
  end.

(** [streamCodeBlock], applied to the stream that
    [provider.streamResponse] returns. *)
Definition streamCodeBlock (raw : stream str) : stream str :=
  overRaw (StreamProcessor.new false) CodeBlockParser.init
          (items raw) (failure raw).

Definition NO_CHANGE : str := lit "[NO CHANGE]".

(** The variables of [processStep] when its loop exits. *)
Record loopExit := mkExit {
  yielded : list str;
  firstChunk : bool;
  buffer : str;
  reverted : bool
}.

Definition yieldFirst (s : str) (e : loopExit) : loopExit :=
  mkExit (s :: yielded e) (firstChunk e) (buffer e) (reverted e).

(** The [for await] loop of [processStep] (lines 148-168). [reverted]
    is set exactly where the loop is left by [break]. *)
Fixpoint sentinelLoop (first : bool) (buf : str) (chunks : list str)
  : loopExit :=
  match chunks with
  | [] => mkExit [] first buf false
  | chunk :: rest =>
      if first then
        let buf1 := buf ++ chunk in
        let cleanBuffer := trim buf1 in
        if startsWith NO_CHANGE cleanBuffer then
          if str_eqb cleanBuffer NO_CHANGE then mkExit [] first buf1 true
          else sentinelLoop first buf1 rest
        else yieldFirst buf1 (sentinelLoop false buf1 rest)
      else yieldFirst chunk (sentinelLoop first buf rest)
  end.

(** [processStep], applied to the stream that [streamCodeBlock]
    returns.  A [break] leaves the loop without reading the rest of the
    stream, so an error after it is never seen. *)
Definition processStep (existingCode : str) (s : stream str) : stream str :=
  match existingCode with
  | [] => s
  | _ =>
      let e := sentinelLoop true [] (items s) in
      if reverted e then mkStream (yielded e ++ [existingCode]) None
      else
        match failure s with
        | Some err => mkStream (yielded e) (Some err)
        | None =>
            if firstChunk e && (0 <? len (buffer e)) then
              if str_eqb (trim (buffer e)) NO_CHANGE
              then mkStream (yielded e ++ [existingCode]) None
              else mkStream (yielded e ++ [buffer e]) None
            else mkStream (yielded e) None
        end
  end.

Record progress := mkProgress {
  type : stage;
  content : str
}.

(** [content += chunk; yield { type, content }] over a stage's chunks:
    the running totals, and the total at the end. *)
Fixpoint accumulate (t : stage) (acc : str) (chunks : list str)
  : list progress * str :=
  match chunks with
  | [] => ([], acc)
  | c :: cs =>
      let acc1 := acc ++ c in
      let '(evs, final) := accumulate t acc1 cs in
      (mkProgress t acc1 :: evs, final)
  end.

Record codeMap := mkCode {
  code_html : str;
  code_css : str;
  code_js : str
}.

(** [currentCodeMap?.field || ''] *)
Definition existingOf (field : codeMap -> str) (m : option codeMap) : str :=
  match m with
  | Some c => field c
  | None => []
  end.

Section StreamResponse.

(** A provider, as far as this module is concerned: the stream its
    [streamResponse] returns for the prompt that [createMessagesForType]
    builds from the model name, the stage, the code generated so far
    and the existing code.  The message history and the system prompts
    of a request are fixed, and are part of the function. *)
Definition provider := option str -> stage -> str -> str -> stream str.

(** [this.providers], a [Map] from provider names. *)
Variable providers : str -> option provider.

(** [getProvider(undefined)] looks up a key no configured name equals. *)
Definition getProvider (name : option str) : option provider :=
  match name with
  | Some n => providers n
  | None => None
  end.

Definition notFound (name : option str) : str :=
  lit "Provider '"
  ++ match name with Some n => n | None => lit "undefined" end
  ++ lit "' not found".

(** One of the three [for await] loops of [streamResponse]: the
    progress events, the final content, and the error if the stage
    threw. *)
Definition runStage (p : provider) (model : option str) (t : stage)
    (context existing : str) : list progress * str * option str :=
  let s := processStep existing (streamCodeBlock (p model t context existing)) in
  let '(evs, final) := accumulate t [] (items s) in
  (evs, final, failure s).

Definition jsContext (htmlContent cssContent : str) : str :=
  htmlContent ++ [nl; nl] ++ cssContent.

(** [streamResponse(modelString, messageHistory, currentCodeMap)] *)
Definition streamResponse (modelString : str) (currentCodeMap : option codeMap)
  : stream progress :=
  match parseModelString modelString with
  | Throw msg => mkStream [] (Some msg)
  | Ok pm =>
      match getProvider (providerName pm) with
      | None => mkStream [] (Some (notFound (providerName pm)))
      | Some p =>
          let model := modelName pm in
          let '(ev1, htmlContent, f1) :=
            runStage p model html [] (existingOf code_html currentCodeMap) in
          match f1 with
          | Some e => mkStream ev1 (Some e)
          | None =>
              let '(ev2, cssContent, f2) :=
                runStage p model css htmlContent
                         (existingOf code_css currentCodeMap) in
              match f2 with
              | Some e => mkStream (ev1 ++ ev2) (Some e)
              | None =>
                  let '(ev3, _, f3) :=
                    runStage p model js (jsContext htmlContent cssContent)
                             (existingOf code_js currentCodeMap) in
                  mkStream (ev1 ++ ev2 ++ ev3) f3
              end
          end
      end
  end.

End StreamResponse.

End ModelManager.

(** ** The /api/generate handler *)

Module Server.
Import ModelManager.

(** The records written to the response. *)
Inductive sse :=
| Data (model content : str)      (* data: {"model": .., "content": ..} *)
| Done (model : str)              (* data: {"model": .., "done": true} *)
| Error (model message : str)     (* data: {"model": .., "error": ..} *)
| Terminal.                       (* event: done, data: [DONE] *)

(** [codeBlockMarkers[type]] *)
Definition marker (t : stage) : str :=
  match t with
  | html => lit "```html" ++ [nl]
  | css => lit "```css" ++ [nl]
  | js => lit "```js" ++ [nl]
  end.

Definition closeMarker : str := [nl] ++ lit "```".

(** The two variables of the stream loop. *)
Record cursor := mkCursor {
  currentType : option stage;
  lastContent : str
}.

Definition sameType (c : cursor) (t : stage) : bool :=
  match currentType c with
  | Some t' => stage_eqb t t'
  | None => false
  end.

(** [if (currentType !== null) res.write(closeMarker)] *)
Definition closing (model : str) (c : cursor) : list sse :=
  match currentType c with
  | Some _ => [Data model closeMarker]
  | None => []
  end.

(** The [for await] loop of one model (lines 165-202): the records
    written and the variables at the end. *)
Fixpoint writeLoop (model : str) (c : cursor) (chunks : list progress)
  : list sse * cursor :=
  match chunks with
  | [] => ([], c)
  | chunk :: rest =>
      if negb (sameType c (type chunk)) then
        let wrappedContent := marker (type chunk) ++ content chunk in
        let '(w, c') :=
          writeLoop model (mkCursor (Some (type chunk)) (content chunk)) rest in
        (closing model c ++ Data model wrappedContent :: w, c')
      else
        let newContent := slice_from (content chunk) (len (lastContent c)) in
        if len newContent >? 0 then
          let '(w, c') :=
            writeLoop model (mkCursor (currentType c) (content chunk)) rest in
          (Data model newContent :: w, c')
        else writeLoop model c rest
  end.

(** The callback of [models.map] for one model, given the stream that
    [modelManager.streamResponse] returns for it: the [try] body, or
    the [catch] once the stream has thrown. *)
Definition modelTask (model : str) (s : stream progress) : list sse :=
  let '(w, c) := writeLoop model (mkCursor None []) (items s) in
  match failure s with
  | Some message => w ++ [Error model message]
  | None => w ++ closing model c ++ [Done model]
  end.

(** The callbacks run concurrently and only suspend between writes:
    what reaches the response is an interleaving of their writes, each
    callback's own writes in order. *)
Inductive interleave {A : Type} : list (list A) -> list A -> Prop :=
| interleave_done : forall tasks,
    Forall (fun t => t = []) tasks -> interleave tasks []
| interleave_write : forall before x t after out,
    interleave (before ++ t :: after) out ->
    interleave (before ++ (x :: t) :: after) (x :: out).

Section Generate.

Variable providers : str -> option provider.

(** [contextMap], computed from the request body and the saved state. *)
Variable contextMap : str -> option codeMap.

Definition taskOf (modelString : str) : list sse :=
  modelTask modelString
            (streamResponse providers modelString (contextMap modelString)).

(** The handler: [await Promise.all(streams)], then the terminal
    record. *)
Definition generate (models : list str) (response : list sse) : Prop :=
  exists body,
    interleave (map taskOf models) body /\ response = body ++ [Terminal].

End Generate.

End Server.

(** ** Vocabulary of the specification *)

Module Spec.

(** [pat] occurs in [s] at index [i]. *)
Definition occursAt (pat s : str) (i : nat) : Prop :=
  starts pat (skipn i s) = true.

(** The first and the last occurrence of [pat] in [s]. *)
Definition firstAt (pat s : str) (i : nat) : Prop :=
  occursAt pat s i /\ forall j, (j < i)%nat -> ~ occursAt pat s j.

Definition lastAt (pat s : str) (i : nat) : Prop :=
  occursAt pat s i /\ forall j, (i < j)%nat -> ~ occursAt pat s j.

(** The text with every reasoning span removed, read from left to
    right: a span runs from an opening delimiter to the first closing
    delimiter after it, both included.  [skip] counts the code units of
    a delimiter still to be dropped. *)
Fixpoint strip (inSpan : bool) (skip : nat) (s : str) : str :=
  match s with
  | [] => []
  | c :: s' =>
      match skip with
      | S k => strip inSpan k s'
      | O =>
          if inSpan then
            if starts StreamProcessor.closeTag s then strip false 7 s'
            else strip true 0 s'
          else
            if starts StreamProcessor.openTag s then strip true 6 s'
            else c :: strip false 0 s'
      end
  end.

Definition removeSpans (s : str) : str := strip false 0 s.

(** Every span that opens is closed. *)
Fixpoint wellFormed (inSpan : bool) (skip : nat) (s : str) : bool :=
  match s with
  | [] => negb inSpan
  | _ :: s' =>
      match skip with
      | S k => wellFormed inSpan k s'
      | O =>
          if inSpan then
            if starts StreamProcessor.closeTag s then wellFormed false 7 s'
            else wellFormed true 0 s'
          else
            if starts StreamProcessor.openTag s then wellFormed true 6 s'
            else wellFormed false 0 s'
      end
  end.

(** What a processor in Normal state still withholds. *)
Definition withheld (st : StreamProcessor.state) : str :=
  if StreamProcessor.isThinking st then [] else StreamProcessor.buffer st.

(** The opening line of a fenced block, and the whole block. *)
Definition header (lang : str) : str :=
  CodeBlockParser.fence ++ lang ++ [nl].

Definition fenced (lang content : str) : str :=
  header lang ++ content ++ CodeBlockParser.fence.

Definition isWord (lang : str) : Prop :=
  lang <> [] /\ Forall (fun c => is_word c = true) lang.

(** The content does not begin with a character the parser steps over
    after the opening line. *)
Definition startsClean (content : str) : Prop :=
  match content with
  | c :: _ => CodeBlockParser.is_blank c = false
  | [] => True
  end.

(** A split of the fenced block [fenced lang content] that keeps both
    markers whole: the first chunk holds the opening line, and the last
    chunk holds the closing fence together with at least one code unit
    of content before it. *)
Definition keepsMarkers (lang content : str) (chunks : list str) : Prop :=
  (content <> [] /\ chunks = [fenced lang content])
  \/ exists p0 ps q,
       q <> [] /\ content = p0 ++ concat ps ++ q
       /\ chunks = (header lang ++ p0) :: ps ++ [q ++ CodeBlockParser.fence].

(** The parser as it is once the opening line [```lang] has gone by. *)
Definition opened (lang : str) : CodeBlockParser.state :=
  snd (CodeBlockParser.processChunk CodeBlockParser.init (header lang)).

Definition allSpace (s : str) : Prop :=
  Forall (fun c => is_space c = true) s.

(** [p] is a non-empty strict prefix of [s]. *)
Definition strictPrefix (p s : str) : Prop :=
  p <> [] /\ exists r, r <> [] /\ s = p ++ r.

(** The text [b], trimmed as [processStep] trims it, is a strict prefix
    of the sentinel, the empty one included: text that may still become
    the sentinel. *)
Definition awaits (b : str) : Prop :=
  exists r, r <> [] /\ ModelManager.NO_CHANGE = trim b ++ r.

(** Some initial run of the fragments, taken together and trimmed, is
    the sentinel. *)
Definition reaches (chunks : list str) : Prop :=
  exists k, trim (concat (firstn k chunks)) = ModelManager.NO_CHANGE.

(** The progress events of one stage whose fragments are [fs], and its
    content at the end. *)
Definition stageEvents (t : ModelManager.stage) (fs : list str)
  : list ModelManager.progress :=
  fst (ModelManager.accumulate t [] fs).

Definition stageContent (t : ModelManager.stage) (fs : list str) : str :=
  snd (ModelManager.accumulate t [] fs).

(** The records that name a model. *)
Definition concerns (m : str) (e : Server.sse) : bool :=
  match e with
  | Server.Data m' _ | Server.Done m' | Server.Error m' _ => str_eqb m m'
  | Server.Terminal => false
  end.

Definition isErrorOf (m : str) (e : Server.sse) : bool :=
  match e with
  | Server.Error m' _ => str_eqb m m'
  | _ => false
  end.

Definition isTerminal (e : Server.sse) : bool :=
  match e with
  | Server.Terminal => true
  | _ => false
  end.

(** A request for two models, used to exercise the handler: the
    provider of the first refuses the connection, the provider of the
    second answers every stage with one fenced block. *)
Definition refusing : ModelManager.provider :=
  fun _ _ _ _ => mkStream [] (Some (lit "connection refused")).

Definition answering : ModelManager.provider :=
  fun _ _ _ _ => mkStream [lit "```" ++ [nl] ++ lit "x```"] None.

Definition twoProviders (name : str) : option ModelManager.provider :=
  if str_eqb name (lit "X") then Some refusing
  else if str_eqb name (lit "Y") then Some answering
  else None.

End Spec.

(** ** Invariants and auxiliary notions of the proofs *)

Module Inv.

(** The longest tail a tag filter keeps back: seven code units inside a
    span, six outside. *)
Definition holds (thinking : bool) : nat := if thinking then 7%nat else 6%nat.

(** The processors the program builds: no code-block extraction, and a
    lookback buffer shorter than the delimiter it waits for. *)
Definition plain (st : StreamProcessor.state) : Prop :=
  StreamProcessor.extractCodeBlock st = false
  /\ (length (StreamProcessor.buffer st)
      <= holds (StreamProcessor.isThinking st))%nat.

(** [s] holds no fence. *)
Definition free (s : str) : Prop :=
  forall j, starts CodeBlockParser.fence (skipn j s) = false.

(** A parser inside a block that is not complete. *)
Definition streaming (st : CodeBlockParser.state) : Prop :=
  CodeBlockParser.inCodeBlock st = true
  /\ CodeBlockParser.codeBlockComplete st = false.

Definition nonEmptyb (s : str) : bool :=
  match s with [] => false | _ => true end.

(** [s] holds no backtick. *)
Definition clean (s : str) : Prop := Forall (fun c => c <> "`"%char) s.

Definition nonNil {A : Type} (t : list A) : bool :=
  match t with [] => false | _ => true end.

End Inv.

(** ** The rest of the two parsers *)

Module Reset.

(** [CodeBlockParser.reset()] *)
Definition resetParser (st : CodeBlockParser.state) : CodeBlockParser.state :=
  {| CodeBlockParser.buffer := [];
     CodeBlockParser.inCodeBlock := false;
     CodeBlockParser.codeStartIndex := -1;
     CodeBlockParser.languageTag := [];
     CodeBlockParser.codeBlockComplete := false |}.

(** [StreamProcessor.reset()] *)
Definition resetProcessor (st : StreamProcessor.state) : StreamProcessor.state :=
  {| StreamProcessor.isThinking := false;
     StreamProcessor.buffer := [];
     StreamProcessor.extractCodeBlock := StreamProcessor.extractCodeBlock st;
     StreamProcessor.codeBlockParser :=
       option_map resetParser (StreamProcessor.codeBlockParser st);
     StreamProcessor.codeBlockBuffer := [];
     StreamProcessor.codeBlockComplete := false |}.

End Reset.

(** ** Prompts and providers (model/index.js and the provider classes) *)

Module Prompts.

(** A conversation turn; the array spread of [createMessagesForType]
    copies both fields. *)
Record message := mkMessage {
  role : str;
  content : str
}.

(** [c.toUpperCase()] for a code unit below 128. *)
Definition upperChar (c : ascii) : ascii :=
  let n := nat_of_ascii c in
  if ((97 <=? n) && (n <=? 122))%nat then ascii_of_nat (n - 32) else c.

(** [s.toUpperCase()]; the code applies it to the three type names. *)
Definition toUpperCase (s : str) : str := map upperChar s.

(** The strings ['html'], ['css'], ['js'] that name the stages. *)
Definition typeName (t : ModelManager.stage) : str :=
  match t with
  | ModelManager.html => lit "html"
  | ModelManager.css => lit "css"
  | ModelManager.js => lit "js"
  end.

(** The three parts of [promptSuffix] (lines 113-121). *)
Definition generateLine (t : ModelManager.stage) : str :=
  lit "Generate the " ++ toUpperCase (typeName t) ++ lit " code for this UI.".

Definition existingPart (t : ModelManager.stage) (existingCode : str) : str :=
  [nl; nl] ++ lit "Here is the existing " ++ toUpperCase (typeName t)
  ++ lit " code:" ++ [nl] ++ lit "```" ++ typeName t ++ [nl]
  ++ existingCode ++ [nl] ++ lit "```" ++ [nl; nl]
  ++ lit "If this code is sufficient and requires no changes for the new request, output EXACTLY this in a code block: ```[NO CHANGE]```. Otherwise output the full new code.".

Definition contextPart (context : str) : str :=
  [nl; nl] ++ lit "Here is the code generated so far:" ++ [nl] ++ context.

Definition promptSuffix (t : ModelManager.stage) (context existingCode : str)
  : str :=
  [nl; nl] ++ generateLine t
  ++ match existingCode with [] => [] | _ => existingPart t existingCode end
  ++ match context with [] => [] | _ => contextPart context end.

(** [messages[messages.length - 1]], [None] for an empty array. *)
Definition lastMessage {A : Type} (messages : list A) : option A :=
  match messages with
  | [] => None
  | _ => nth_error messages (length messages - 1)
  end.

(** [createMessagesForType(type, baseHistory, context, existingCode)] *)
Definition createMessagesForType (t : ModelManager.stage)
    (baseHistory : list message) (context existingCode : str)
  : list message :=
  let messages := map (fun m => mkMessage (role m) (content m)) baseHistory in
  let suffix := promptSuffix t context existingCode in
  match lastMessage messages with
  | Some m =>
      if str_eqb (role m) (lit "user") then
        removelast messages ++ [mkMessage (role m) (content m ++ suffix)]
      else
        messages ++ [mkMessage (lit "user") (generateLine t ++ suffix)]
  | None => messages ++ [mkMessage (lit "user") (generateLine t ++ suffix)]
  end.

(** An entry [{ system }] of the prompt tables; [None] is a missing
    field. *)
Record promptEntry := mkEntry {
  system : option str
}.

(** An element of [promptOverrides]. *)
Record override := mkOverride {
  o_model : option str;
  o_html : option promptEntry;
  o_css : option promptEntry;
  o_js : option promptEntry
}.

(** [override[type]] *)
Definition entryOf (o : override) (t : ModelManager.stage)
  : option promptEntry :=
  match t with
  | ModelManager.html => o_html o
  | ModelManager.css => o_css o
  | ModelManager.js => o_js o
  end.

(** [a === b] on values that are strings or [undefined]. *)
Definition same (a b : option str) : bool :=
  match a, b with
  | Some x, Some y => str_eqb x y
  | None, None => true
  | _, _ => false
  end.

(** [entry?.system], when it is a non-empty string. *)
Definition systemOf (e : option promptEntry) : option str :=
  match e with
  | Some en =>
      match system en with
      | Some (c :: s) => Some (c :: s)
      | _ => None
      end
  | None => None
  end.

(** [getPromptForType(type, modelName)] *)
Definition getPromptForType
    (defaultPrompts : ModelManager.stage -> option promptEntry)
    (promptOverrides : list override)
    (t : ModelManager.stage) (modelName : option str) : str :=
  let prompt :=
    match systemOf (defaultPrompts t) with Some s => s | None => [] end in
  match find (fun o => same (o_model o) modelName) promptOverrides with
  | Some o =>
      match systemOf (entryOf o t) with
      | Some s => s
      | None => prompt
      end
  | None => prompt
  end.

(** The three provider classes. *)
Inductive kind := Anthropic | Google | OpenAI.

(** An element of [config.providers]. *)
Record pConfig := mkConfig {
  p_type : option str;
  p_name : str
}.

(** The [switch] of [initializeProviders]. *)
Definition kindOf (type : option str) : kind :=
  match type with
  | Some s =>
      if str_eqb s (lit "anthropic") then Anthropic
      else if str_eqb s (lit "google") then Google
      else OpenAI
  | None => OpenAI
  end.

(** [map.set(key, value)] on a [Map] seen through its lookups. *)
Definition mapSet {V : Type} (m : str -> option V) (key : str) (v : V)
  : str -> option V :=
  fun k => if str_eqb k key then Some v else m k.

(** [initializeProviders()]: the map after the loop. *)
Definition initializeProviders (providers : list pConfig)
  : str -> option (kind * pConfig) :=
  fold_left (fun m c => mapSet m (p_name c) (kindOf (p_type c), c))
            providers (fun _ => None).

(** An element of the history in Google's format:
    [{ role, parts: [{ text }] }]. *)
Record part := mkPart {
  g_role : str;
  g_text : str
}.

(** The conversion of [GoogleProvider.streamResponse] (lines 19-24). *)
Definition googleHistory (messages : list message) : list part :=
  map (fun m =>
         mkPart (if str_eqb (role m) (lit "assistant")
                 then lit "model" else lit "user")
                (content m))
      (filter (fun m => negb (str_eqb (role m) (lit "system"))) messages).

(** What [GoogleProvider.streamResponse] does with the history: it
    starts a chat on all but the last element and sends the text of the
    last, or fails on [lastMsg.parts] when there is none. *)
Inductive request :=
| Sent (prevHistory : list part) (text : str)
| TypeError.

Definition googleRequest (messages : list message) : request :=
  let history := googleHistory messages in
  match lastMessage history with
  | Some lastMsg => Sent (removelast history) (g_text lastMsg)
  | None => TypeError
  end.

End Prompts.

(** ** The request, before the models run (index.js) *)

Module Request.
Import ModelManager.

(** [c.html || c.css || c.js] *)
Definition hasCode (c : codeMap) : bool :=
  (0 <? len (code_html c)) || (0 <? len (code_css c)) || (0 <? len (code_js c)).

(** [contextMap[m]] after the [forEach] of lines 137-145.
    [currentCodes] is the object of the request body, if any, seen
    through its lookups; [savedData] is the parsed saved state, if
    there is one that parses. *)
Definition contextMapOf (currentCodes : option (str -> option codeMap))
    (savedData : option codeMap) (m : str) : option codeMap :=
  let saved :=
    match savedData with
    | Some s => if hasCode s then Some s else None
    | None => None
    end in
  match currentCodes with
  | Some codes =>
      match codes m with
      | Some c => if hasCode c then Some c else saved
      | None => saved
      end
  | None => saved
  end.

Section CheckAuth.

Variable user : Type.

(** [db.getUserById], with [None] for no row. *)
Variable getUserById : str -> option user.

(** [req.user] after [checkAuth]: the header is split at spaces and
    the second piece, when not empty, is looked up. *)
Definition checkAuth (authorization : option str) : option user :=
  match authorization with
  | Some (c :: h) =>
      match nth_error (split " "%char (c :: h)) 1 with
      | Some (d :: userId) => getUserById (d :: userId)
      | _ => None
      end
  | _ => None
  end.

End CheckAuth.

End Request.

(** ** The page (public/app.js) *)

Module Client.
Import ModelManager.

(** [currentResponseData[model]] *)
Record tabData := mkTab {
  t_html : str;
  t_css : str;
  t_js : str;
  t_raw : str
}.

Definition emptyTab : tabData := mkTab [] [] [] [].

(** A pattern character against a text character under the flag [i]:
    the pattern characters of the code are below 128, where the flag
    compares upper-case forms, and no character from 128 on is taken
    for one below. *)
Definition sameLetter (p c : ascii) : bool :=
  Ascii.eqb (Prompts.upperChar p) (Prompts.upperChar c).

Fixpoint startsCI (pat s : str) : bool :=
  match pat, s with
  | [], _ => true
  | _ :: _, [] => false
  | p :: pat', c :: s' => sameLetter p c && startsCI pat' s'
  end.

(** The text after the first place where [pat] matches. *)
Fixpoint afterCI (pat s : str) : option str :=
  if startsCI pat s then Some (skipn (length pat) s)
  else match s with
       | [] => None
       | _ :: s' => afterCI pat s'
       end.

(** The text before the first occurrence of [pat]. *)
Fixpoint before (pat s : str) : option str :=
  if starts pat s then Some []
  else match s with
       | [] => None
       | c :: s' => option_map (cons c) (before pat s')
       end.

(** [extract(lang)] of [parseAndAssign], on the raw text: the regular
    expression is three backticks and [lang], a group that takes as
    little as it can, and three backticks.  It matches at the first
    place where the opening matches and a fence follows; if no fence
    follows there, none follows any later opening either. *)
Definition extract (raw lang : str) : option str :=
  match afterCI (CodeBlockParser.fence ++ lang) raw with
  | Some rest =>
      match before CodeBlockParser.fence rest with
      | Some group => Some (trim group)
      | None => None
      end
  | None => None
  end.

(** [parseAndAssign(model)] *)
Definition parseAndAssign (d : tabData) : tabData :=
  let pick (lang : str) (old : str) :=
    match extract (t_raw d) lang with Some v => v | None => old end in
  mkTab (pick (lit "html") (t_html d)) (pick (lit "css") (t_css d))
        (pick (lit "js") (t_js d)) (t_raw d).

(** [data.raw += content], where [content] is [undefined] for a record
    without the field. *)
Definition appended (content : option str) : str :=
  match content with
  | Some c => c
  | None => lit "undefined"
  end.

(** [handleStreamChunk(model, content)], on the tab of the model. *)
Definition handleStreamChunk (d : tabData) (content : option str) : tabData :=
  parseAndAssign
    (mkTab (t_html d) (t_css d) (t_js d) (t_raw d ++ appended content)).

(** What one record of the response does to the tab of [model] (the
    body of the loop over the lines): a record with [done] leaves the
    data alone, any other record that names a model goes to
    [handleStreamChunk] with its [content]. *)
Definition receive (model : str) (d : tabData) (e : Server.sse) : tabData :=
  match e with
  | Server.Data m c =>
      if (0 <? len m) && str_eqb m model
      then handleStreamChunk d (Some c) else d
  | Server.Error m _ =>
      if (0 <? len m) && str_eqb m model
      then handleStreamChunk d None else d
  | Server.Done _ => d
  | Server.Terminal => d
  end.

(** The records of a response, each arriving whole, in order. *)
Definition receiveAll (model : str) (d : tabData) (es : list Server.sse)
  : tabData :=
  fold_left (receive model) es d.

(** The two loops of [handleSubmit] over the selected models: every
    selected tab is set to empty data, then the codes of the selected
    tabs are collected for the request. *)
Definition resetTabs (selected : list str) (tabs : str -> option tabData)
  : str -> option tabData :=
  fun m => if existsb (str_eqb m) selected then Some emptyTab else tabs m.

Definition collectCodes (selected : list str) (tabs : str -> option tabData)
  : str -> option codeMap :=
  fun m =>
    if existsb (str_eqb m) selected then
      match tabs m with
      | Some d => Some (mkCode (t_html d) (t_css d) (t_js d))
      | None => None
      end
    else None.

(** The entity of a character, in [escapeHtml]. *)
Definition escapeChar (c : ascii) : str :=
  if Ascii.eqb c "&" then lit "&amp;"
  else if Ascii.eqb c "<" then lit "&lt;"
  else if Ascii.eqb c ">" then lit "&gt;"
  else if Ascii.eqb c "034" then lit "&quot;"
  else if Ascii.eqb c "'" then lit "&#039;"
  else [c].

(** [escapeHtml(text)] *)
Definition escapeHtml (text : str) : str := flat_map escapeChar text.

End Client.

(** ** Further notions used to state properties *)

Module More.

(** The text of the [Data] records of a sequence of writes. *)
Fixpoint rawOf (ws : list Server.sse) : str :=
  match ws with
  | [] => []
  | Server.Data _ d :: ws' => d ++ rawOf ws'
  | _ :: ws' => rawOf ws'
  end.

(** A stage's content between its markers. *)
Definition block (t : ModelManager.stage) (content : str) : str :=
  Server.marker t ++ content ++ Server.closeMarker.

(** The block of a stage that yielded the fragments [fs]; a stage
    without fragments has none. *)
Definition blockOf (t : ModelManager.stage) (fs : list str) : str :=
  match fs with
  | [] => []
  | _ => block t (concat fs)
  end.

(** The characters [escapeHtml] replaces, but for the ampersand. *)
Definition isMarkup (c : ascii) : bool :=
  Ascii.eqb c "<" || Ascii.eqb c ">" || Ascii.eqb c "034" || Ascii.eqb c "'".

End More.

(** * Properties *)

(** ** Facts about the string primitives *)

Module JSFacts.
Import Spec.

Lemma ascii_eqb_true (a b : ascii) : Ascii.eqb a b = true <-> a = b.
Proof. apply Ascii.eqb_eq. Qed.

Lemma starts_app (pat r : str) : starts pat (pat ++ r) = true.
Proof.
  induction pat as [|p pat IH]; simpl; [reflexivity|].
  now rewrite Ascii.eqb_refl, IH.
Qed.

Lemma starts_split (pat s : str) :
  starts pat s = true -> s = pat ++ skipn (length pat) s.
Proof.
  revert s; induction pat as [|p pat IH]; intros s H; simpl in *.
  - reflexivity.
  - destruct s as [|c s]; [discriminate|].
    apply andb_true_iff in H as [Hc Hs].
    apply Ascii.eqb_eq in Hc; subst c.
    simpl. f_equal. now apply IH.
Qed.

Lemma starts_length (pat s : str) :
  starts pat s = true -> (length pat <= length s)%nat.
Proof.
  intros H. apply starts_split in H.
  rewrite H, length_app. lia.
Qed.

Lemma starts_short (pat s : str) :
  (length s < length pat)%nat -> starts pat s = false.
Proof.
  intros H. destruct (starts pat s) eqn:E; [|reflexivity].
  apply starts_length in E. lia.
Qed.

Lemma starts_app_l (pat s r : str) :
  (length pat <= length s)%nat -> starts pat (s ++ r) = starts pat s.
Proof.
  revert s; induction pat as [|p pat IH]; intros s H; simpl in *.
  - reflexivity.
  - destruct s as [|c s]; simpl in *; [lia|].
    rewrite IH by lia. reflexivity.
Qed.

Lemma str_eqb_eq (a b : str) : str_eqb a b = true <-> a = b.
Proof.
  unfold str_eqb. split.
  - intros H. apply andb_true_iff in H as [H1 H2].
    apply Nat.eqb_eq in H2. apply starts_split in H1.
    rewrite H2, skipn_all, app_nil_r in H1. now symmetry.
  - intros ->. rewrite <- (app_nil_r b) at 2.
    now rewrite starts_app, Nat.eqb_refl.
Qed.

Lemma str_eqb_refl (a : str) : str_eqb a a = true.
Proof. now apply str_eqb_eq. Qed.

Lemma str_eqb_neq (a b : str) : a <> b -> str_eqb a b = false.
Proof.
  intros H. destruct (str_eqb a b) eqn:E; [|reflexivity].
  apply str_eqb_eq in E. contradiction.
Qed.

(** *** Searching *)

Lemma find_first_some (pat s : str) (i : nat) :
  find_first pat s = Some i -> firstAt pat s i.
Proof.
  revert i; induction s as [|c s IH]; intros i H.
  - simpl in H. destruct (starts pat []) eqn:E; [|discriminate].
    injection H as <-. split; [exact E|]. intros j Hj; lia.
  - simpl in H. destruct (starts pat (c :: s)) eqn:E.
    + injection H as <-. split; [exact E|]. intros j Hj; lia.
    + destruct (find_first pat s) as [i'|] eqn:F; [|discriminate].
      injection H as <-. destruct (IH i' eq_refl) as [Ho Hn].
      split; [exact Ho|].
      intros [|j] Hj; unfold occursAt; simpl.
      * now rewrite E.
      * apply Hn. lia.
Qed.

Lemma find_first_none (pat s : str) (j : nat) :
  find_first pat s = None -> starts pat (skipn j s) = false.
Proof.
  revert j; induction s as [|c s IH]; intros j H.
  - simpl in H. rewrite skipn_nil. now destruct (starts pat []).
  - simpl in H. destruct (starts pat (c :: s)) eqn:E; [discriminate|].
    destruct (find_first pat s) eqn:F; [discriminate|].
    destruct j as [|j]; simpl; [exact E|]. now apply IH.
Qed.

Lemma find_last_short (pat s : str) :
  (length s < length pat)%nat -> find_last pat s = None.
Proof.
  induction s as [|c s IH]; intros H; simpl.
  - now rewrite starts_short.
  - simpl in H. rewrite IH by lia. now rewrite starts_short.
Qed.

Lemma find_last_some (pat s : str) (i : nat) :
  pat <> [] -> find_last pat s = Some i -> lastAt pat s i.
Proof.
  intros Hp. revert i; induction s as [|c s IH]; intros i H.
  - simpl in H. destruct pat; [contradiction|discriminate].
  - simpl in H. destruct (find_last pat s) as [i'|] eqn:F.
    + injection H as <-. destruct (IH i' eq_refl) as [Ho Hn].
      split; [exact Ho|].
      intros [|j] Hj; [lia|]. unfold occursAt; simpl. apply Hn. lia.
    + destruct (starts pat (c :: s)) eqn:E; [|discriminate].
      injection H as <-. split; [exact E|].
      intros [|j] Hj; [lia|]. unfold occursAt; simpl.
      clear -F Hp. revert j. induction s as [|d s IH]; intros j.
      * rewrite skipn_nil. destruct pat; [contradiction|]. simpl. discriminate.
      * simpl in F. destruct (find_last pat s) eqn:G; [discriminate|].
        destruct (starts pat (d :: s)) eqn:E; [discriminate|].
        destruct j as [|j]; simpl; [now rewrite E|]. now apply IH.
Qed.

Lemma find_last_none (pat s : str) (j : nat) :
  pat <> [] -> find_last pat s = None -> starts pat (skipn j s) = false.
Proof.
  intros Hp. revert j. induction s as [|d s IH]; intros j F.
  - rewrite skipn_nil. destruct pat; [contradiction|]. reflexivity.
  - simpl in F. destruct (find_last pat s) eqn:G; [discriminate|].
    destruct (starts pat (d :: s)) eqn:E; [discriminate|].
    destruct j as [|j]; simpl; [exact E|]. now apply IH.
Qed.

Lemma lastAt_find_last (pat s : str) (i : nat) :
  pat <> [] -> lastAt pat s i -> find_last pat s = Some i.
Proof.
  intros Hp [Ho Hn]. destruct (find_last pat s) as [k|] eqn:F.
  - destruct (find_last_some _ _ _ Hp F) as [Ho' Hn'].
    destruct (Nat.lt_trichotomy i k) as [L|[->|L]]; [|reflexivity|].
    + exfalso. exact (Hn k L Ho').
    + exfalso. exact (Hn' i L Ho).
  - unfold occursAt in Ho. rewrite (find_last_none _ _ i Hp F) in Ho.
    discriminate.
Qed.

Lemma firstAt_find_first (pat s : str) (i : nat) :
  firstAt pat s i -> find_first pat s = Some i.
Proof.
  intros [Ho Hn]. destruct (find_first pat s) as [k|] eqn:F.
  - destruct (find_first_some _ _ _ F) as [Ho' Hn'].
    destruct (Nat.lt_trichotomy i k) as [L|[->|L]]; [|reflexivity|].
    + exfalso. exact (Hn' i L Ho).
    + exfalso. exact (Hn k L Ho').
  - unfold occursAt in Ho. rewrite (find_first_none _ _ i F) in Ho.
    discriminate.
Qed.

Lemma occursAt_bound (pat s : str) (i : nat) :
  occursAt pat s i -> (length pat <= length s - i)%nat.
Proof.
  unfold occursAt. intros H. apply starts_length in H.
  now rewrite length_skipn in H.
Qed.

Lemma occursAt_split (pat s : str) (i : nat) :
  occursAt pat s i ->
  s = firstn i s ++ pat ++ skipn (i + length pat) s.
Proof.
  unfold occursAt. intros H. apply starts_split in H.
  rewrite skipn_skipn in H. rewrite Nat.add_comm, <- H.
  now rewrite firstn_skipn.
Qed.

(** An occurrence that fits in [s] is an occurrence in [s ++ r]. *)
Lemma occursAt_app (pat s r : str) (i : nat) :
  (i + length pat <= length s)%nat ->
  starts pat (skipn i (s ++ r)) = starts pat (skipn i s).
Proof.
  intros H. rewrite skipn_app.
  replace (i - length s)%nat with O by lia. simpl.
  apply starts_app_l. rewrite length_skipn. lia.
Qed.

Lemma find_last_end (pat x : str) :
  pat <> [] -> find_last pat (x ++ pat) = Some (length x).
Proof.
  intros Hp. apply lastAt_find_last; [exact Hp|]. split.
  - unfold occursAt. rewrite skipn_app, skipn_all, Nat.sub_diag. simpl.
    rewrite <- (app_nil_r pat) at 2. apply starts_app.
  - intros j Hj Ho. apply occursAt_bound in Ho.
    rewrite length_app in Ho. destruct pat; [contradiction|]. simpl in Ho. lia.
Qed.

(** *** Slices *)

Lemma len_nonneg (s : str) : 0 <= len s.
Proof. unfold len; lia. Qed.

Lemma len_app (a b : str) : len (a ++ b) = len a + len b.
Proof. unfold len. rewrite length_app. lia. Qed.

Lemma slice_prefix (s : str) (i : nat) :
  slice s 0 (Z.of_nat i) = firstn i s.
Proof.
  unfold slice, clamp, len. simpl.
  destruct (Z.ltb_spec (Z.of_nat i) 0) as [E|E]; [lia|].
  rewrite (Z.min_l 0) by lia. change (Z.to_nat 0) with O. rewrite skipn_O.
  destruct (Z.min_spec (Z.of_nat i) (Z.of_nat (length s))) as [[L ->]|[L ->]].
  - f_equal. lia.
  - replace (Z.to_nat (Z.of_nat (length s) - 0)) with (length s) by lia.
    rewrite firstn_all. symmetry. apply firstn_all2. lia.
Qed.

Lemma slice_suffix (s : str) (i : nat) :
  slice_from s (Z.of_nat i) = skipn i s.
Proof.
  unfold slice_from, slice, clamp, len.
  destruct (Z.ltb_spec (Z.of_nat i) 0) as [E|E]; [lia|].
  destruct (Z.ltb_spec (Z.of_nat (length s)) 0) as [E2|E2]; [lia|].
  rewrite Z.min_id.
  destruct (Z.min_spec (Z.of_nat i) (Z.of_nat (length s))) as [[L ->]|[L ->]].
  - rewrite Nat2Z.id. apply firstn_all2. rewrite length_skipn. lia.
  - rewrite Nat2Z.id, skipn_all, firstn_nil.
    symmetry. apply skipn_all2. lia.
Qed.

Lemma slice_suffix_Z (s : str) (z : Z) :
  0 <= z -> slice_from s z = skipn (Z.to_nat z) s.
Proof. intros H. rewrite <- slice_suffix. f_equal. lia. Qed.

Lemma slice_prefix_Z (s : str) (z : Z) :
  0 <= z -> slice s 0 z = firstn (Z.to_nat z) s.
Proof. intros H. rewrite <- slice_prefix. f_equal. lia. Qed.

Lemma slice_tail (s : str) (k : nat) :
  (0 < k)%nat ->
  slice_from s (- Z.of_nat k) = skipn (length s - k) s.
Proof.
  intros Hk. unfold slice_from, slice, clamp, len.
  destruct (Z.ltb_spec (- Z.of_nat k) 0) as [E|E]; [|lia].
  destruct (Z.ltb_spec (Z.of_nat (length s)) 0) as [E2|E2]; [lia|].
  rewrite Z.min_id.
  replace (Z.to_nat (Z.max (Z.of_nat (length s) + - Z.of_nat k) 0))
    with (length s - k)%nat by lia.
  apply firstn_all2. rewrite length_skipn. lia.
Qed.

End JSFacts.

(** ** The tag filter *)

Module StreamProcessorFacts.
Import Spec Inv JSFacts StreamProcessor.

Lemma firstn_firstn_skipn {A} (a b : nat) (s : list A) :
  firstn a s ++ firstn b (skipn a s) = firstn (a + b) s.
Proof.
  revert s; induction a as [|a IH]; intros s; simpl; [reflexivity|].
  destruct s as [|x s]; simpl.
  - now rewrite firstn_nil.
  - now rewrite IH.
Qed.

(** *** The rounds of the loop, case by case *)

Lemma scan_nil (n : nat) (thinking : bool) (buf : str) :
  scan n thinking buf [] = Some ([], thinking, buf).
Proof. destruct n; reflexivity. Qed.

Section Rounds.
Variables (fuel : nat) (buf content : str).

Lemma len_cons_pos : content <> [] -> (len content >? 0) = true.
Proof.
  destruct content; [contradiction|]. intros _. unfold len. simpl length.
  apply Z.gtb_lt. lia.
Qed.

Lemma found_nonempty (pat : str) (i : nat) :
  pat <> [] -> find_first pat content = Some i -> content <> [].
Proof.
  intros Hp F ->. apply find_first_some in F as [Ho _].
  apply occursAt_bound in Ho. destruct pat; [contradiction|]. simpl in Ho. lia.
Qed.

Lemma found_index (i : nat) : negb (Z.of_nat i =? -1) = true.
Proof. destruct (Z.eqb_spec (Z.of_nat i) (-1)); [lia|reflexivity]. Qed.

Lemma len_gtb (k : nat) :
  (len content >? Z.of_nat k) = (k <? length content)%nat.
Proof.
  unfold len. destruct (Z.gtb_spec (Z.of_nat (length content)) (Z.of_nat k));
  destruct (Nat.ltb_spec k (length content)); try reflexivity; lia.
Qed.

Lemma len_geb (k : nat) :
  (len content >=? Z.of_nat k) = (k <=? length content)%nat.
Proof.
  unfold len. destruct (Z.geb_spec (Z.of_nat (length content)) (Z.of_nat k));
  destruct (Nat.leb_spec k (length content)); try reflexivity; lia.
Qed.

Lemma len_minus (k : nat) :
  (k <= length content)%nat ->
  len content - Z.of_nat k = Z.of_nat (length content - k).
Proof. unfold len. lia. Qed.

(** Entry of a round on a non-empty [content]. *)
Ltac round N :=
  cbn [scan]; rewrite (len_cons_pos N); unfold indexOf.

Lemma scan_close_found (i : nat) :
  find_first closeTag content = Some i ->
  scan (S fuel) true buf content = scan fuel false buf (skipn (i + 8) content).
Proof.
  intros F.
  assert (N : content <> []) by (eapply found_nonempty; [|exact F]; discriminate).
  round N. rewrite F. cbn [index_of_option]. rewrite found_index.
  rewrite slice_suffix_Z by lia.
  replace (Z.to_nat (Z.of_nat i + 8)) with (i + 8)%nat by lia. reflexivity.
Qed.

Lemma scan_span_long :
  find_first closeTag content = None -> (7 < length content)%nat ->
  scan (S fuel) true buf content
  = Some ([], true, skipn (length content - 7) content).
Proof.
  intros F L.
  assert (N : content <> []) by (intros ->; simpl in L; lia).
  round N. rewrite F. cbn [index_of_option].
  change (negb (-1 =? -1)) with false. cbv iota.
  change 7 with (Z.of_nat 7). rewrite len_gtb.
  apply Nat.ltb_lt in L. rewrite L.
  change (-7) with (- Z.of_nat 7).
  rewrite scan_nil, slice_tail by lia. reflexivity.
Qed.

Lemma scan_span_short :
  find_first closeTag content = None -> content <> [] ->
  (length content <= 7)%nat ->
  scan (S fuel) true buf content = Some ([], true, content).
Proof.
  intros F N L. round N. rewrite F. cbn [index_of_option].
  change (negb (-1 =? -1)) with false. cbv iota.
  change 7 with (Z.of_nat 7). rewrite len_gtb.
  apply Nat.ltb_ge in L. rewrite L. now rewrite scan_nil.
Qed.

Lemma scan_open_found (i : nat) :
  find_first openTag content = Some i ->
  scan (S fuel) false buf content
  = let rest := scan fuel true buf (skipn (i + 7) content) in
    match i with
    | O => rest
    | _ => yield (firstn i content) rest
    end.
Proof.
  intros F.
  assert (N : content <> []) by (eapply found_nonempty; [|exact F]; discriminate).
  round N. rewrite F. cbn [index_of_option]. rewrite found_index.
  cbv iota zeta. rewrite slice_suffix_Z by lia.
  replace (Z.to_nat (Z.of_nat i + 7)) with (i + 7)%nat by lia.
  rewrite slice_prefix.
  destruct i; [reflexivity|].
  destruct (Z.gtb_spec (Z.of_nat (S i)) 0); [reflexivity|lia].
Qed.

Lemma scan_text_hold (j : nat) :
  find_first openTag content = None -> (7 <= length content)%nat ->
  find_last lt (skipn (length content - 6) content) = Some j ->
  scan (S fuel) false buf content
  = Some ([firstn (length content - 6 + j) content], false,
          skipn (length content - 6 + j) content).
Proof.
  intros F L H.
  assert (N : content <> []) by (intros ->; simpl in L; lia).
  round N. rewrite F. cbn [index_of_option].
  change (negb (-1 =? -1)) with false. cbv iota zeta.
  change 7 with (Z.of_nat 7). rewrite len_geb.
  apply Nat.leb_le in L. rewrite L. apply Nat.leb_le in L.
  change 6 with (Z.of_nat 6). rewrite len_minus by lia.
  rewrite slice_suffix. unfold lastIndexOf. rewrite H.
  cbn [index_of_option]. rewrite found_index.
  rewrite scan_nil. cbn [yield].
  rewrite !slice_prefix, slice_suffix, firstn_firstn_skipn, skipn_skipn.
  do 3 f_equal. lia.
Qed.

Lemma scan_text_long :
  find_first openTag content = None -> (7 <= length content)%nat ->
  find_last lt (skipn (length content - 6) content) = None ->
  scan (S fuel) false buf content = Some ([content], false, buf).
Proof.
  intros F L H.
  assert (N : content <> []) by (intros ->; simpl in L; lia).
  round N. rewrite F. cbn [index_of_option].
  change (negb (-1 =? -1)) with false. cbv iota zeta.
  change 7 with (Z.of_nat 7). rewrite len_geb.
  apply Nat.leb_le in L. rewrite L. apply Nat.leb_le in L.
  change 6 with (Z.of_nat 6). rewrite len_minus by lia.
  rewrite slice_suffix. unfold lastIndexOf. rewrite H.
  cbn [index_of_option]. change (negb (-1 =? -1)) with false. cbv iota.
  now rewrite scan_nil.
Qed.

Lemma scan_short_hold (k : nat) :
  find_first openTag content = None -> (length content < 7)%nat ->
  find_first lt content = Some k ->
  scan (S fuel) false buf content = Some ([], false, content).
Proof.
  intros F L H.
  assert (N : content <> []) by (eapply found_nonempty; [|exact H]; discriminate).
  round N. rewrite F. cbn [index_of_option].
  change (negb (-1 =? -1)) with false. cbv iota.
  change 7 with (Z.of_nat 7). rewrite len_geb.
  assert (E : (7 <=? length content)%nat = false) by (apply Nat.leb_gt; lia).
  rewrite E. unfold includes. rewrite H. now rewrite scan_nil.
Qed.

Lemma scan_short_text :
  find_first openTag content = None -> content <> [] ->
  (length content < 7)%nat -> find_first lt content = None ->
  scan (S fuel) false buf content = Some ([content], false, buf).
Proof.
  intros F N L H.
  round N. rewrite F. cbn [index_of_option].
  change (negb (-1 =? -1)) with false. cbv iota.
  change 7 with (Z.of_nat 7). rewrite len_geb.
  assert (E : (7 <=? length content)%nat = false) by (apply Nat.leb_gt; lia).
  rewrite E. unfold includes. rewrite H. now rewrite scan_nil.
Qed.

End Rounds.

(** *** The reference reading *)

Lemma strip_skip (inSpan : bool) (a r : str) :
  strip inSpan (length a) (a ++ r) = strip inSpan 0 r.
Proof. induction a as [|c a IH]; simpl; [reflexivity|exact IH]. Qed.

Lemma strip_open (r : str) : strip false 0 (openTag ++ r) = strip true 0 r.
Proof.
  change (openTag ++ r) with ("<"%char :: lit "think>" ++ r).
  cbn [strip]. change ("<"%char :: lit "think>" ++ r) with (openTag ++ r).
  rewrite starts_app. exact (strip_skip true (lit "think>") r).
Qed.

Lemma strip_close (r : str) : strip true 0 (closeTag ++ r) = strip false 0 r.
Proof.
  change (closeTag ++ r) with ("<"%char :: lit "/think>" ++ r).
  cbn [strip]. change ("<"%char :: lit "/think>" ++ r) with (closeTag ++ r).
  rewrite starts_app. exact (strip_skip false (lit "/think>") r).
Qed.

Lemma strip_text (a r : str) :
  (forall j, (j < length a)%nat ->
             starts openTag (skipn j (a ++ r)) = false) ->
  strip false 0 (a ++ r) = a ++ strip false 0 r.
Proof.
  induction a as [|c a IH]; intros H; [reflexivity|].
  change ((c :: a) ++ r) with (c :: a ++ r). cbn [strip].
  pose proof (H O ltac:(simpl; lia)) as H0.
  change (skipn 0 ((c :: a) ++ r)) with (c :: a ++ r) in H0. rewrite H0.
  change ((c :: a) ++ strip false 0 r) with (c :: a ++ strip false 0 r).
  f_equal. apply IH. intros j Hj. apply (H (S j)). simpl; lia.
Qed.

Lemma strip_hidden (a r : str) :
  (forall j, (j < length a)%nat ->
             starts closeTag (skipn j (a ++ r)) = false) ->
  strip true 0 (a ++ r) = strip true 0 r.
Proof.
  induction a as [|c a IH]; intros H; [reflexivity|].
  change ((c :: a) ++ r) with (c :: a ++ r). cbn [strip].
  pose proof (H O ltac:(simpl; lia)) as H0.
  change (skipn 0 ((c :: a) ++ r)) with (c :: a ++ r) in H0. rewrite H0.
  apply IH. intros j Hj. apply (H (S j)). simpl; lia.
Qed.

(** An occurrence of a pattern fixes the code units it covers. *)
Lemma starts_nth (pat s : str) (p d : nat) :
  starts pat (skipn p s) = true -> (d < length pat)%nat ->
  nth_error s (p + d) = nth_error pat d.
Proof.
  intros H Hd. apply starts_split in H.
  rewrite <- nth_error_skipn, H. now apply nth_error_app1.
Qed.

Lemma lt_at (s : str) (j : nat) :
  starts lt (skipn j s) = true <-> nth_error s j = Some "<"%char.
Proof.
  rewrite <- (Nat.add_0_r j) at 2. rewrite <- nth_error_skipn.
  change lt with ["<"%char].
  destruct (skipn j s) as [|c t]; cbn [starts nth_error];
    [split; discriminate|].
  rewrite andb_true_r. split.
  - intros E. apply Ascii.eqb_eq in E. now subst.
  - intros [= <-]. apply Ascii.eqb_refl.
Qed.

(** No delimiter starts where there is no ['<']. *)
Lemma open_needs_lt (s : str) (p : nat) :
  starts openTag (skipn p s) = true -> nth_error s p = Some "<"%char.
Proof.
  intros H. rewrite <- (Nat.add_0_r p).
  rewrite (starts_nth openTag s p 0 H); [reflexivity|simpl; lia].
Qed.

(** Inside an opening delimiter, the only ['<'] is the first unit. *)
Lemma open_one_lt (s : str) (p q : nat) :
  starts openTag (skipn p s) = true -> (p < q)%nat -> (q < p + 7)%nat ->
  nth_error s q <> Some "<"%char.
Proof.
  intros H L U. replace q with (p + (q - p))%nat by lia.
  rewrite (starts_nth openTag s p (q - p) H) by (simpl; lia).
  assert (D : (0 < q - p < 7)%nat) by lia.
  destruct (q - p)%nat as [|[|[|[|[|[|[|k]]]]]]] eqn:E;
    try lia; simpl; discriminate.
Qed.

(** *** One call of the loop *)

(** The loop ends within one round per code unit; what it yields and
    what it keeps back read, together with any text still to come, as
    the input does; and what it keeps back is shorter than a
    delimiter. *)
Lemma scan_spec (fuel : nat) :
  forall (thinking : bool) (content : str),
    (length content <= fuel)%nat ->
    exists out t b,
      scan fuel thinking [] content = Some (out, t, b)
      /\ (forall rest, concat out ++ strip t 0 (b ++ rest)
                       = strip thinking 0 (content ++ rest))
      /\ (length b <= holds t)%nat.
Proof.
  induction fuel as [|fuel IH]; intros thinking content Hlen.
  { destruct content; [|simpl in Hlen; lia].
    exists [], thinking, []. repeat split. destruct thinking; simpl; lia. }
  destruct (list_eq_dec Ascii.ascii_dec content []) as [->|N].
  { exists [], thinking, []. repeat split. destruct thinking; simpl; lia. }
  assert (Hpos : (0 < length content)%nat).
  { destruct content; [contradiction|simpl; lia]. }
  destruct thinking.
  - (* inside a span *)
    destruct (find_first closeTag content) as [i|] eqn:F.
    + rewrite (scan_close_found _ _ _ _ F).
      destruct (find_first_some _ _ _ F) as [Ho Hn].
      pose proof (occursAt_bound _ _ _ Ho) as Hb. simpl in Hb.
      destruct (IH false (skipn (i + 8) content)) as (out & t & b & E & Hs & Hk).
      { rewrite length_skipn. lia. }
      exists out, t, b. split; [exact E|]. split; [|exact Hk].
      intros rest. rewrite Hs.
      assert (Hc : content ++ rest
                   = firstn i content ++ closeTag
                     ++ skipn (i + 8) content ++ rest).
      { rewrite (occursAt_split _ _ _ Ho) at 1.
        now rewrite <- !app_assoc. }
      rewrite Hc. rewrite strip_hidden; [now rewrite strip_close|].
      intros j Hj. rewrite <- Hc. rewrite length_firstn in Hj.
      rewrite occursAt_app by (simpl; lia).
      apply not_true_iff_false. apply Hn. lia.
    + destruct (Nat.ltb_spec 7 (length content)) as [L|L].
      * rewrite (scan_span_long _ _ _ F L).
        exists [], true, (skipn (length content - 7) content).
        split; [reflexivity|]. split; [|rewrite length_skipn; simpl; lia].
        intros rest. simpl concat. rewrite app_nil_l.
        rewrite <- (firstn_skipn (length content - 7) content) at 3.
        rewrite <- app_assoc. symmetry. apply strip_hidden.
        intros j Hj. rewrite length_firstn in Hj.
        rewrite app_assoc, firstn_skipn.
        rewrite occursAt_app by (simpl; lia).
        now apply find_first_none.
      * rewrite (scan_span_short _ _ _ F N L).
        exists [], true, content. repeat split. simpl; lia.
  - (* ordinary text *)
    destruct (find_first openTag content) as [i|] eqn:F.
    + rewrite (scan_open_found _ _ _ _ F). cbv zeta.
      destruct (find_first_some _ _ _ F) as [Ho Hn].
      pose proof (occursAt_bound _ _ _ Ho) as Hb. simpl in Hb.
      destruct (IH true (skipn (i + 7) content)) as (out & t & b & E & Hs & Hk).
      { rewrite length_skipn. lia. }
      rewrite E.
      assert (Hc : forall rest,
                 content ++ rest
                 = firstn i content ++ openTag
                   ++ skipn (i + 7) content ++ rest).
      { intros rest. rewrite (occursAt_split _ _ _ Ho) at 1.
        now rewrite <- !app_assoc. }
      assert (Hr : forall rest,
                 strip false 0 (content ++ rest)
                 = firstn i content
                   ++ strip true 0 (skipn (i + 7) content ++ rest)).
      { intros rest. rewrite Hc. rewrite strip_text; [now rewrite strip_open|].
        intros j Hj. rewrite <- Hc. rewrite length_firstn in Hj.
        rewrite occursAt_app by (simpl; lia).
        apply not_true_iff_false. apply Hn. lia. }
      destruct i as [|i].
      * exists out, t, b. split; [reflexivity|]. split; [|exact Hk].
        intros rest. now rewrite Hr, Hs.
      * exists (firstn (S i) content :: out), t, b.
        split; [reflexivity|]. split; [|exact Hk].
        intros rest. rewrite Hr. cbn [concat].
        now rewrite <- app_assoc, Hs.
    + assert (Hfar : forall rest p,
                 (p + 7 <= length content)%nat ->
                 starts openTag (skipn p (content ++ rest)) = false).
      { intros rest p Hp. rewrite occursAt_app by (simpl; lia).
        now apply find_first_none. }
      destruct (Nat.leb_spec 7 (length content)) as [L|L].
      * destruct (find_last lt (skipn (length content - 6) content))
          as [j|] eqn:H.
        -- rewrite (scan_text_hold _ _ _ _ F L H).
           destruct (find_last_some lt _ _ ltac:(discriminate) H) as [Ho _].
           pose proof (occursAt_bound _ _ _ Ho) as Hb.
           rewrite length_skipn in Hb. simpl in Hb.
           apply lt_at in Ho. rewrite nth_error_skipn in Ho.
           set (q := (length content - 6 + j)%nat) in *.
           exists [firstn q content], false, (skipn q content).
           split; [reflexivity|].
           split; [|rewrite length_skipn; simpl; lia].
           intros rest. cbn [concat]. rewrite app_nil_r.
           rewrite <- (firstn_skipn q content) at 3.
           rewrite <- app_assoc. symmetry. apply strip_text.
           intros p Hp. rewrite length_firstn in Hp.
           rewrite app_assoc, firstn_skipn.
           destruct (Nat.le_gt_cases (p + 7) (length content)) as [C|C];
             [now apply Hfar|].
           destruct (starts openTag (skipn p (content ++ rest))) eqn:E;
             [exfalso|reflexivity].
           apply (open_one_lt _ p q E); [lia|lia|].
           rewrite nth_error_app1 by lia. exact Ho.
        -- rewrite (scan_text_long _ _ _ F L H).
           exists [content], false, []. split; [reflexivity|].
           split; [|simpl; lia].
           intros rest. cbn [concat]. rewrite app_nil_r. cbn [app].
           symmetry. apply strip_text. intros p Hp.
           destruct (Nat.le_gt_cases (p + 7) (length content)) as [C|C];
             [now apply Hfar|].
           destruct (starts openTag (skipn p (content ++ rest))) eqn:E;
             [exfalso|reflexivity].
           apply open_needs_lt in E. rewrite nth_error_app1 in E by lia.
           replace p with (length content - 6 + (p - (length content - 6)))%nat
             in E by lia.
           rewrite <- nth_error_skipn in E. apply lt_at in E.
           rewrite (find_last_none lt _ _ ltac:(discriminate) H) in E.
           discriminate.
      * destruct (find_first lt content) as [k|] eqn:H.
        -- rewrite (scan_short_hold _ _ _ _ F L H).
           exists [], false, content. repeat split. simpl; lia.
        -- rewrite (scan_short_text _ _ _ F N L H).
           exists [content], false, []. split; [reflexivity|].
           split; [|simpl; lia].
           intros rest. cbn [concat]. rewrite app_nil_r. cbn [app].
           symmetry. apply strip_text. intros p Hp.
           destruct (starts openTag (skipn p (content ++ rest))) eqn:E;
             [exfalso|reflexivity].
           apply open_needs_lt in E. rewrite nth_error_app1 in E by lia.
           apply lt_at in E. rewrite (find_first_none lt _ p H) in E.
           discriminate.
Qed.

(** The loop always ends within the rounds that [process] grants it. *)
Corollary scan_total (thinking : bool) (content : str) :
  exists r, scan (length content) thinking [] content = Some r.
Proof.
  destruct (scan_spec (length content) thinking content (le_n _))
    as (out & t & b & E & _).
  now exists (out, t, b).
Qed.

(** *** Calls of [process] *)

Lemma plain_new : plain (new false).
Proof. split; [reflexivity|simpl; lia]. Qed.

Lemma text_map (out : list str) : text (map Text out) = concat out.
Proof. induction out as [|o out IH]; simpl; [reflexivity|now rewrite IH]. Qed.

Lemma process_spec (st : state) (chunk : str) :
  plain st ->
  exists out st',
    process st chunk = (map Text out, st')
    /\ plain st'
    /\ forall rest,
         concat out ++ strip (isThinking st') 0 (buffer st' ++ rest)
         = strip (isThinking st) 0 (buffer st ++ chunk ++ rest).
Proof.
  intros [Hx Hb]. destruct chunk as [|c chunk].
  { exists [], st. repeat split; assumption. }
  unfold process. rewrite Hx. cbn [andb].
  set (content := buffer st ++ c :: chunk).
  destruct (scan_spec (length content) (isThinking st) content (le_n _))
    as (out & t & b & E & Hs & Hk).
  rewrite E. eexists out, _. split; [reflexivity|].
  split; [split; [reflexivity|exact Hk]|].
  intros rest. cbn [isThinking buffer]. rewrite Hs.
  unfold content. now rewrite <- app_assoc.
Qed.

Lemma feed_spec (chunks : list str) :
  forall st, plain st ->
  exists out st',
    feed st chunks = (map Text out, st')
    /\ plain st'
    /\ forall rest,
         concat out ++ strip (isThinking st') 0 (buffer st' ++ rest)
         = strip (isThinking st) 0 (buffer st ++ concat chunks ++ rest).
Proof.
  induction chunks as [|c chunks IH]; intros st Hp.
  { exists [], st. split; [reflexivity|]. split; [exact Hp|reflexivity]. }
  destruct (process_spec st c Hp) as (o1 & st1 & E1 & Hp1 & Hs1).
  destruct (IH st1 Hp1) as (o2 & st2 & E2 & Hp2 & Hs2).
  exists (o1 ++ o2), st2. cbn [feed]. rewrite E1, E2.
  split; [now rewrite map_app|]. split; [exact Hp2|].
  intros rest. rewrite concat_app, <- app_assoc, Hs2.
  cbn [concat]. rewrite <- app_assoc. apply Hs1.
Qed.

(** What is withheld reads as itself. *)
Lemma strip_withheld (st : state) :
  plain st -> strip (isThinking st) 0 (buffer st) = withheld st.
Proof.
  intros [_ Hb]. unfold withheld. rewrite <- (app_nil_r (buffer st)) at 1.
  destruct (isThinking st); simpl in Hb.
  - rewrite strip_hidden; [reflexivity|].
    intros j _. apply starts_short. rewrite app_nil_r, length_skipn.
    simpl. lia.
  - rewrite strip_text; [apply app_nil_r|].
    intros j _. apply starts_short. rewrite app_nil_r, length_skipn.
    simpl. lia.
Qed.

Lemma finalize_plain (st : state) : plain st -> finalize st = ([], st).
Proof. intros [Hx _]. unfold finalize. now rewrite Hx. Qed.

(** *** The claims about the tag filter *)

(** How far the filter gets: for every split of an input into chunks,
    the fragments the filter yields, followed by the tail it still
    withholds when it ends in Normal state, are the input with every
    reasoning span removed; the tail is at most six code units long.
    Nothing ever hands that tail on: [filter] includes [finalize],
    which yields nothing. *)
Theorem filter_up_to_withheld (chunks : list str) :
  filter chunks ++ withheld (snd (feed (new false) chunks))
  = removeSpans (concat chunks)
  /\ (length (withheld (snd (feed (new false) chunks))) <= 6)%nat.
Proof.
  destruct (feed_spec chunks (new false) plain_new) as (out & st & E & Hp & Hs).
  unfold filter. rewrite E. cbn [snd].
  rewrite (finalize_plain st Hp). cbn [fst text].
  rewrite app_nil_r, text_map.
  specialize (Hs []). rewrite !app_nil_r in Hs.
  rewrite strip_withheld in Hs by exact Hp. split; [exact Hs|].
  destruct Hp as [_ Hb]. unfold withheld.
  destruct (isThinking st); simpl in *; lia.
Qed.

(** C2: the filter's output is not the input with the reasoning spans
    removed.  The response [<div>hello</div>] has no reasoning span at
    all, yet its last six code units never come out: line 145 keeps
    them back in case they begin a delimiter, and nothing yields them
    once the stream has ended, although the class is written to remove
    reasoning spans and nothing else, and the buffer of the fence
    extractor beside it is flushed by [finalize] at the end of the
    stream. *)
Lemma filter_loses_tail :
  let chunks := [lit "<div>hello</div>"] in
  wellFormed false 0 (concat chunks) = true
  /\ filter chunks = lit "<div>hello"
  /\ removeSpans (concat chunks) = lit "<div>hello</div>"
  /\ filter chunks <> removeSpans (concat chunks).
Proof.
  repeat split; try (vm_compute; reflexivity).
  vm_compute. discriminate.
Qed.

(** What [finalize] does for the processors the program builds:
    whatever chunks a processor has been fed and whichever state they
    leave it in, it yields nothing and changes nothing.  Inside a span
    that is what is asked of it; in Normal state the withheld tail is
    left in the buffer. *)
Theorem finalize_yields_nothing (chunks : list str) :
  let st := snd (feed (new false) chunks) in
  finalize st = ([], st).
Proof.
  destruct (feed_spec chunks (new false) plain_new) as (out & st & E & Hp & _).
  rewrite E. cbn [snd]. now apply finalize_plain.
Qed.

(** C7: in Normal state [finalize] does not hand on the withheld tail.
    After the chunk [a<] the processor is in Normal state and withholds
    both code units, and [finalize] yields none of them: its body
    (lines 171-176) only serves the code-block mode, where it does pass
    on what remains, as [CodeBlockParser.finalize] does for its own
    buffer. *)
Lemma finalize_keeps_tail :
  let st := snd (feed (new false) [lit "a<"]) in
  isThinking st = false
  /\ buffer st = lit "a<"
  /\ fst (finalize st) <> [Text (lit "a<")].
Proof.
  repeat split; try (vm_compute; reflexivity).
  vm_compute. discriminate.
Qed.

End StreamProcessorFacts.

(** ** The fence extractor *)

Module CodeBlockParserFacts.
Import Spec Inv JSFacts CodeBlockParser.

Lemma fence_nonempty : fence <> [].
Proof. discriminate. Qed.

Lemma includes_free (s : str) : includes s fence = false -> free s.
Proof.
  unfold includes. destruct (find_first fence s) eqn:F; [discriminate|].
  intros _ j. now apply find_first_none.
Qed.

Lemma free_app (a b : str) : free (a ++ b) -> free a /\ free b.
Proof.
  intros H. split; intros j.
  - destruct (starts fence (skipn j a)) eqn:E; [|reflexivity].
    pose proof (starts_length _ _ E) as L. rewrite length_skipn in L.
    simpl in L. rewrite <- (H j), occursAt_app; [now symmetry|simpl; lia].
  - rewrite <- (H (length a + j)%nat), skipn_app.
    rewrite (skipn_all2 (n := length a + j) a) by lia.
    now replace (length a + j - length a)%nat with j by lia.
Qed.

Lemma free_find_last (s : str) : free s -> find_last fence s = None.
Proof.
  intros H. destruct (find_last fence s) as [i|] eqn:F; [|reflexivity].
  apply find_last_some in F as [Ho _]; [|exact fence_nonempty].
  unfold occursAt in Ho. now rewrite H in Ho.
Qed.

(** *** Inside a block *)

Lemma concat_nonEmpty (s : str) : concat (nonEmpty s) = s.
Proof. destruct s; [reflexivity|]. simpl. now rewrite app_nil_r. Qed.

(** Without a fence in the buffer the parser stays in the block, and
    what it yields and what it retains make up the buffer. *)
Lemma inBlock_stream (st : state) :
  streaming st -> free (buffer st) ->
  exists out st',
    inBlock st = (out, st')
    /\ concat out ++ buffer st' = buffer st
    /\ streaming st'.
Proof.
  intros [Hi Hc] Hf. unfold inBlock. cbv zeta.
  rewrite Hi, Hc. cbn [negb andb].
  unfold lastIndexOf at 1. rewrite (free_find_last _ Hf).
  cbn [index_of_option]. change (negb (-1 =? -1)) with false. cbn [andb].
  destruct (negb (lastIndexOf (buffer st) tick =? -1)
            && (lastIndexOf (buffer st) tick >=? len (buffer st) - 2)).
  - eexists _, _. split; [reflexivity|]. cbn [buffer setBuffer].
    split; [|split; assumption].
    rewrite concat_nonEmpty.
    assert (H : 0 <= Z.max 0 (len (buffer st) - 2)) by lia.
    rewrite slice_prefix_Z, slice_suffix_Z by exact H.
    apply firstn_skipn.
  - destruct (buffer st) as [|c b] eqn:B.
    + exists [], st. rewrite B. repeat split; assumption.
    + eexists _, _. split; [reflexivity|]. cbn [buffer setBuffer concat].
      split; [now rewrite !app_nil_r|split; assumption].
Qed.

(** A buffer that ends with a fence, with text before it, closes the
    block and yields that text. *)
Lemma inBlock_close (st : state) (x : str) :
  streaming st -> x <> [] -> buffer st = x ++ fence ->
  inBlock st
  = ([x], {| buffer := []; inCodeBlock := true;
             codeStartIndex := codeStartIndex st;
             languageTag := languageTag st; codeBlockComplete := true |}).
Proof.
  intros [Hi Hc] Hx B. unfold inBlock. cbv zeta.
  rewrite Hi, Hc, B. cbn [negb andb]. unfold lastIndexOf.
  rewrite (find_last_end fence x fence_nonempty). cbn [index_of_option].
  assert (L : (0 < length x)%nat) by (destruct x; [contradiction|simpl; lia]).
  destruct (Z.eqb_spec (Z.of_nat (length x)) (-1)) as [E|_]; [lia|].
  destruct (Z.gtb_spec (Z.of_nat (length x)) 0) as [_|E]; [|lia].
  cbn [negb andb]. rewrite slice_prefix.
  rewrite firstn_app, firstn_all, Nat.sub_diag, firstn_O, app_nil_r.
  destruct x; [contradiction|reflexivity].
Qed.

(** *** The opening line *)

Lemma find_first_starts (pat s : str) :
  starts pat s = true -> find_first pat s = Some O.
Proof. intros H. destruct s; simpl; now rewrite H. Qed.

Lemma wordRun_word (lang r : str) (c : ascii) :
  Forall (fun c => is_word c = true) lang -> is_word c = false ->
  wordRun (lang ++ c :: r) = lang.
Proof.
  intros H Hc. induction H as [|d lang Hd _ IH]; simpl.
  - now rewrite Hc.
  - now rewrite Hd, IH.
Qed.

Lemma matchLang_word (lang r : str) :
  isWord lang -> matchLang (lang ++ nl :: r) = Some lang.
Proof.
  intros [Hn Hw]. unfold matchLang. cbv zeta.
  rewrite (wordRun_word lang r nl Hw eq_refl).
  destruct lang as [|a l] eqn:El; [contradiction|]. rewrite <- El.
  now rewrite skipn_app, skipn_all, Nat.sub_diag.
Qed.

Lemma skipBlank_clean (p : str) (i : Z) :
  startsClean p -> skipBlank p i = i.
Proof. destruct p as [|c p]; simpl; [reflexivity|]. now intros ->. Qed.

(** The chunk that brings the whole opening line leaves the parser in
    the block, with the text after the line as its buffer. *)
Lemma open_header (lang p : str) :
  isWord lang -> startsClean p ->
  processChunk init (header lang ++ p)
  = inBlock {| buffer := p; inCodeBlock := true; codeStartIndex := 0;
               languageTag := lang; codeBlockComplete := false |}.
Proof.
  intros Hw Hp.
  assert (E : header lang ++ p = fence ++ lang ++ nl :: p).
  { unfold header. now rewrite <- !app_assoc. }
  rewrite E. set (buf := fence ++ lang ++ nl :: p).
  assert (Hb : processChunk init buf
               = inBlock (openBlock (setBuffer init buf) 0)).
  { change buf with ("`"%char :: "`"%char :: "`"%char :: lang ++ nl :: p).
    cbn [processChunk].
    change ("`"%char :: "`"%char :: "`"%char :: lang ++ nl :: p) with buf.
    cbn [buffer init app setBuffer inCodeBlock negb].
    unfold indexOf. rewrite (find_first_starts fence buf (starts_app _ _)).
    reflexivity. }
  rewrite Hb. f_equal. unfold openBlock. cbn [buffer setBuffer].
  change (0 + 3) with (Z.of_nat 3). rewrite slice_suffix.
  change (skipn 3 buf) with (lang ++ nl :: p).
  rewrite (matchLang_word lang p Hw).
  unfold len. rewrite <- Nat2Z.inj_add, Nat2Z.id.
  assert (S1 : skipn (3 + length lang) buf = nl :: p).
  { unfold buf. change (3 + length lang)%nat with (length fence + length lang)%nat.
    rewrite app_assoc, <- length_app.
    now rewrite skipn_app, skipn_all, Nat.sub_diag. }
  rewrite S1. cbn [skipBlank]. change (is_blank nl) with true. cbv iota.
  rewrite (skipBlank_clean p _ Hp).
  change 1 with (Z.of_nat 1). rewrite <- Nat2Z.inj_add, slice_suffix.
  rewrite (Nat.add_comm _ 1), <- skipn_skipn, S1. reflexivity.
Qed.

(** *** Chunk after chunk *)

Lemma streaming_setBuffer (st : state) (b : str) :
  streaming st -> streaming (setBuffer st b).
Proof. intros H; exact H. Qed.

Lemma step_stream (st : state) (p : str) :
  streaming st -> free (buffer st ++ p) ->
  exists out st',
    processChunk st p = (out, st')
    /\ concat out ++ buffer st' = buffer st ++ p
    /\ streaming st'.
Proof.
  intros Hs Hf. destruct p as [|c p].
  { exists [], st. rewrite app_nil_r. repeat split; apply Hs. }
  cbn [processChunk]. destruct Hs as [Hi Hc].
  cbn [inCodeBlock setBuffer]. rewrite Hi. cbn [negb].
  apply (inBlock_stream (setBuffer st (buffer st ++ c :: p)));
    [split; assumption|exact Hf].
Qed.

Lemma feed_app (a b : list str) (st : state) :
  feed st (a ++ b)
  = let '(o1, f1, s1) := feed st a in
    let '(o2, f2, s2) := feed s1 b in
    (o1 ++ o2, f1 ++ f2, s2).
Proof.
  revert st; induction a as [|c a IH]; intros st.
  - cbn [app feed]. now destruct (feed st b) as [[o f] s].
  - cbn [app feed]. destruct (processChunk st c) as [o st1].
    rewrite IH. destruct (feed st1 a) as [[o1 f1] s1].
    destruct (feed s1 b) as [[o2 f2] s2]. now rewrite app_assoc.
Qed.

Lemma feed_stream (ps : list str) :
  forall st, streaming st -> free (buffer st ++ concat ps) ->
  exists outs st',
    feed st ps = (outs, repeat false (length ps), st')
    /\ concat outs ++ buffer st' = buffer st ++ concat ps
    /\ streaming st'.
Proof.
  induction ps as [|p ps IH]; intros st Hs Hf.
  { exists [], st. cbn [concat]. rewrite app_nil_r. repeat split; apply Hs. }
  cbn [concat] in Hf. pose proof Hf as Hf1.
  rewrite app_assoc in Hf1. apply free_app in Hf1 as [Hf1 _].
  destruct (step_stream st p Hs Hf1) as (o1 & st1 & E1 & C1 & Hs1).
  assert (Hf2 : free (buffer st1 ++ concat ps)).
  { rewrite app_assoc, <- C1, <- app_assoc in Hf.
    now apply free_app in Hf as [_ Hf]. }
  destruct (IH st1 Hs1 Hf2) as (o2 & st2 & E2 & C2 & Hs2).
  exists (o1 ++ o2), st2. cbn [feed]. rewrite E1, E2.
  destruct Hs1 as [_ Hc1]. rewrite Hc1.
  split; [reflexivity|]. split; [|exact Hs2].
  rewrite concat_app, <- app_assoc, C2. cbn [concat].
  now rewrite !app_assoc, C1.
Qed.

Lemma repeat_snoc {A} (x : A) (n : nat) :
  x :: repeat x n = repeat x n ++ [x].
Proof. induction n as [|n IH]; simpl; [reflexivity|now rewrite <- IH]. Qed.

(** *** The claims about the fence extractor *)

(** Splits on which the round trip does hold: for every language tag
    that is a word, every content without a fence that does not begin
    with a blank, and every split of the fenced block that keeps the
    opening line whole in the first chunk and the closing fence, with
    at least one code unit of content before it, whole in the last
    chunk: the fragments yielded by [processChunk] followed by those of
    [finalize] are the content; [codeBlockComplete] is false after
    every chunk but the last and true after the last; and [finalize]
    yields nothing. *)
Theorem fence_roundtrip (lang content : str) (chunks : list str) :
  isWord lang -> includes content fence = false -> startsClean content ->
  keepsMarkers lang content chunks ->
  concat chunks = fenced lang content
  /\ extract chunks = content
  /\ snd (fst (feed init chunks)) = repeat false (length chunks - 1) ++ [true]
  /\ fst (finalize (snd (feed init chunks))) = [].
Proof.
  intros Hw Hi Hc [[Hn ->]|(p0 & ps & q & Hq & -> & ->)].
  - (* one chunk *)
    assert (E : feed init [fenced lang content]
                = ([content], [true],
                   {| buffer := []; inCodeBlock := true; codeStartIndex := 0;
                      languageTag := lang; codeBlockComplete := true |})).
    { cbn [feed]. unfold fenced. rewrite (open_header lang _ Hw).
      - rewrite (inBlock_close _ content); [reflexivity|split; reflexivity
                                           |exact Hn|reflexivity].
      - destruct content; [contradiction|exact Hc]. }
    unfold extract. rewrite E. cbn.
    repeat split; now rewrite ?app_nil_r.
  - (* the opening line, the middle chunks, the closing fence *)
    apply includes_free in Hi.
    assert (Hc0 : startsClean p0).
    { destruct p0; [exact I|exact Hc]. }
    pose proof Hi as Hf0. apply free_app in Hf0 as [Hf0 _].
    set (st0 := {| buffer := p0; inCodeBlock := true; codeStartIndex := 0;
                   languageTag := lang; codeBlockComplete := false |}).
    destruct (inBlock_stream st0 (conj eq_refl eq_refl) Hf0)
      as (o0 & st1 & E0 & C0 & Hs1).
    assert (Hf1 : free (buffer st1 ++ concat ps)).
    { pose proof Hi as H. rewrite app_assoc in H. apply free_app in H as [H _].
      cbn [buffer st0] in C0. rewrite <- C0, <- app_assoc in H.
      now apply free_app in H as [_ H]. }
    destruct (feed_stream ps st1 Hs1 Hf1) as (o1 & st2 & E1 & C1 & Hs2).
    assert (Nq : q ++ fence <> []) by (destruct q; [contradiction|discriminate]).
    assert (E2 : processChunk st2 (q ++ fence)
                 = ([buffer st2 ++ q],
                    {| buffer := []; inCodeBlock := true;
                       codeStartIndex := codeStartIndex st2;
                       languageTag := languageTag st2;
                       codeBlockComplete := true |})).
    { destruct (q ++ fence) as [|c r] eqn:Q; [contradiction|].
      cbn [processChunk]. destruct Hs2 as [Hi2 Hc2].
      cbn [inCodeBlock setBuffer]. rewrite Hi2. cbn [negb]. rewrite <- Q.
      apply (inBlock_close (setBuffer st2 (buffer st2 ++ q ++ fence)));
        [split; assumption| |cbn [buffer setBuffer]; now rewrite app_assoc].
      destruct (buffer st2); [exact Hq|discriminate]. }
    assert (E : feed init ((header lang ++ p0) :: ps ++ [q ++ fence])
                = (o0 ++ o1 ++ [buffer st2 ++ q],
                   false :: repeat false (length ps) ++ [true],
                   {| buffer := []; inCodeBlock := true;
                      codeStartIndex := codeStartIndex st2;
                      languageTag := languageTag st2;
                      codeBlockComplete := true |})).
    { cbn [feed]. rewrite (open_header lang p0 Hw Hc0). fold st0. rewrite E0.
      rewrite feed_app, E1. cbn [feed]. rewrite E2.
      destruct Hs1 as [_ Hc1]. rewrite Hc1. cbn [codeBlockComplete].
      now rewrite !app_nil_r. }
    assert (T : concat (o0 ++ o1 ++ [buffer st2 ++ q])
                = p0 ++ concat ps ++ q).
    { rewrite !concat_app. cbn [concat]. rewrite app_nil_r.
      rewrite (app_assoc (concat o1)), C1, <- app_assoc.
      rewrite app_assoc, C0. reflexivity. }
    unfold extract. rewrite E. cbn [fst snd finalize inCodeBlock
      codeBlockComplete negb andb concat length].
    rewrite app_nil_r, T. repeat split.
    + cbn [concat]. rewrite concat_app. cbn [concat]. unfold fenced.
      now rewrite <- !app_assoc.
    + rewrite length_app. cbn [length].
      replace (S (length ps + 1) - 1)%nat with (S (length ps)) by lia.
      reflexivity.
Qed.

Lemma fence_roundtrip_witness :
  let lang := lit "js" in
  let content := lit "let a = `x`;" in
  let chunks := [header lang ++ lit "let a"; lit " = `x"; lit "`;" ++ fence] in
  (isWord lang /\ includes content fence = false /\ startsClean content
   /\ keepsMarkers lang content chunks)
  /\ extract chunks = content.
Proof.
  cbv zeta.
  assert (Hw : isWord (lit "js")).
  { split; [discriminate|repeat constructor]. }
  assert (Hk : keepsMarkers (lit "js") (lit "let a = `x`;")
                 [header (lit "js") ++ lit "let a"; lit " = `x";
                  lit "`;" ++ fence]).
  { right. exists (lit "let a"), [lit " = `x"], (lit "`;").
    repeat split. discriminate. }
  split; [split; [exact Hw|split; [reflexivity|split; [reflexivity|exact Hk]]]|].
  exact (proj1 (proj2 (fence_roundtrip (lit "js") (lit "let a = `x`;") _
                         Hw eq_refl eq_refl Hk))).
Defined.

(** C1: the round trip fails when the closing fence comes as a chunk
    of its own.  The content before it has been yielded already, so the
    fence stands at index 0 of the buffer, where the test of line 69
    ([lastBacktick > 0]) does not take it for the closing fence that
    lines 67-70 look for; the lookback of lines 83-95, written to catch
    a closing fence that arrives in pieces, then yields its first
    backtick and keeps the other two.  The fence comes out as content,
    and the parser never completes. *)
Lemma fence_roundtrip_fails :
  let chunks := [header (lit "js") ++ lit "abc"; fence] in
  concat chunks = fenced (lit "js") (lit "abc")
  /\ extract chunks = lit "abc```"
  /\ extract chunks <> lit "abc"
  /\ snd (fst (feed init chunks)) = [false; false].
Proof.
  repeat split; try (vm_compute; reflexivity).
  vm_compute. discriminate.
Qed.

(** Two more inputs on which the round trip fails: content that begins
    with a blank loses it (lines 41-46), and a language tag cut by a
    chunk boundary is taken for content. *)
Example leading_blank_lost :
  extract [fenced (lit "js") (lit " x")] = lit "x".
Proof. vm_compute. reflexivity. Qed.

Example split_tag_taken_for_content :
  let chunks := [lit "```ht"; lit "ml" ++ [nl] ++ lit "x```"] in
  concat chunks = fenced (lit "html") (lit "x")
  /\ extract chunks = lit "html" ++ [nl] ++ lit "x".
Proof. split; vm_compute; reflexivity. Qed.

(** What the lookback does catch, and what it does not: an opening
    fence cut after two backticks and a closing fence cut after one are
    found; a closing fence cut after two is not, because the two
    backticks held back are all the buffer holds when the third
    arrives. *)
Example fence_in_pieces :
  let found :=
    [lit "``"; lit "`js" ++ [nl] ++ lit "abc`"; lit "``"] in
  let missed := [header (lit "js") ++ lit "abc``"; lit "`"] in
  concat found = fenced (lit "js") (lit "abc")
  /\ extract found = lit "abc"
  /\ snd (fst (feed init found)) = [false; false; true]
  /\ concat missed = fenced (lit "js") (lit "abc")
  /\ extract missed = lit "abc```"
  /\ snd (fst (feed init missed)) = [false; false].
Proof. repeat split; vm_compute; reflexivity. Qed.

(** C8, as amended: inside a block, when the buffer with the new chunk
    holds a fence and its LAST fence is at an index [i > 0],
    [processChunk] yields exactly the text before that last fence,
    completes, and empties the buffer.  Text between an earlier fence
    and the last one is part of what is yielded. *)
Theorem closes_at_last_fence (st : state) (chunk : str) (i : nat) :
  chunk <> [] -> inCodeBlock st = true -> codeBlockComplete st = false ->
  (0 < i)%nat -> lastAt fence (buffer st ++ chunk) i ->
  processChunk st chunk
  = ([firstn i (buffer st ++ chunk)],
     {| buffer := []; inCodeBlock := true;
        codeStartIndex := codeStartIndex st;
        languageTag := languageTag st; codeBlockComplete := true |}).
Proof.
  intros Hn Hi Hc Hpos Hl. destruct chunk as [|c chunk]; [contradiction|].
  cbn [processChunk]. cbn [inCodeBlock setBuffer]. rewrite Hi. cbn [negb].
  set (buf := buffer st ++ c :: chunk) in *.
  pose proof (occursAt_split _ _ _ (proj1 Hl)) as Hsplit.
  pose proof (occursAt_bound _ _ _ (proj1 Hl)) as Hb. simpl in Hb.
  unfold inBlock. cbv zeta. cbn [inCodeBlock codeBlockComplete setBuffer buffer
    codeStartIndex languageTag].
  rewrite Hi, Hc. cbn [negb andb]. unfold lastIndexOf.
  rewrite (lastAt_find_last _ _ _ fence_nonempty Hl). cbn [index_of_option].
  destruct (Z.eqb_spec (Z.of_nat i) (-1)) as [E|_]; [lia|].
  destruct (Z.gtb_spec (Z.of_nat i) 0) as [_|E]; [|lia].
  cbn [negb andb]. rewrite slice_prefix.
  destruct (firstn i buf) as [|d r] eqn:F; [|reflexivity].
  apply (f_equal (@length _)) in F. rewrite length_firstn in F.
  simpl in F. lia.
Qed.

Lemma closes_at_last_fence_witness :
  let st := opened (lit "js") in
  let chunk := lit "a```b```" in
  (chunk <> [] /\ inCodeBlock st = true /\ codeBlockComplete st = false
   /\ (0 < 5)%nat /\ lastAt fence (buffer st ++ chunk) 5)
  /\ fst (processChunk st chunk) = [lit "a```b"].
Proof.
  cbv zeta.
  assert (Hl : lastAt fence (buffer (opened (lit "js")) ++ lit "a```b```") 5).
  { apply find_last_some; [discriminate|reflexivity]. }
  split; [repeat split; try discriminate; try apply Hl; lia|].
  rewrite (closes_at_last_fence (opened (lit "js")) (lit "a```b```") 5
             ltac:(discriminate) eq_refl eq_refl ltac:(lia) Hl).
  reflexivity.
Defined.

(** C8 as stated fails: in a block whose buffer holds two fences after
    its start, the first at index 1, the parser does not yield the text
    before the first one but everything before the last one, the first
    fence included. *)
Lemma closes_at_first_fence_fails :
  let st := opened (lit "js") in
  let chunk := lit "a```b```" in
  inCodeBlock st = true /\ codeBlockComplete st = false
  /\ find_first fence (buffer st ++ chunk) = Some 1%nat
  /\ fst (processChunk st chunk) = [lit "a```b"]
  /\ fst (processChunk st chunk) <> [firstn 1 (buffer st ++ chunk)].
Proof.
  repeat split; try (vm_compute; reflexivity).
  vm_compute. discriminate.
Qed.

End CodeBlockParserFacts.

(** ** The stage orchestrator *)

Module ModelManagerFacts.
Import Spec JSFacts ModelManager.

(** *** Trimming *)

Lemma trimStart_spaces (ws s : str) :
  allSpace ws -> trimStart (ws ++ s) = trimStart s.
Proof.
  intros H. induction H as [|c ws Hc _ IH]; [reflexivity|].
  simpl. now rewrite Hc.
Qed.

Lemma trimStart_all (ws : str) : allSpace ws -> trimStart ws = [].
Proof.
  intros H. rewrite <- (app_nil_r ws). now rewrite trimStart_spaces.
Qed.

Lemma allSpace_rev (ws : str) : allSpace ws -> allSpace (rev ws).
Proof. apply Forall_rev. Qed.

Lemma trimEnd_spaces (s ws : str) :
  allSpace ws -> trimEnd (s ++ ws) = trimEnd s.
Proof.
  intros H. unfold trimEnd. rewrite rev_app_distr.
  now rewrite trimStart_spaces by now apply allSpace_rev.
Qed.

Lemma trim_spaces (ws1 s ws2 : str) :
  allSpace ws1 -> allSpace ws2 -> trim (ws1 ++ s ++ ws2) = trim (s ++ ws2).
Proof. intros H1 H2. unfold trim. now rewrite trimStart_spaces. Qed.

Lemma allSpace_firstn (ws : str) (k : nat) :
  allSpace ws -> allSpace (firstn k ws).
Proof.
  intros H. revert k. induction H as [|c ws Hc _ IH]; intros [|k]; simpl;
    try constructor; try assumption. apply IH.
Qed.

(** The sentinel, followed by blanks, trims to the sentinel. *)
Lemma trim_sentinel (ws : str) :
  allSpace ws -> trim (NO_CHANGE ++ ws) = NO_CHANGE.
Proof.
  intros H. unfold trim.
  change (trimStart (NO_CHANGE ++ ws)) with (NO_CHANGE ++ ws).
  rewrite trimEnd_spaces by exact H. reflexivity.
Qed.

(** A strict prefix of the sentinel trims to a strict prefix of it. *)
Lemma trim_prefix (k : nat) :
  (k < 11)%nat ->
  startsWith NO_CHANGE (trim (firstn k NO_CHANGE)) = true
  /\ str_eqb (trim (firstn k NO_CHANGE)) NO_CHANGE = false.
Proof.
  intros H.
  do 11 (destruct k as [|k]; [split; vm_compute; reflexivity|]). lia.
Qed.

Lemma firstn_own {A} (b rest : list A) : firstn (length b) (b ++ rest) = b.
Proof.
  now rewrite firstn_app, firstn_all, Nat.sub_diag, firstn_O, app_nil_r.
Qed.

Section Response.
(** A response that is the sentinel between blanks. *)
Variables ws1 ws2 : str.
Hypothesis Hws1 : allSpace ws1.
Hypothesis Hws2 : allSpace ws2.

(** Before the sentinel is complete, the accumulation trims to a strict
    prefix of it. *)
Lemma accumulation_short (b rest : str) :
  b ++ rest = ws1 ++ NO_CHANGE ++ ws2 -> (length b < length ws1 + 11)%nat ->
  startsWith NO_CHANGE (trim b) = true /\ str_eqb (trim b) NO_CHANGE = false.
Proof.
  intros E L.
  rewrite <- (firstn_own b rest), E, firstn_app.
  destruct (Nat.le_gt_cases (length b) (length ws1)) as [C|C].
  - replace (length b - length ws1)%nat with O by lia.
    rewrite firstn_O, app_nil_r. unfold trim.
    rewrite trimStart_all by now apply allSpace_firstn.
    split; reflexivity.
  - rewrite firstn_all2 by lia. rewrite firstn_app.
    replace (length b - length ws1 - length NO_CHANGE)%nat with O
      by (change (length NO_CHANGE) with 11%nat; lia).
    rewrite firstn_O. rewrite trim_spaces; [|exact Hws1|constructor].
    rewrite app_nil_r. apply trim_prefix. lia.
Qed.

(** Once the sentinel is complete, the accumulation trims to it. *)
Lemma accumulation_long (b rest : str) :
  b ++ rest = ws1 ++ NO_CHANGE ++ ws2 -> (length ws1 + 11 <= length b)%nat ->
  trim b = NO_CHANGE.
Proof.
  intros E L.
  rewrite <- (firstn_own b rest), E, firstn_app.
  rewrite firstn_all2 by lia. rewrite firstn_app.
  rewrite (firstn_all2 NO_CHANGE)
    by (change (length NO_CHANGE) with 11%nat; lia).
  rewrite trim_spaces; [|exact Hws1|now apply allSpace_firstn].
  apply trim_sentinel. now apply allSpace_firstn.
Qed.

(** The loop leaves by [break], having yielded nothing. *)
Lemma sentinelLoop_reverts (chunks : list str) :
  forall buf,
    buf ++ concat chunks = ws1 ++ NO_CHANGE ++ ws2 ->
    (length buf < length ws1 + 11)%nat ->
    reverted (sentinelLoop true buf chunks) = true
    /\ yielded (sentinelLoop true buf chunks) = [].
Proof.
  induction chunks as [|c chunks IH]; intros buf E L.
  - exfalso. cbn [concat] in E. rewrite app_nil_r in E.
    apply (f_equal (@length _)) in E. rewrite !length_app in E.
    change (length NO_CHANGE) with 11%nat in E. lia.
  - cbn [concat] in E. rewrite app_assoc in E. cbn [sentinelLoop].
    destruct (Nat.le_gt_cases (length ws1 + 11) (length (buf ++ c))) as [C|C].
    + rewrite (accumulation_long _ _ E C).
      change (startsWith NO_CHANGE NO_CHANGE) with true.
      rewrite str_eqb_refl. split; reflexivity.
    + destruct (accumulation_short _ _ E C) as [-> ->]. now apply IH.
Qed.

End Response.

(** *** The claims about [processStep] *)

(** C3: with non-empty prior code, when the extracted response is the
    sentinel between blanks, however it is cut into fragments and
    whether or not the stream fails later, [processStep] yields the
    prior code and nothing else, and ends normally. *)
Theorem sentinel_exact_match (P ws1 ws2 : str) (chunks : list str)
    (fail : option str) :
  P <> [] -> allSpace ws1 -> allSpace ws2 ->
  concat chunks = ws1 ++ NO_CHANGE ++ ws2 ->
  processStep P (mkStream chunks fail) = mkStream [P] None.
Proof.
  intros HP H1 H2 E. destruct P as [|c P]; [contradiction|].
  unfold processStep. cbn [items failure].
  destruct (sentinelLoop_reverts ws1 ws2 H1 H2 chunks [] E) as [-> ->];
    [simpl; lia|reflexivity].
Qed.

Lemma sentinel_exact_match_witness :
  let P := lit "<p>old</p>" in
  let chunks := [lit " [NO"; lit " CHANGE"; lit "] "] in
  (P <> [] /\ allSpace (lit " ") /\ allSpace (lit " ")
   /\ concat chunks = lit " " ++ NO_CHANGE ++ lit " ")
  /\ processStep P (mkStream chunks (Some (lit "reset")))
     = mkStream [P] None.
Proof.
  cbv zeta.
  assert (Hs : allSpace (lit " ")) by (repeat constructor).
  split; [repeat split; try discriminate; exact Hs|].
  apply (sentinel_exact_match (lit "<p>old</p>") (lit " ") (lit " "));
    [discriminate|exact Hs|exact Hs|reflexivity].
Defined.

(** Once the sentinel is ruled out, fragments pass straight through. *)
Lemma sentinelLoop_passes (chunks : list str) (buf : str) :
  sentinelLoop false buf chunks = mkExit chunks false buf false.
Proof.
  induction chunks as [|c chunks IH]; [reflexivity|].
  cbn [sentinelLoop]. now rewrite IH.
Qed.

(** While the accumulation is a strict prefix of the sentinel, the loop
    only accumulates. *)
Lemma sentinelLoop_buffers (pre rest : list str) :
  forall buf r,
    r <> [] -> NO_CHANGE = buf ++ concat pre ++ r ->
    sentinelLoop true buf (pre ++ rest)
    = sentinelLoop true (buf ++ concat pre) rest.
Proof.
  induction pre as [|c pre IH]; intros buf r Hr E.
  - cbn [concat app]. now rewrite app_nil_r.
  - cbn [concat] in *. cbn [app sentinelLoop].
    assert (L : (length (buf ++ c) < 11)%nat).
    { apply (f_equal (@length _)) in E. rewrite !length_app in E.
      change (length NO_CHANGE) with 11%nat in E. rewrite length_app.
      destruct r; [contradiction|]. simpl in E. lia. }
    assert (E' : NO_CHANGE = (buf ++ c) ++ concat pre ++ r).
    { rewrite E. now rewrite <- !app_assoc. }
    assert (B : buf ++ c = firstn (length (buf ++ c)) NO_CHANGE).
    { rewrite E' at 1. now rewrite firstn_own. }
    destruct (trim_prefix _ L) as [T1 T2]. rewrite <- B in T1, T2.
    rewrite T1, T2.
    rewrite (IH (buf ++ c) r Hr E'). now rewrite <- app_assoc.
Qed.

(** *** Trimming a text and a beginning of it *)

Lemma trimStart_split (s : str) :
  exists ws, allSpace ws /\ s = ws ++ trimStart s.
Proof.
  induction s as [|c s (ws & H & E)].
  - exists []. split; [constructor|reflexivity].
  - cbn [trimStart]. destruct (is_space c) eqn:C.
    + exists (c :: ws). split; [now constructor|]. cbn [app]. now f_equal.
    + exists []. split; [constructor|reflexivity].
Qed.

Lemma trimEnd_split (s : str) :
  exists ws, allSpace ws /\ s = trimEnd s ++ ws.
Proof.
  destruct (trimStart_split (rev s)) as (ws & H & E).
  exists (rev ws). split; [now apply allSpace_rev|].
  unfold trimEnd. rewrite <- rev_app_distr, <- E. now rewrite rev_involutive.
Qed.

Lemma trimEnd_solid (x : str) (c : ascii) :
  is_space c = false -> trimEnd (x ++ [c]) = x ++ [c].
Proof.
  intros C. unfold trimEnd. rewrite rev_app_distr. cbn [rev app trimStart].
  rewrite C. cbn [rev]. now rewrite rev_involutive.
Qed.

(** A text is blank, or ends with a code unit that is not blank
    followed by blanks. *)
Lemma last_solid (r : str) :
  allSpace r
  \/ exists x c ws, is_space c = false /\ allSpace ws /\ r = x ++ c :: ws.
Proof.
  induction r as [|a r [H|(x & c & ws & C & H & E)]].
  - left. constructor.
  - destruct (is_space a) eqn:A.
    + left. now constructor.
    + right. exists [], a, r. now repeat split.
  - right. exists (a :: x), c, ws. subst r. now repeat split.
Qed.

Lemma trimEnd_grows (p r : str) : exists t, trimEnd (p ++ r) = trimEnd p ++ t.
Proof.
  destruct (last_solid r) as [H|(x & c & ws & C & H & ->)].
  - exists []. now rewrite trimEnd_spaces, app_nil_r.
  - destruct (trimEnd_split p) as (w & _ & E).
    exists (w ++ x ++ [c]).
    replace (p ++ x ++ c :: ws) with ((p ++ x ++ [c]) ++ ws)
      by now rewrite <- !app_assoc.
    rewrite trimEnd_spaces by exact H.
    rewrite app_assoc, trimEnd_solid by exact C.
    rewrite E at 1. now rewrite <- !app_assoc.
Qed.

(** The trimmed form of a beginning of a text begins the trimmed form
    of the text. *)
Lemma trim_grows (b r : str) : exists t, trim (b ++ r) = trim b ++ t.
Proof.
  unfold trim. destruct (trimStart_split b) as (ws & H & E).
  destruct (trimStart b) as [|c p] eqn:T.
  - now eexists.
  - rewrite E, <- app_assoc, trimStart_spaces by exact H.
    assert (S : trimStart ((c :: p) ++ r) = (c :: p) ++ r).
    { cbn [app trimStart]. destruct (is_space c) eqn:C; [|reflexivity].
      exfalso. pose proof (f_equal trimStart T) as I.
      assert (J : trimStart (trimStart b) = trimStart b).
      { clear. induction b as [|a b IH]; [reflexivity|].
        cbn [trimStart]. destruct (is_space a) eqn:A; [exact IH|].
        cbn [trimStart]. now rewrite A. }
      rewrite J, T in I. cbn [trimStart] in I. rewrite C in I.
      apply (f_equal (@length _)) in I.
      destruct (trimStart_split p) as (w & _ & Ep).
      apply (f_equal (@length _)) in Ep. rewrite length_app in Ep.
      cbn [length] in I. lia. }
    rewrite S. apply trimEnd_grows.
Qed.

Lemma awaits_test (b : str) :
  awaits b ->
  startsWith NO_CHANGE (trim b) = true /\ str_eqb (trim b) NO_CHANGE = false.
Proof.
  intros (r & Hr & E). unfold startsWith. rewrite E. split.
  - apply starts_app.
  - unfold str_eqb. rewrite starts_app. cbn [andb]. rewrite length_app.
    apply Nat.eqb_neq. destruct r; [contradiction|]. cbn [length]. lia.
Qed.

(** Text that may still become the sentinel could do so at every
    earlier point. *)
Lemma awaits_before (b r : str) : awaits (b ++ r) -> awaits b.
Proof.
  intros (q & Hq & E). destruct (trim_grows b r) as (t & T).
  exists (t ++ q). split.
  - destruct q; [contradiction|]. now destruct t.
  - now rewrite E, T, <- app_assoc.
Qed.

(** While the text may still become the sentinel the loop only holds
    it back. *)
Lemma sentinelLoop_holds (pre rest : list str) :
  forall buf,
    awaits (buf ++ concat pre) ->
    sentinelLoop true buf (pre ++ rest)
    = sentinelLoop true (buf ++ concat pre) rest.
Proof.
  induction pre as [|c pre IH]; intros buf H.
  - cbn [concat app]. now rewrite app_nil_r.
  - cbn [concat] in H. rewrite app_assoc in H.
    destruct (awaits_test _ (awaits_before _ _ H)) as [T1 T2].
    cbn [app sentinelLoop]. cbv zeta. rewrite T1, T2.
    rewrite (IH (buf ++ c) H). cbn [concat]. now rewrite app_assoc.
Qed.

Lemma test_awaits (b : str) :
  startsWith NO_CHANGE (trim b) = true ->
  str_eqb (trim b) NO_CHANGE = false -> awaits b.
Proof.
  unfold startsWith. intros S Q. exists (skipn (length (trim b)) NO_CHANGE).
  split; [|now apply starts_split].
  intros N. pose proof (starts_split _ _ S) as E. rewrite N, app_nil_r in E.
  rewrite <- E in Q. now rewrite str_eqb_refl in Q.
Qed.

(** A strict prefix of the sentinel, as it stands, may still become
    the sentinel. *)
Lemma strictPrefix_awaits (b : str) : strictPrefix b NO_CHANGE -> awaits b.
Proof.
  intros [_ (r & Hr & E)].
  assert (L : (length b < 11)%nat).
  { apply (f_equal (@length _)) in E. rewrite length_app in E.
    change (length NO_CHANGE) with 11%nat in E.
    destruct r; [contradiction|]. cbn [length] in E. lia. }
  assert (B : b = firstn (length b) NO_CHANGE).
  { rewrite E. now rewrite firstn_own. }
  destruct (trim_prefix _ L) as [T1 T2]. rewrite <- B in T1, T2.
  now apply test_awaits.
Qed.

(** C5: with non-empty prior code, when the first fragments, taken
    together and trimmed as the loop trims them, are a strict prefix of
    the sentinel (blank fragments, blanks before the text and the empty
    prefix included) and the next fragment takes the trimmed text off
    the sentinel, [processStep] yields the text held so far together
    with that fragment as one fragment, then every later fragment as it
    comes: what it yields makes up the whole response, the same text as
    the unbuffered path of [processStep] (no prior code), which hands
    the stream through, with the same outcome. *)
Theorem sentinel_divergence (P : str) (pre : list str) (d : str)
    (post : list str) (fail : option str) :
  P <> [] -> awaits (concat pre) ->
  startsWith NO_CHANGE (trim (concat pre ++ d)) = false ->
  let s := mkStream (pre ++ d :: post) fail in
  items (processStep P s) = (concat pre ++ d) :: post
  /\ concat (items (processStep P s)) = concat (items s)
  /\ concat (items (processStep P s)) = concat (items (processStep [] s))
  /\ failure (processStep P s) = failure s.
Proof.
  intros HP H Hd s.
  assert (I : items (processStep P s) = (concat pre ++ d) :: post
              /\ failure (processStep P s) = fail).
  { destruct P as [|c P]; [contradiction|].
    unfold processStep, s. cbn [items failure].
    rewrite (sentinelLoop_holds pre (d :: post) [] H).
    cbn [app sentinelLoop]. rewrite Hd, sentinelLoop_passes.
    cbn [yieldFirst reverted yielded firstChunk buffer andb].
    destruct fail; split; reflexivity. }
  destruct I as [I F]. rewrite I, F. cbn [processStep]. unfold s.
  cbn [items failure concat]. rewrite concat_app. cbn [concat].
  repeat split; now rewrite <- app_assoc.
Qed.

Lemma sentinel_divergence_witness :
  let P := lit "<p>old</p>" in
  let pre := [lit " ["; [nl]; lit "  "] in
  let d := lit "1, 2" in
  let post := [[nl]; lit "]"] in
  (P <> [] /\ awaits (concat pre)
   /\ startsWith NO_CHANGE (trim (concat pre ++ d)) = false)
  /\ items (processStep P (mkStream (pre ++ d :: post) None))
     = [lit " [" ++ [nl] ++ lit "  1, 2"; [nl]; lit "]"].
Proof.
  cbv zeta.
  assert (H1 : lit "<p>old</p>" <> []) by discriminate.
  assert (H2 : awaits (concat [lit " ["; [nl]; lit "  "])).
  { exists (lit "NO CHANGE]"). split; [discriminate|reflexivity]. }
  split; [repeat split; assumption|].
  exact (proj1 (sentinel_divergence (lit "<p>old</p>")
                  [lit " ["; [nl]; lit "  "] (lit "1, 2") [[nl]; lit "]"]
                  None H1 H2 eq_refl)).
Defined.

(** Empty output is not taken for the sentinel: with non-empty prior
    code, a stage whose extracted stream ends without a single fragment
    yields nothing through [processStep]: its loop in [streamResponse]
    reports no progress and its content stays the empty string, which
    is not the prior code. *)
Theorem empty_stage_stays_empty (p : provider) (model : option str)
    (t : stage) (context P : str) :
  P <> [] ->
  streamCodeBlock (p model t context P) = mkStream [] None ->
  processStep P (streamCodeBlock (p model t context P)) = mkStream [] None
  /\ runStage p model t context P = ([], [], None)
  /\ snd (fst (runStage p model t context P)) <> P.
Proof.
  intros HP E. unfold runStage. rewrite E.
  destruct P as [|c P]; [contradiction|].
  repeat split. discriminate.
Qed.

Lemma empty_stage_stays_empty_witness :
  let p : provider :=
    fun _ _ _ _ => mkStream [lit "I can not "; lit "do that."] None in
  let P := lit "<p>old</p>" in
  (P <> [] /\ streamCodeBlock (p (Some (lit "m")) html [] P) = mkStream [] None)
  /\ runStage p (Some (lit "m")) html [] P = ([], [], None).
Proof.
  cbv zeta. split; [split; [discriminate|reflexivity]|].
  apply (empty_stage_stays_empty
           (fun _ _ _ _ => mkStream [lit "I can not "; lit "do that."] None)
           (Some (lit "m")) html [] (lit "<p>old</p>"));
    [discriminate|reflexivity].
Defined.

(** *** Model identifiers *)

Lemma starts_slash (c : ascii) (s : str) :
  starts [slash] (c :: s) = Ascii.eqb slash c.
Proof. cbn [starts]. apply andb_true_r. Qed.

Lemma find_slash_none (s : str) :
  ~ In slash s -> find_first [slash] s = None.
Proof.
  induction s as [|c s IH]; intros H; [reflexivity|].
  cbn [find_first]. rewrite starts_slash.
  destruct (Ascii.eqb_spec slash c) as [E|_];
    [exfalso; apply H; left; now symmetry|].
  rewrite IH; [reflexivity|]. intros I. apply H. now right.
Qed.

Lemma find_slash_some (a r : str) :
  ~ In slash a -> find_first [slash] (a ++ slash :: r) = Some (length a).
Proof.
  induction a as [|c a IH]; intros H.
  - cbn [app find_first]. now rewrite starts_slash, Ascii.eqb_refl.
  - cbn [app find_first]. rewrite starts_slash.
    destruct (Ascii.eqb_spec slash c) as [E|_];
    [exfalso; apply H; left; now symmetry|].
    rewrite IH; [reflexivity|]. intros I. apply H. now right.
Qed.

Lemma split_plain (s : str) : ~ In slash s -> split slash s = [s].
Proof.
  induction s as [|c s IH]; intros H; [reflexivity|].
  cbn [split].
  destruct (Ascii.eqb_spec c slash) as [E|_]; [exfalso; apply H; now left|].
  rewrite IH; [reflexivity|]. intros I. apply H. now right.
Qed.

Lemma split_at_slash (a r : str) :
  ~ In slash a ->
  split slash (a ++ slash :: r) = a :: split slash r.
Proof.
  induction a as [|c a IH]; intros H.
  - cbn [app split]. now rewrite Ascii.eqb_refl.
  - cbn [app split].
    destruct (Ascii.eqb_spec c slash) as [E|_]; [exfalso; apply H; now left|].
    rewrite IH; [reflexivity|]. intros I. apply H. now right.
Qed.

(** C10: an identifier [a/m] or [a/m/rest], where [a] and [m] hold no
    slash, parses without error to provider [a] and model [m], whatever
    follows a second slash; and [a] alone, holding no slash, throws. *)
Theorem parseModelString_parts (a m : str) (tail : option str) :
  ~ In slash a -> ~ In slash m ->
  parseModelString
    (a ++ slash :: m
       ++ match tail with Some rest => slash :: rest | None => [] end)
  = Ok {| providerName := Some a; modelName := Some m |}
  /\ parseModelString a
     = Throw (lit "Invalid model format. Expected 'Provider/Model'").
Proof.
  intros Ha Hm. unfold parseModelString, includes. split.
  - rewrite (find_slash_some a _ Ha), (split_at_slash a _ Ha).
    destruct tail as [rest|].
    + now rewrite (split_at_slash m rest Hm).
    + now rewrite app_nil_r, (split_plain m Hm).
  - now rewrite (find_slash_none a Ha).
Qed.

Lemma parseModelString_parts_witness :
  let a := lit "OpenRouter" in
  let m := lit "meta-llama" in
  (~ In slash a /\ ~ In slash m)
  /\ parseModelString (lit "OpenRouter/meta-llama/llama-3:free")
     = Ok {| providerName := Some a; modelName := Some m |}.
Proof.
  cbv zeta.
  assert (Ha : ~ In slash (lit "OpenRouter")).
  { intros H. vm_compute in H. repeat (destruct H as [H|H]; [discriminate H|]).
    exact H. }
  assert (Hm : ~ In slash (lit "meta-llama")).
  { intros H. vm_compute in H. repeat (destruct H as [H|H]; [discriminate H|]).
    exact H. }
  split; [split; assumption|].
  exact (proj1 (parseModelString_parts (lit "OpenRouter") (lit "meta-llama")
                  (Some (lit "llama-3:free")) Ha Hm)).
Defined.

End ModelManagerFacts.

(** ** The delta broadcaster *)

Module ServerFacts.
Import Spec Inv JSFacts ModelManager Server.

(** *** Deltas *)

Lemma stage_eqb_refl (t : stage) : stage_eqb t t = true.
Proof. now destruct t. Qed.

Lemma accumulate_final (t : stage) (fs : list str) :
  forall acc, snd (accumulate t acc fs) = acc ++ concat fs.
Proof.
  induction fs as [|f fs IH]; intros acc; cbn [accumulate concat].
  - now rewrite app_nil_r.
  - specialize (IH (acc ++ f)). destruct (accumulate t (acc ++ f) fs).
    cbn [snd] in *. now rewrite IH, app_assoc.
Qed.

(** Within a stage, each event makes the loop write what its fragment
    added to the running total, and nothing when it added nothing. *)
Lemma writeLoop_same (m : str) (t : stage) (fs : list str) :
  forall acc,
    writeLoop m (mkCursor (Some t) acc) (fst (accumulate t acc fs))
    = (map (Data m) (filter nonEmptyb fs),
       mkCursor (Some t) (acc ++ concat fs)).
Proof.
  induction fs as [|f fs IH]; intros acc; cbn [accumulate concat].
  - cbn. now rewrite app_nil_r.
  - pose proof (IH (acc ++ f)) as IH1.
    destruct (accumulate t (acc ++ f) fs) as [evs final] eqn:A.
    cbn [fst writeLoop type content sameType currentType lastContent] in *.
    rewrite stage_eqb_refl. cbn [negb].
    assert (Sl : slice_from (acc ++ f) (len acc) = f).
    { unfold len. rewrite slice_suffix.
      now rewrite skipn_app, skipn_all, Nat.sub_diag. }
    rewrite !Sl.
    destruct f as [|c f].
    + cbn [filter nonEmptyb]. change (len [] >? 0) with false. cbv iota.
      rewrite app_nil_r in A. specialize (IH acc). rewrite A in IH.
      cbn [fst] in IH. rewrite IH. now rewrite app_nil_l.
    + assert (G : (len (c :: f) >? 0) = true).
      { unfold len. simpl length. apply Z.gtb_lt. lia. }
      rewrite G, IH1. cbn [filter nonEmptyb map].
      now rewrite <- app_assoc.
Qed.

Lemma concat_filter_nonEmpty (fs : list str) :
  concat (filter nonEmptyb fs) = concat fs.
Proof.
  induction fs as [|[|c f] fs IH]; cbn [filter nonEmptyb concat];
    [reflexivity|exact IH|]. cbn [concat]. now rewrite IH.
Qed.

(** C4: over the events of one stage of one model, entered from another
    stage or from the start, the loop writes the closing marker of the
    stage before (if there was one), then the opening marker with the
    first delta, then one record per further delta; the deltas are not
    empty and, joined in order, are exactly the final content of the
    stage, which is also what the loop remembers as transmitted. *)
Theorem delta_completeness (m : str) (t : stage) (c : cursor)
    (fs : list str) :
  fs <> [] -> sameType c t = false ->
  exists d0 ds,
    fst (writeLoop m c (stageEvents t fs))
    = closing m c ++ Data m (marker t ++ d0) :: map (Data m) ds
    /\ Forall (fun d => d <> []) ds
    /\ d0 ++ concat ds = stageContent t fs
    /\ snd (writeLoop m c (stageEvents t fs))
       = mkCursor (Some t) (stageContent t fs).
Proof.
  intros Hn Hc. destruct fs as [|f fs]; [contradiction|].
  exists f, (filter nonEmptyb fs).
  unfold stageEvents, stageContent. cbn [accumulate app].
  pose proof (writeLoop_same m t fs f) as W.
  pose proof (accumulate_final t fs f) as F.
  destruct (accumulate t f fs) as [evs final].
  cbn [fst snd] in *. cbn [writeLoop type content]. rewrite Hc. cbn [negb].
  rewrite W. cbn [fst snd]. subst final.
  repeat split.
  - apply Forall_forall. intros d Hd. apply filter_In in Hd as [_ Hd].
    now destruct d.
  - now rewrite concat_filter_nonEmpty.
Qed.

Lemma delta_completeness_witness :
  let m := lit "P/m" in
  let c := mkCursor (Some html) (lit "<p>hi</p>") in
  let fs := [lit "p {"; []; lit " }"] in
  (fs <> [] /\ sameType c css = false)
  /\ lastContent (snd (writeLoop m c (stageEvents css fs))) = lit "p { }".
Proof.
  cbv zeta. split; [split; [discriminate|reflexivity]|].
  destruct (delta_completeness (lit "P/m") css
              (mkCursor (Some html) (lit "<p>hi</p>"))
              [lit "p {"; []; lit " }"] ltac:(discriminate) eq_refl)
    as (d0 & ds & _ & _ & _ & S).
  rewrite S. reflexivity.
Defined.

(** *** Interleavings *)

Section Interleave.
Context {A : Type}.

Lemma filter_nonNil_empty (tasks : list (list A)) :
  Forall (fun t => t = []) tasks -> filter nonNil tasks = [].
Proof.
  induction 1 as [|t tasks -> _ IH]; [reflexivity|]. exact IH.
Qed.

(** A projection of an interleaving interleaves the projections. *)
Lemma interleave_filter (f : A -> bool) (tasks : list (list A))
    (out : list A) :
  interleave tasks out ->
  interleave (map (filter f) tasks) (filter f out).
Proof.
  induction 1 as [tasks H|before x t after out _ IH].
  - apply interleave_done. apply Forall_map.
    eapply Forall_impl; [|exact H]. now intros t ->.
  - rewrite map_app in *. cbn [map filter] in *.
    destruct (f x); [now apply interleave_write|exact IH].
Qed.

(** With one task only writing, the interleaving is that task. *)
Lemma interleave_single (tasks : list (list A)) (out : list A) :
  interleave tasks out ->
  (filter nonNil tasks = [] -> out = [])
  /\ (forall t, filter nonNil tasks = [t] -> out = t).
Proof.
  induction 1 as [tasks H|before x t after out _ [IH0 IH1]].
  - split; [reflexivity|]. intros t E.
    rewrite (filter_nonNil_empty _ H) in E. discriminate.
  - rewrite filter_app in *. cbn [filter nonNil] in *.
    split; intros.
    + destruct (filter nonNil before); discriminate.
    + destruct (filter nonNil before) as [|b bs] eqn:B.
      * cbn [app] in *. injection H as <- Ha. rewrite Ha in *.
        destruct t as [|y t]; cbn [nonNil app] in *.
        -- now rewrite IH0.
        -- now rewrite (IH1 (y :: t)).
      * exfalso. destruct bs; discriminate.
Qed.

Lemma interleave_In (tasks : list (list A)) (out : list A) (x : A) :
  interleave tasks out -> In x out -> exists t, In t tasks /\ In x t.
Proof.
  induction 1 as [tasks H|before y t after out _ IH]; intros I;
    [contradiction|].
  destruct I as [->|I].
  - exists (x :: t). split; [apply in_elt|now left].
  - destruct (IH I) as (t' & Ht & Hx).
    apply in_app_or in Ht as [Ht|[<-|Ht]].
    + exists t'. split; [apply in_or_app; now left|exact Hx].
    + exists (y :: t). split; [apply in_elt|now right].
    + exists t'. split; [apply in_or_app; right; now right|exact Hx].
Qed.

End Interleave.

(** *** What one callback writes *)

Lemma writeLoop_data (m : str) (evs : list progress) :
  forall c, Forall (fun w => exists d, w = Data m d) (fst (writeLoop m c evs)).
Proof.
  induction evs as [|e evs IH]; intros c; cbn [writeLoop]; [constructor|].
  destruct (negb (sameType c (type e))).
  - specialize (IH (mkCursor (Some (type e)) (content e))).
    destruct (writeLoop m (mkCursor (Some (type e)) (content e)) evs).
    cbn [fst] in *. apply Forall_app. split.
    + unfold closing. destruct (currentType c); repeat constructor; eauto.
    + constructor; eauto.
  - destruct (len (slice_from (content e) (len (lastContent c))) >? 0).
    + specialize (IH (mkCursor (currentType c) (content e))).
      destruct (writeLoop m (mkCursor (currentType c) (content e)) evs).
      cbn [fst] in *. constructor; eauto.
    + apply IH.
Qed.

Lemma closing_data (m : str) (c : cursor) :
  Forall (fun w => exists d, w = Data m d) (closing m c).
Proof. unfold closing. destruct (currentType c); repeat constructor; eauto. Qed.

Lemma filter_none {A} (f : A -> bool) (l : list A) :
  Forall (fun x => f x = false) l -> filter f l = [].
Proof.
  induction 1 as [|x l Hx _ IH]; [reflexivity|]. cbn [filter]. now rewrite Hx.
Qed.

Lemma filter_all {A} (f : A -> bool) (l : list A) :
  Forall (fun x => f x = true) l -> filter f l = l.
Proof.
  induction 1 as [|x l Hx _ IH]; [reflexivity|]. cbn [filter].
  now rewrite Hx, IH.
Qed.

(** The records of a callback: [Data] records, then one [Done] or one
    [Error], all naming its model. *)
Lemma modelTask_shape (m : str) (s : stream progress) :
  exists w,
    Forall (fun e => exists d, e = Data m d) w
    /\ modelTask m s
       = w ++ [match failure s with
               | Some message => Error m message
               | None => Done m
               end].
Proof.
  unfold modelTask. pose proof (writeLoop_data m (items s) (mkCursor None [])) as W.
  destruct (writeLoop m (mkCursor None []) (items s)) as [w c]. cbn [fst] in W.
  destruct (failure s).
  - exists w. split; [exact W|reflexivity].
  - exists (w ++ closing m c). split; [|now rewrite app_assoc].
    apply Forall_app. split; [exact W|apply closing_data].
Qed.

Lemma modelTask_concerns (m : str) (s : stream progress) :
  Forall (fun e => concerns m e = true) (modelTask m s).
Proof.
  destruct (modelTask_shape m s) as (w & W & ->).
  apply Forall_app. split.
  - eapply Forall_impl; [|exact W]. intros e [d ->]. apply str_eqb_refl.
  - constructor; [|constructor]. destruct (failure s); apply str_eqb_refl.
Qed.

Lemma modelTask_others (m m' : str) (s : stream progress) :
  m' <> m -> Forall (fun e => concerns m' e = false) (modelTask m s).
Proof.
  intros N. destruct (modelTask_shape m s) as (w & W & ->).
  apply Forall_app. split.
  - eapply Forall_impl; [|exact W]. intros e [d ->]. now apply str_eqb_neq.
  - constructor; [|constructor]. destruct (failure s); now apply str_eqb_neq.
Qed.

Lemma modelTask_not_terminal (m : str) (s : stream progress) :
  Forall (fun e => isTerminal e = false) (modelTask m s).
Proof.
  destruct (modelTask_shape m s) as (w & W & ->).
  apply Forall_app. split.
  - eapply Forall_impl; [|exact W]. now intros e [d ->].
  - constructor; [|constructor]. now destruct (failure s).
Qed.

Lemma modelTask_errors (m m' : str) (s : stream progress) :
  filter (isErrorOf m') (modelTask m s)
  = match failure s with
    | Some message => if str_eqb m' m then [Error m message] else []
    | None => []
    end.
Proof.
  destruct (modelTask_shape m s) as (w & W & ->).
  rewrite filter_app, (filter_none _ w).
  2:{ eapply Forall_impl; [|exact W]. now intros e [d ->]. }
  destruct (failure s); cbn [filter isErrorOf app]; [|reflexivity].
  now destruct (str_eqb m' m).
Qed.

(** *** The whole response *)

Section Response.
Variable providers : str -> option provider.
Variable contextMap : str -> option codeMap.

(** Whatever the models and however their callbacks end, the response
    is their writes followed by the terminal record, which appears
    nowhere else. *)
Lemma generate_terminal (models : list str) (response : list sse) :
  generate providers contextMap models response ->
  exists body, response = body ++ [Terminal] /\ filter isTerminal body = [].
Proof.
  intros (body & I & ->). exists body. split; [reflexivity|].
  apply (interleave_filter isTerminal) in I.
  apply interleave_single in I as [I _]. apply I.
  apply filter_nonNil_empty. rewrite map_map. apply Forall_map.
  apply Forall_forall. intros m _. apply filter_none.
  apply modelTask_not_terminal.
Qed.

(** C6: two distinct models [A] and [B] are selected, the stream of [A]
    throws with message [msg] and that of [B] ends normally.  Then, in
    every interleaving of the two callbacks, the response holds exactly
    one error record naming [A]; the records naming [B] are, in order,
    exactly those [B]'s callback writes on its own, the last of them
    [B]'s [Done]; and the response ends with the terminal record, which
    occurs nowhere before. *)
Theorem fault_isolation (A B msg : str) (response : list sse) :
  A <> B ->
  failure (streamResponse providers A (contextMap A)) = Some msg ->
  failure (streamResponse providers B (contextMap B)) = None ->
  generate providers contextMap [A; B] response ->
  filter (isErrorOf A) response = [Error A msg]
  /\ filter (concerns B) response = taskOf providers contextMap B
  /\ (exists w, taskOf providers contextMap B = w ++ [Done B])
  /\ (exists body,
        response = body ++ [Terminal] /\ filter isTerminal body = []).
Proof.
  intros N FA FB G.
  assert (HB : exists w, taskOf providers contextMap B = w ++ [Done B]).
  { unfold taskOf. destruct (modelTask_shape B (streamResponse providers B (contextMap B))) as (w & _ & E).
    rewrite FB in E. now exists w. }
  split; [|split; [|split; [exact HB|now apply generate_terminal with [A; B]]]].
  - destruct G as (body & I & ->).
    rewrite filter_app. cbn [filter isErrorOf]. rewrite app_nil_r.
    apply (interleave_filter (isErrorOf A)) in I. cbn [map] in I.
    unfold taskOf in I. rewrite !modelTask_errors, FA, FB in I.
    rewrite str_eqb_refl in I.
    apply interleave_single in I as [_ I]. now apply I.
  - destruct G as (body & I & ->).
    rewrite filter_app. cbn [filter concerns]. rewrite app_nil_r.
    apply (interleave_filter (concerns B)) in I. cbn [map] in I.
    rewrite (filter_none (concerns B) (taskOf providers contextMap A)) in I
      by (apply modelTask_others; congruence).
    rewrite (filter_all (concerns B) (taskOf providers contextMap B)) in I
      by apply modelTask_concerns.
    apply interleave_single in I as [_ I]. apply I.
    destruct HB as (w & ->). cbn [filter nonNil].
    now destruct w.
Qed.

End Response.

Lemma fault_isolation_witness :
  let A := lit "X/m" in
  let B := lit "Y/m" in
  let msg := lit "connection refused" in
  let response :=
    [Data B (marker html ++ lit "x"); Error A msg;
     Data B closeMarker; Data B (marker css ++ lit "x");
     Data B closeMarker; Data B (marker js ++ lit "x");
     Data B closeMarker; Done B; Terminal] in
  (A <> B
   /\ failure (streamResponse twoProviders A None) = Some msg
   /\ failure (streamResponse twoProviders B None) = None
   /\ generate twoProviders (fun _ => None) [A; B] response)
  /\ filter (isErrorOf A) response = [Error A msg].
Proof.
  cbv zeta.
  assert (G : generate twoProviders (fun _ => None) [lit "X/m"; lit "Y/m"]
                [Data (lit "Y/m") (marker html ++ lit "x");
                 Error (lit "X/m") (lit "connection refused");
                 Data (lit "Y/m") closeMarker;
                 Data (lit "Y/m") (marker css ++ lit "x");
                 Data (lit "Y/m") closeMarker;
                 Data (lit "Y/m") (marker js ++ lit "x");
                 Data (lit "Y/m") closeMarker; Done (lit "Y/m"); Terminal]).
  { exists [Data (lit "Y/m") (marker html ++ lit "x");
            Error (lit "X/m") (lit "connection refused");
            Data (lit "Y/m") closeMarker;
            Data (lit "Y/m") (marker css ++ lit "x");
            Data (lit "Y/m") closeMarker;
            Data (lit "Y/m") (marker js ++ lit "x");
            Data (lit "Y/m") closeMarker; Done (lit "Y/m")].
    split; [|reflexivity]. cbn [map].
    replace (taskOf twoProviders (fun _ => None) (lit "X/m"))
      with [Error (lit "X/m") (lit "connection refused")]
      by (vm_compute; reflexivity).
    replace (taskOf twoProviders (fun _ => None) (lit "Y/m"))
      with [Data (lit "Y/m") (marker html ++ lit "x");
            Data (lit "Y/m") closeMarker;
            Data (lit "Y/m") (marker css ++ lit "x");
            Data (lit "Y/m") closeMarker;
            Data (lit "Y/m") (marker js ++ lit "x");
            Data (lit "Y/m") closeMarker; Done (lit "Y/m")]
      by (vm_compute; reflexivity).
    apply (interleave_write [_] _ _ []).
    apply (interleave_write [] _ _ [_]).
    do 6 apply (interleave_write [_] _ _ []).
    apply interleave_done. repeat constructor. }
  split; [split; [discriminate|split; [reflexivity|split; [reflexivity|exact G]]]|].
  exact (proj1 (fault_isolation twoProviders (fun _ => None)
                  (lit "X/m") (lit "Y/m") (lit "connection refused") _
                  ltac:(discriminate) eq_refl eq_refl G)).
Defined.

End ServerFacts.

(** ** The pipeline from the provider to the handler *)

Module PipelineFacts.
Import Spec Inv JSFacts ModelManager Server.

(** *** [streamCodeBlock] *)

(** A complete parser yields nothing and stays complete. *)
Lemma processChunk_complete (cb : CodeBlockParser.state) (c : str) :
  CodeBlockParser.codeBlockComplete cb = true ->
  fst (CodeBlockParser.processChunk cb c) = []
  /\ CodeBlockParser.codeBlockComplete
       (snd (CodeBlockParser.processChunk cb c)) = true.
Proof.
  intros H. destruct c as [|a c]; [now split|].
  cbn [CodeBlockParser.processChunk].
  assert (B : forall st, CodeBlockParser.codeBlockComplete st = true ->
                         CodeBlockParser.inBlock st = ([], st)).
  { intros st Hst. unfold CodeBlockParser.inBlock. rewrite Hst.
    now rewrite andb_false_r. }
  assert (O : forall st i,
             CodeBlockParser.codeBlockComplete (CodeBlockParser.openBlock st i)
             = CodeBlockParser.codeBlockComplete st).
  { intros st i. unfold CodeBlockParser.openBlock.
    now destruct (CodeBlockParser.matchLang _). }
  destruct (negb (CodeBlockParser.inCodeBlock _)).
  - destruct (negb (_ =? -1)).
    + rewrite B by (rewrite O; exact H). cbn [fst snd]. rewrite O.
      split; [reflexivity|exact H].
    + split; [reflexivity|exact H].
  - rewrite B; [split; [reflexivity|exact H]|exact H].
Qed.

(** The test after each [yield] of [streamCodeBlock] never succeeds:
    fragments are only yielded by a parser that is not complete. *)
Lemma overClean_goes_on (clean : list str) :
  forall cb, snd (overClean cb clean) = false.
Proof.
  induction clean as [|c clean IH]; intros cb; [reflexivity|].
  cbn [overClean].
  destruct (CodeBlockParser.codeBlockComplete cb) eqn:F.
  - destruct (processChunk_complete cb c F) as [E _].
    destruct (CodeBlockParser.processChunk cb c) as [out cb1].
    cbn [fst] in E. subst out. cbn [yieldUntil].
    specialize (IH cb1). now destruct (overClean cb1 clean) as [[o' cb2] r].
  - destruct (CodeBlockParser.processChunk cb c) as [out cb1].
    assert (Y : yieldUntil false out = (out, false)).
    { induction out as [|f out IHo]; [reflexivity|].
      cbn [yieldUntil]. now rewrite IHo. }
    rewrite Y. specialize (IH cb1).
    now destruct (overClean cb1 clean) as [[o' cb2] r].
Qed.

(** So the stream is read to its end, and an error of the provider's
    stream is an error of [streamCodeBlock]. *)
Lemma overRaw_failure (raw : list str) (fail : option str) :
  forall sp cb, failure (overRaw sp cb raw fail) = fail.
Proof.
  induction raw as [|r raw IH]; intros sp cb; cbn [overRaw].
  - now destruct fail.
  - destruct (StreamProcessor.process sp r) as [clean sp1].
    pose proof (overClean_goes_on (map coerce clean) cb) as G.
    destruct (overClean cb (map coerce clean)) as [[out cb1] returned].
    cbn [snd] in G. subst returned. cbn [prepend failure]. apply IH.
Qed.

Lemma streamCodeBlock_failure (s : stream str) :
  failure (streamCodeBlock s) = failure s.
Proof. apply overRaw_failure. Qed.

(** Without prior code, an error of the provider's stream in the first
    stage is the error of [streamResponse], and the callback of the
    handler ends with the error record. *)
Lemma first_stage_failure (providers : str -> option provider)
    (name model modelString msg : str) (p : provider) :
  parseModelString modelString
  = Ok {| providerName := Some name; modelName := Some model |} ->
  providers name = Some p ->
  failure (p (Some model) html [] []) = Some msg ->
  failure (streamResponse providers modelString None) = Some msg
  /\ exists w,
       modelTask modelString (streamResponse providers modelString None)
       = w ++ [Error modelString msg].
Proof.
  intros HP Hp Hf.
  assert (F : failure (streamResponse providers modelString None) = Some msg).
  { unfold streamResponse. rewrite HP. cbn [getProvider providerName modelName].
    rewrite Hp. cbn [existingOf]. unfold runStage at 1.
    cbn [processStep].
    pose proof (streamCodeBlock_failure (p (Some model) html [] [])) as E.
    rewrite Hf in E.
    destruct (accumulate html [] (items (streamCodeBlock (p (Some model) html [] []))))
      as [evs final].
    now rewrite E. }
  split; [exact F|].
  unfold modelTask.
  destruct (writeLoop modelString (mkCursor None [])
              (items (streamResponse providers modelString None))) as [w c].
  rewrite F. now exists w.
Qed.

(** *** Responses without a backtick *)

Lemma clean_firstn (s : str) (n : nat) : clean s -> clean (firstn n s).
Proof.
  intros H. revert n. induction H as [|c s Hc _ IH]; intros [|n]; simpl;
    try constructor; try assumption. apply IH.
Qed.

Lemma clean_skipn (s : str) (n : nat) : clean s -> clean (skipn n s).
Proof.
  intros H. revert n. induction H as [|c s Hc Hs IH]; intros [|n]; simpl;
    try constructor; try assumption. apply IH.
Qed.

Lemma clean_slice (s : str) (a b : Z) : clean s -> clean (slice s a b).
Proof. intros H. unfold slice. now apply clean_firstn, clean_skipn. Qed.

Lemma clean_app (a b : str) : clean a -> clean b -> clean (a ++ b).
Proof. intros Ha Hb. apply Forall_app. now split. Qed.

Lemma clean_no_fence (s : str) :
  clean s -> find_first CodeBlockParser.fence s = None.
Proof.
  induction 1 as [|c s Hc _ IH]; [reflexivity|].
  cbn [find_first]. rewrite IH.
  change CodeBlockParser.fence with ("`"%char :: lit "``"). cbn [starts].
  destruct (Ascii.eqb_spec "`" c) as [E|_]; [now symmetry in E|reflexivity].
Qed.

Lemma yield_some (x : str) (r : option StreamProcessor.scanned)
    (out : list str) (t : bool) (b : str) :
  StreamProcessor.yield x r = Some (out, t, b) ->
  exists out', r = Some (out', t, b) /\ out = x :: out'.
Proof.
  destruct r as [[[o t'] b']|]; [|discriminate].
  intros [= <- <- <-]. now exists o.
Qed.

(** What the loop yields and what it keeps back is cut from what it
    was given. *)
Lemma scan_clean (fuel : nat) :
  forall thinking buf content out t b,
    clean content -> clean buf ->
    StreamProcessor.scan fuel thinking buf content = Some (out, t, b) ->
    Forall clean out /\ clean b.
Proof.
  induction fuel as [|fuel IH]; intros thinking buf content out t b Hc Hb E;
    cbn [StreamProcessor.scan] in E;
    (destruct (len content >? 0);
     [|injection E as <- <- <-; split; [constructor|exact Hb]]);
    [discriminate|].
  assert (N : clean []) by constructor.
  destruct thinking.
  - destruct (negb (_ =? -1)).
    + eapply IH; [| |exact E]; [now apply clean_slice|exact Hb].
    + destruct (len content >? 7).
      * eapply IH; [| |exact E]; [exact N|now apply clean_slice].
      * eapply IH; [| |exact E]; [exact N|exact Hc].
  - cbv zeta in E. destruct (negb (_ =? -1)).
    + destruct (_ >? 0).
      * apply yield_some in E as (o & E & ->).
        destruct (IH _ _ _ _ _ _ (clean_slice _ _ _ Hc) Hb E) as [Ho Hk].
        split; [constructor; [now apply clean_slice|exact Ho]|exact Hk].
      * eapply IH; [| |exact E]; [now apply clean_slice|exact Hb].
    + destruct (len content >=? 7).
      * destruct (negb (_ =? -1)).
        -- apply yield_some in E as (o & E & ->).
           destruct (IH _ _ _ _ _ _ N
                       (clean_slice _ _ _ (clean_slice _ _ _ Hc)) E)
             as [Ho Hk].
           split; [constructor; [|exact Ho]|exact Hk].
           apply clean_app; repeat apply clean_slice; exact Hc.
        -- apply yield_some in E as (o & E & ->).
           destruct (IH _ _ _ _ _ _ N Hb E) as [Ho Hk].
           split; [constructor; assumption|exact Hk].
      * destruct (includes content StreamProcessor.lt).
        -- eapply IH; [| |exact E]; [exact N|exact Hc].
        -- apply yield_some in E as (o & E & ->).
           destruct (IH _ _ _ _ _ _ N Hb E) as [Ho Hk].
           split; [constructor; assumption|exact Hk].
Qed.

Lemma process_clean (sp : StreamProcessor.state) (r : str) :
  StreamProcessor.extractCodeBlock sp = false ->
  clean (StreamProcessor.buffer sp) -> clean r ->
  Forall clean (map coerce (fst (StreamProcessor.process sp r)))
  /\ StreamProcessor.extractCodeBlock (snd (StreamProcessor.process sp r))
     = false
  /\ clean (StreamProcessor.buffer (snd (StreamProcessor.process sp r))).
Proof.
  intros Hx Hb Hr. destruct r as [|c r].
  { repeat split; try assumption. constructor. }
  unfold StreamProcessor.process. rewrite Hx. cbn [andb].
  destruct (StreamProcessor.scan _ _ _ _) as [[[out t] b]|] eqn:E.
  - apply scan_clean in E as [Ho Hk];
      [|now apply clean_app|constructor].
    cbn [fst snd StreamProcessor.buffer StreamProcessor.extractCodeBlock].
    repeat split; [|exact Hk]. rewrite map_map. cbn [coerce].
    now rewrite map_id.
  - repeat split; try assumption. constructor.
Qed.

(** A parser that has not seen a fence swallows clean text. *)
Lemma overClean_swallows (frags : list str) :
  forall cb,
    CodeBlockParser.inCodeBlock cb = false ->
    clean (CodeBlockParser.buffer cb) -> Forall clean frags ->
    exists cb',
      overClean cb frags = ([], cb', false)
      /\ CodeBlockParser.inCodeBlock cb' = false
      /\ clean (CodeBlockParser.buffer cb').
Proof.
  induction frags as [|f frags IH]; intros cb Hi Hb Hf.
  { exists cb. repeat split; assumption. }
  inversion Hf as [|? ? Hf1 Hf2]; subst.
  assert (E : exists cb1,
             CodeBlockParser.processChunk cb f = ([], cb1)
             /\ CodeBlockParser.inCodeBlock cb1 = false
             /\ clean (CodeBlockParser.buffer cb1)).
  { destruct f as [|c f]; [exists cb; repeat split; assumption|].
    cbn [CodeBlockParser.processChunk].
    cbn [CodeBlockParser.inCodeBlock CodeBlockParser.setBuffer
           CodeBlockParser.buffer].
    rewrite Hi. cbn [negb]. unfold indexOf.
    rewrite clean_no_fence by now apply clean_app.
    cbn [index_of_option]. change (negb (-1 =? -1)) with false. cbv iota.
    eexists. split; [reflexivity|]. split; [exact Hi|now apply clean_app]. }
  destruct E as (cb1 & E & Hi1 & Hb1).
  destruct (IH cb1 Hi1 Hb1 Hf2) as (cb2 & E2 & Hi2 & Hb2).
  exists cb2. cbn [overClean]. rewrite E. cbn [yieldUntil]. rewrite E2.
  repeat split; assumption.
Qed.

Lemma overRaw_swallows (raw : list str) :
  forall sp cb,
    StreamProcessor.extractCodeBlock sp = false ->
    clean (StreamProcessor.buffer sp) ->
    CodeBlockParser.inCodeBlock cb = false ->
    clean (CodeBlockParser.buffer cb) ->
    Forall clean raw ->
    overRaw sp cb raw None = mkStream [] None.
Proof.
  induction raw as [|r raw IH]; intros sp cb Hx Hs Hi Hb Hr.
  - cbn [overRaw]. unfold CodeBlockParser.finalize. now rewrite Hi.
  - inversion Hr as [|? ? Hr1 Hr2]; subst. cbn [overRaw].
    destruct (process_clean sp r Hx Hs Hr1) as (Hc & Hx1 & Hs1).
    destruct (StreamProcessor.process sp r) as [frags sp1].
    cbn [fst snd] in *.
    destruct (overClean_swallows _ cb Hi Hb Hc) as (cb1 & E & Hi1 & Hb1).
    rewrite E. rewrite (IH sp1 cb1 Hx1 Hs1 Hi1 Hb1 Hr2). reflexivity.
Qed.

(** A response without a single backtick, ended normally, gives an
    extracted stream without a single fragment. *)
Lemma no_backtick_no_fragment (raw : list str) :
  Forall clean raw ->
  streamCodeBlock (mkStream raw None) = mkStream [] None.
Proof.
  intros H. apply overRaw_swallows; try reflexivity; try constructor.
  exact H.
Qed.

(** So a stage whose response holds no backtick reports no progress,
    prior code or not. *)
Lemma no_backtick_stage_empty (p : provider) (model : option str)
    (t : stage) (context existing : str) (raw : list str) :
  p model t context existing = mkStream raw None ->
  Forall clean raw ->
  runStage p model t context existing = ([], [], None).
Proof.
  intros E H. unfold runStage. rewrite E, (no_backtick_no_fragment raw H).
  now destruct existing.
Qed.

(** *** The end-to-end example of the specification *)

(** One model, no prior code, a provider that answers each stage with a
    fenced block: the records are the three stages in order, each
    wrapped in its markers, then the model's [Done]. *)
Example end_to_end :
  taskOf twoProviders (fun _ => None) (lit "Y/m")
  = [Data (lit "Y/m") (marker html ++ lit "x");
     Data (lit "Y/m") closeMarker;
     Data (lit "Y/m") (marker css ++ lit "x");
     Data (lit "Y/m") closeMarker;
     Data (lit "Y/m") (marker js ++ lit "x");
     Data (lit "Y/m") closeMarker;
     Done (lit "Y/m")].
Proof. vm_compute. reflexivity. Qed.


End PipelineFacts.

(** * Further properties *)

(** ** The fence extractor, beyond the claims *)

Module ParserMore.
Import Spec Inv JSFacts CodeBlockParser CodeBlockParserFacts.

Lemma free_find_first (s : str) : free s -> find_first fence s = None.
Proof.
  intros H. destruct (find_first fence s) as [i|] eqn:F; [|reflexivity].
  apply find_first_some in F as [Ho _]. unfold occursAt in Ho.
  now rewrite H in Ho.
Qed.

(** Until a fence has come, a chunk is only added to the buffer. *)
Lemma step_waiting (st : state) (c : str) :
  inCodeBlock st = false -> free (buffer st ++ c) ->
  fst (processChunk st c) = []
  /\ buffer (snd (processChunk st c)) = buffer st ++ c
  /\ inCodeBlock (snd (processChunk st c)) = false
  /\ codeBlockComplete (snd (processChunk st c)) = codeBlockComplete st.
Proof.
  intros Hi Hf. destruct c as [|a c].
  { cbn. now rewrite app_nil_r. }
  cbn [processChunk]. cbn [inCodeBlock setBuffer buffer]. rewrite Hi.
  cbn [negb]. unfold indexOf. rewrite (free_find_first _ Hf).
  cbn [index_of_option]. change (negb (-1 =? -1)) with false. cbv iota.
  repeat split. exact Hi.
Qed.

Lemma feed_waiting (chunks : list str) :
  forall st,
    inCodeBlock st = false -> codeBlockComplete st = false ->
    free (buffer st ++ concat chunks) ->
    fst (fst (feed st chunks)) = []
    /\ snd (fst (feed st chunks)) = repeat false (length chunks)
    /\ buffer (snd (feed st chunks)) = buffer st ++ concat chunks
    /\ inCodeBlock (snd (feed st chunks)) = false.
Proof.
  induction chunks as [|c chunks IH]; intros st Hi Hc Hf.
  { cbn. rewrite app_nil_r. repeat split. exact Hi. }
  cbn [concat] in Hf. pose proof Hf as Hf1.
  rewrite app_assoc in Hf1. apply free_app in Hf1 as [Hf1 _].
  destruct (step_waiting st c Hi Hf1) as (E1 & E2 & E3 & E4).
  cbn [feed]. destruct (processChunk st c) as [o st1]. cbn [fst snd] in *.
  subst o. rewrite Hc in E4.
  assert (Hf2 : free (buffer st1 ++ concat chunks)).
  { now rewrite E2, <- app_assoc. }
  destruct (IH st1 E3 E4 Hf2) as (I1 & I2 & I3 & I4).
  destruct (feed st1 chunks) as [[os fl] st2]. cbn [fst snd] in *.
  rewrite E4. subst os fl. cbn [app length repeat concat].
  repeat split; [|exact I4]. now rewrite I3, E2, <- app_assoc.
Qed.

(** X1: as long as the chunks received hold no fence, the parser yields
    nothing, is in no block, and keeps every code unit it was given in
    its buffer; [finalize] then yields nothing either. *)
Theorem waits_for_fence (chunks : list str) :
  includes (concat chunks) fence = false ->
  fst (fst (feed init chunks)) = []
  /\ snd (fst (feed init chunks)) = repeat false (length chunks)
  /\ buffer (snd (feed init chunks)) = concat chunks
  /\ inCodeBlock (snd (feed init chunks)) = false
  /\ fst (finalize (snd (feed init chunks))) = []
  /\ extract chunks = [].
Proof.
  intros H. apply includes_free in H.
  destruct (feed_waiting chunks init eq_refl eq_refl H) as (A & B & C & D).
  repeat split; try assumption.
  - unfold finalize. now rewrite D.
  - unfold extract. destruct (feed init chunks) as [[os fl] st].
    cbn [fst snd] in *. subst os. unfold finalize. now rewrite D.
Qed.

Lemma waits_for_fence_witness :
  let chunks := [lit "Here is `the` "; lit "code: ``"] in
  includes (concat chunks) fence = false
  /\ buffer (snd (feed init chunks)) = lit "Here is `the` code: ``".
Proof.
  cbv zeta. split; [reflexivity|].
  exact (proj1 (proj2 (proj2 (waits_for_fence
           [lit "Here is `the` "; lit "code: ``"] eq_refl)))).
Defined.

(** *** After completion *)

Lemma inBlock_idle (st : state) :
  inCodeBlock st && negb (codeBlockComplete st) = false ->
  inBlock st = ([], st).
Proof. intros H. unfold inBlock. now rewrite H. Qed.

Lemma openBlock_complete (st : state) (i : Z) :
  codeBlockComplete (openBlock st i) = codeBlockComplete st.
Proof. unfold openBlock. now destruct (matchLang _). Qed.

Lemma step_complete (st : state) (c : str) :
  codeBlockComplete st = true ->
  fst (processChunk st c) = []
  /\ codeBlockComplete (snd (processChunk st c)) = true.
Proof.
  intros H. destruct c as [|a c]; [now split|].
  cbn [processChunk].
  destruct (negb (inCodeBlock _)).
  - destruct (negb (_ =? -1)).
    + rewrite inBlock_idle.
      * cbn [fst snd]. now rewrite openBlock_complete.
      * rewrite openBlock_complete. cbn [codeBlockComplete setBuffer].
        rewrite H. apply andb_false_r.
    + now split.
  - rewrite inBlock_idle; [now split|].
    cbn [codeBlockComplete setBuffer]. rewrite H. apply andb_false_r.
Qed.

Lemma feed_complete (chunks : list str) :
  forall st,
    codeBlockComplete st = true ->
    fst (fst (feed st chunks)) = []
    /\ snd (fst (feed st chunks)) = repeat true (length chunks)
    /\ codeBlockComplete (snd (feed st chunks)) = true.
Proof.
  induction chunks as [|c chunks IH]; intros st H; [now repeat split|].
  destruct (step_complete st c H) as [E1 E2]. cbn [feed].
  destruct (processChunk st c) as [o st1]. cbn [fst snd] in *. subst o.
  destruct (IH st1 E2) as (I1 & I2 & I3).
  destruct (feed st1 chunks) as [[os fl] st2]. cbn [fst snd] in *.
  subst os fl. rewrite E2. now repeat split.
Qed.

(** X2: a parser that has completed its block never yields again:
    whatever chunks follow, no fragment comes out of [processChunk],
    the flag stays set, and [finalize] yields nothing. *)
Theorem complete_is_final (st : state) (chunks : list str) :
  codeBlockComplete st = true ->
  fst (fst (feed st chunks)) = []
  /\ snd (fst (feed st chunks)) = repeat true (length chunks)
  /\ fst (finalize (snd (feed st chunks))) = [].
Proof.
  intros H. destruct (feed_complete chunks st H) as (A & B & C).
  repeat split; try assumption.
  unfold finalize. rewrite C. now rewrite andb_false_r.
Qed.

Lemma complete_is_final_witness :
  let st := snd (feed init [fenced (lit "js") (lit "a")]) in
  let chunks := [lit "and ```more```"; lit "```text"] in
  codeBlockComplete st = true
  /\ fst (fst (feed st chunks)) = [].
Proof.
  cbv zeta. split; [reflexivity|].
  exact (proj1 (complete_is_final
                  (snd (feed init [fenced (lit "js") (lit "a")]))
                  [lit "and ```more```"; lit "```text"] eq_refl)).
Defined.

(** *** The lookback window *)

Lemma slice_from_short (s : str) (k : nat) :
  (length (slice_from s (Z.max 0 (len s - Z.of_nat k))) <= k)%nat.
Proof.
  rewrite slice_suffix_Z by lia. rewrite length_skipn. unfold len. lia.
Qed.

(** Inside a block, what [inBlock] leaves in the buffer is at most two
    code units. *)
Lemma inBlock_window (st : state) :
  inCodeBlock (snd (inBlock st)) = true ->
  codeBlockComplete (snd (inBlock st)) = false ->
  (length (buffer (snd (inBlock st))) <= 2 \/ snd (inBlock st) = st
                                            /\ inCodeBlock st = false)%nat.
Proof.
  unfold inBlock. cbv zeta.
  destruct (inCodeBlock st && negb (codeBlockComplete st)) eqn:G.
  - destruct (negb (_ =? -1) && (_ >? 0)); [cbn; discriminate|].
    destruct (negb (_ =? -1) && (_ >=? _)).
    + intros _ _. left. cbn [snd buffer setBuffer].
      apply (slice_from_short (buffer st) 2).
    + intros _ _. left. destruct (buffer st) eqn:B; cbn [snd].
      * rewrite B. simpl. lia.
      * cbn. lia.
  - cbn [snd]. intros Hi Hc. rewrite Hi, Hc in G. discriminate.
Qed.

Lemma step_window (st : state) (c : str) :
  (inCodeBlock st = true -> codeBlockComplete st = false ->
   length (buffer st) <= 2)%nat ->
  inCodeBlock (snd (processChunk st c)) = true ->
  codeBlockComplete (snd (processChunk st c)) = false ->
  (length (buffer (snd (processChunk st c))) <= 2)%nat.
Proof.
  intros I. destruct c as [|a c]; [exact I|].
  cbn [processChunk].
  destruct (negb (inCodeBlock (setBuffer st _))) eqn:N.
  - destruct (negb (_ =? -1)).
    + intros Hi Hc. destruct (inBlock_window _ Hi Hc) as [L|[_ E]];
        [exact L|]. unfold openBlock in E.
      destruct (matchLang _); discriminate.
    + cbn [snd]. intros Hi. apply negb_true_iff in N. congruence.
  - intros Hi Hc. destruct (inBlock_window _ Hi Hc) as [L|[_ E]];
      [exact L|]. apply negb_false_iff in N. congruence.
Qed.

(** From the constructed state the window holds after every chunk. *)
Lemma feed_window (chunks : list str) :
  inCodeBlock (snd (feed init chunks)) = true ->
  codeBlockComplete (snd (feed init chunks)) = false ->
  (length (buffer (snd (feed init chunks))) <= 2)%nat.
Proof.
  assert (G : forall st,
             (inCodeBlock st = true -> codeBlockComplete st = false ->
              length (buffer st) <= 2)%nat ->
             inCodeBlock (snd (feed st chunks)) = true ->
             codeBlockComplete (snd (feed st chunks)) = false ->
             (length (buffer (snd (feed st chunks))) <= 2)%nat).
  { induction chunks as [|c chunks IH]; intros st I; [exact I|].
    cbn [feed]. pose proof (step_window st c I) as S.
    destruct (processChunk st c) as [o st1]. cbn [snd] in S.
    specialize (IH st1 S). destruct (feed st1 chunks) as [[os fl] st2].
    exact IH. }
  apply G. cbn. discriminate.
Qed.

(** *** A block that is never closed *)

Lemma step_open (st : state) (c : str) :
  streaming st -> codeBlockComplete (snd (processChunk st c)) = false ->
  concat (fst (processChunk st c)) ++ buffer (snd (processChunk st c))
  = buffer st ++ c
  /\ streaming (snd (processChunk st c)).
Proof.
  intros [Hi Hc]. destruct c as [|a c].
  { intros _. cbn. rewrite app_nil_r. repeat split; assumption. }
  cbn [processChunk]. cbn [inCodeBlock setBuffer]. rewrite Hi. cbn [negb].
  unfold inBlock. cbv zeta.
  cbn [inCodeBlock codeBlockComplete setBuffer buffer]. rewrite Hi, Hc.
  cbn [negb andb]. remember (buffer st ++ a :: c) as buf eqn:B0.
  clear B0.
  destruct (negb (lastIndexOf buf fence =? -1) && (lastIndexOf buf fence >? 0));
    [cbn; discriminate|].
  destruct (negb (lastIndexOf buf tick =? -1)
            && (lastIndexOf buf tick >=? len buf - 2)).
  - intros _. cbn [fst snd buffer setBuffer]. rewrite concat_nonEmpty.
    assert (H : 0 <= Z.max 0 (len buf - 2)) by lia.
    rewrite slice_prefix_Z, slice_suffix_Z by exact H.
    split; [apply firstn_skipn|split; assumption].
  - intros _. destruct buf as [|d r] eqn:B.
    + cbn [fst snd buffer setBuffer concat app].
      split; [reflexivity|split; assumption].
    + cbn [fst snd buffer setBuffer concat]. rewrite !app_nil_r.
      split; [reflexivity|split; assumption].
Qed.

Lemma feed_open (chunks : list str) :
  forall st,
    streaming st -> codeBlockComplete (snd (feed st chunks)) = false ->
    concat (fst (fst (feed st chunks))) ++ buffer (snd (feed st chunks))
    = buffer st ++ concat chunks
    /\ streaming (snd (feed st chunks)).
Proof.
  induction chunks as [|c chunks IH]; intros st Hs.
  { intros _. cbn. rewrite app_nil_r. split; [reflexivity|exact Hs]. }
  cbn [feed]. pose proof (step_open st c Hs) as S1.
  pose proof (fun H => feed_complete chunks (snd (processChunk st c)) H) as F.
  destruct (processChunk st c) as [o st1]. cbn [fst snd] in *.
  specialize (IH st1).
  destruct (feed st1 chunks) as [[os fl] st2]. cbn [fst snd] in *.
  intros Hc2.
  assert (Hc1 : codeBlockComplete st1 = false).
  { destruct (codeBlockComplete st1); [|reflexivity].
    destruct (F eq_refl) as (_ & _ & F3). congruence. }
  destruct (S1 Hc1) as [E1 Hs1]. destruct (IH Hs1 Hc2) as [E2 Hs2].
  split; [|exact Hs2].
  rewrite concat_app, <- app_assoc, E2. cbn [concat].
  now rewrite !app_assoc, E1.
Qed.

(** *** Nothing after the opening is lost *)

Lemma wordRun_split (s : str) :
  s = wordRun s ++ skipn (length (wordRun s)) s
  /\ Forall (fun c => is_word c = true) (wordRun s).
Proof.
  induction s as [|c s [E F]]; [split; [reflexivity|constructor]|].
  cbn [wordRun]. destruct (is_word c) eqn:W.
  - cbn [length skipn app]. split; [now f_equal|now constructor].
  - split; [reflexivity|constructor].
Qed.

Lemma matchLang_run (s l : str) : matchLang s = Some l -> l = wordRun s.
Proof.
  unfold matchLang. cbv zeta. destruct (wordRun s) as [|a w]; [discriminate|].
  destruct (skipn _ s) as [|c r]; [discriminate|].
  destruct (is_space c); [|discriminate]. now intros [= <-].
Qed.

Lemma skipBlank_split (rest : str) :
  forall z,
    exists blanks tail,
      rest = blanks ++ tail
      /\ Forall (fun c => is_blank c = true) blanks
      /\ skipBlank rest z = z + len blanks.
Proof.
  induction rest as [|c rest IH]; intros z.
  - exists [], []. cbn. repeat split; [constructor|lia].
  - cbn [skipBlank]. destruct (is_blank c) eqn:B.
    + destruct (IH (z + 1)) as (bl & tl & E & F & S).
      exists (c :: bl), tl. subst rest. split; [reflexivity|].
      split; [now constructor|]. rewrite S. unfold len. cbn [length]. lia.
    + exists [], (c :: rest). cbn. repeat split; [constructor|lia].
Qed.

(** The opening branch drops the text before the first fence, the
    fence, a run of word characters and a run of blanks, and keeps the
    rest as the buffer. *)
Lemma openBlock_split (st : state) (i : nat) :
  find_first fence (buffer st) = Some i ->
  exists tag blanks,
    buffer st
    = firstn i (buffer st) ++ fence ++ tag ++ blanks
      ++ buffer (openBlock st (Z.of_nat i))
    /\ Forall (fun c => is_word c = true) tag
    /\ Forall (fun c => is_blank c = true) blanks.
Proof.
  intros F. apply find_first_some in F as [Ho _].
  pose proof (occursAt_split _ _ _ Ho) as E.
  change (length fence) with 3%nat in E.
  set (buf := buffer st) in *. set (rest := skipn (i + 3) buf) in *.
  assert (G : forall tag tail,
             rest = tag ++ tail ->
             Forall (fun c => is_word c = true) tag ->
             exists blanks,
               buf = firstn i buf ++ fence ++ tag ++ blanks
                     ++ slice_from buf
                          (skipBlank tail (Z.of_nat i + 3 + len tag))
               /\ Forall (fun c => is_blank c = true) blanks).
  { intros tag tail Er Ft.
    destruct (skipBlank_split tail (Z.of_nat i + 3 + len tag))
      as (bl & tl & Et & Fb & S).
    exists bl. split; [|exact Fb]. rewrite S. unfold len.
    replace (Z.of_nat i + 3 + Z.of_nat (length tag) + Z.of_nat (length bl))
      with (Z.of_nat (i + 3 + length tag + length bl)) by lia.
    rewrite slice_suffix.
    assert (K : skipn (i + 3 + length tag + length bl) buf = tl).
    { replace (i + 3 + length tag + length bl)%nat
        with (length (tag ++ bl) + (i + 3))%nat by (rewrite length_app; lia).
      rewrite <- skipn_skipn. fold rest. rewrite Er, Et, app_assoc.
      now rewrite skipn_app, skipn_all, Nat.sub_diag. }
    rewrite K. rewrite E at 1. now rewrite Er, Et. }
  unfold openBlock. cbv zeta. fold buf. rewrite slice_suffix_Z by lia.
  replace (Z.to_nat (Z.of_nat i + 3)) with (i + 3)%nat by lia. fold rest.
  destruct (matchLang rest) as [l|] eqn:M.
  - apply matchLang_run in M. destruct (wordRun_split rest) as [Er Fw].
    rewrite <- M in Er, Fw.
    destruct (G l (skipn (length l) rest) Er Fw) as (bl & Eb & Fb).
    exists l, bl. cbn [buffer]. split; [|now split].
    replace (Z.to_nat (Z.of_nat i + 3 + len l)) with (i + 3 + length l)%nat
      by (unfold len; lia).
    rewrite (Nat.add_comm (i + 3)), <- skipn_skipn. fold rest. exact Eb.
  - destruct (G [] rest eq_refl (Forall_nil _)) as (bl & Eb & Fb).
    exists [], bl. cbn [buffer]. split; [|now split].
    replace (Z.to_nat (Z.of_nat i + 3)) with (i + 3)%nat by lia. fold rest.
    change (len []) with 0 in Eb. now rewrite Z.add_0_r in Eb.
Qed.

Lemma inBlock_open (st : state) :
  streaming st -> codeBlockComplete (snd (inBlock st)) = false ->
  concat (fst (inBlock st)) ++ buffer (snd (inBlock st)) = buffer st
  /\ streaming (snd (inBlock st)).
Proof.
  intros [Hi Hc]. unfold inBlock. cbv zeta. rewrite Hi, Hc. cbn [negb andb].
  destruct (negb (lastIndexOf (buffer st) fence =? -1)
            && (lastIndexOf (buffer st) fence >? 0)); [cbn; discriminate|].
  destruct (negb (lastIndexOf (buffer st) tick =? -1)
            && (lastIndexOf (buffer st) tick >=? len (buffer st) - 2)).
  - intros _. cbn [fst snd buffer setBuffer]. rewrite concat_nonEmpty.
    assert (H : 0 <= Z.max 0 (len (buffer st) - 2)) by lia.
    rewrite slice_prefix_Z, slice_suffix_Z by exact H.
    split; [apply firstn_skipn|split; assumption].
  - intros _. destruct (buffer st) as [|d r] eqn:B.
    + cbn [fst snd concat app]. split; [exact B|split; assumption].
    + cbn [fst snd buffer setBuffer concat]. rewrite !app_nil_r.
      split; [reflexivity|split; assumption].
Qed.

Lemma firstAt_app (pat s r : str) (i : nat) :
  pat <> [] -> firstAt pat s i -> firstAt pat (s ++ r) i.
Proof.
  intros Hp [Ho Hf]. pose proof (occursAt_bound _ _ _ Ho) as Hb.
  assert (Hi : (i + length pat <= length s)%nat).
  { destruct pat; [contradiction|]. cbn [length] in *. lia. }
  split.
  - unfold occursAt. now rewrite occursAt_app.
  - intros j Hj Hc. apply (Hf j Hj). unfold occursAt in *.
    now rewrite occursAt_app in Hc by lia.
Qed.

Lemma feed_from_waiting (chunks : list str) :
  forall st,
    inCodeBlock st = false -> codeBlockComplete st = false ->
    inCodeBlock (snd (feed st chunks)) = true ->
    codeBlockComplete (snd (feed st chunks)) = false ->
    exists i tag blanks,
      firstAt fence (buffer st ++ concat chunks) i
      /\ buffer st ++ concat chunks
         = firstn i (buffer st ++ concat chunks) ++ fence ++ tag ++ blanks
           ++ concat (fst (fst (feed st chunks)))
           ++ buffer (snd (feed st chunks))
      /\ Forall (fun c => is_word c = true) tag
      /\ Forall (fun c => is_blank c = true) blanks.
Proof.
  induction chunks as [|c chunks IH]; intros st Hi Hc.
  { cbn [feed snd]. congruence. }
  destruct c as [|a c].
  { cbn [feed processChunk concat app]. specialize (IH st Hi Hc).
    destruct (feed st chunks) as [[os fl] st2]. exact IH. }
  cbn [feed processChunk concat]. cbn [inCodeBlock setBuffer buffer].
  rewrite Hi. cbn [negb]. unfold indexOf.
  destruct (find_first fence (buffer st ++ a :: c)) as [i|] eqn:F;
    cbn [index_of_option].
  - destruct (Z.eqb_spec (Z.of_nat i) (-1)) as [Z|_]; [lia|]. cbn [negb].
    set (st1 := openBlock (setBuffer st (buffer st ++ a :: c)) (Z.of_nat i)).
    destruct (openBlock_split (setBuffer st (buffer st ++ a :: c)) i F)
      as (tag & blanks & E & Ft & Fb). fold st1 in E.
    cbn [buffer setBuffer] in E.
    assert (S1 : streaming st1).
    { split; [|unfold st1; now rewrite openBlock_complete].
      unfold st1, openBlock. now destruct (matchLang _). }
    pose proof (inBlock_open st1 S1) as O.
    pose proof (fun H => feed_complete chunks (snd (inBlock st1)) H) as K.
    pose proof (fun H1 H2 => feed_open chunks (snd (inBlock st1)) H1 H2) as G.
    destruct (inBlock st1) as [o st2]. cbn [fst snd] in *.
    destruct (feed st2 chunks) as [[os fl] st3]. cbn [fst snd] in *.
    intros _ Hc3.
    assert (Hc2 : codeBlockComplete st2 = false).
    { destruct (codeBlockComplete st2); [|reflexivity].
      destruct (K eq_refl) as (_ & _ & K3). congruence. }
    destruct (O Hc2) as [O1 O2]. destruct (G O2 Hc3) as [G1 _].
    exists i, tag, blanks. split; [|split; [|now split]].
    + rewrite app_assoc. apply firstAt_app; [exact fence_nonempty|].
      now apply find_first_some.
    + rewrite app_assoc, firstn_app.
      pose proof (find_first_some _ _ _ F) as [Ho _].
      pose proof (occursAt_bound _ _ _ Ho) as Hb.
      change (length fence) with 3%nat in Hb.
      assert (Hl : (i <= length (buffer st ++ a :: c))%nat) by lia.
      replace (i - length (buffer st ++ a :: c))%nat with 0%nat by lia.
      rewrite firstn_O, app_nil_r. rewrite E at 1.
      rewrite <- O1, concat_app, <- !app_assoc. do 5 f_equal.
      now rewrite G1.
  - change (negb (-1 =? -1)) with false. cbv iota.
    specialize (IH (setBuffer st (buffer st ++ a :: c)) Hi Hc).
    cbn [buffer setBuffer] in IH. rewrite <- app_assoc in IH.
    destruct (feed (setBuffer st (buffer st ++ a :: c)) chunks)
      as [[os fl] st2]. exact IH.
Qed.

(** X3: however a response is cut into chunks, a parser that is in a
    block it has not completed holds at most two code units in its
    buffer between calls, and nothing after the opening has been lost:
    the text received is the text before its first fence, the fence, a
    run of word characters (the tag, when one was recognised), a run
    of blanks, and then exactly the fragments yielded so far followed
    by the buffer. *)
Theorem lookback_window (chunks : list str) :
  inCodeBlock (snd (feed init chunks)) = true ->
  codeBlockComplete (snd (feed init chunks)) = false ->
  (length (buffer (snd (feed init chunks))) <= 2)%nat
  /\ exists i tag blanks,
       firstAt fence (concat chunks) i
       /\ concat chunks
          = firstn i (concat chunks) ++ fence ++ tag ++ blanks
            ++ concat (fst (fst (feed init chunks)))
            ++ buffer (snd (feed init chunks))
       /\ Forall (fun c => is_word c = true) tag
       /\ Forall (fun c => is_blank c = true) blanks.
Proof.
  intros Hi Hc. split; [now apply feed_window|].
  exact (feed_from_waiting chunks init eq_refl eq_refl Hi Hc).
Qed.

Lemma lookback_window_witness :
  let chunks :=
    [lit "Here: ``"; lit "`js" ++ [nl] ++ lit "let s = `a"; lit "b`; // `"] in
  (inCodeBlock (snd (feed init chunks)) = true
   /\ codeBlockComplete (snd (feed init chunks)) = false)
  /\ (length (buffer (snd (feed init chunks))) <= 2)%nat
  /\ concat (fst (fst (feed init chunks))) ++ buffer (snd (feed init chunks))
     = lit "let s = `ab`; // `".
Proof.
  cbv zeta. split; [split; reflexivity|].
  split; [|reflexivity].
  exact (proj1 (lookback_window
                  [lit "Here: ``"; lit "`js" ++ [nl] ++ lit "let s = `a";
                   lit "b`; // `"] eq_refl eq_refl)).
Defined.

(** X4: a block that never completes loses nothing.  From a parser
    inside a block, whatever the chunks hold (fences included), if the
    parser has not completed at the end of the stream then the fragments
    of [processChunk] followed by the fragment of [finalize] are, code
    unit for code unit, the buffer the parser started with followed by
    the chunks. *)
Theorem unterminated_block_is_kept (st : state) (chunks : list str) :
  inCodeBlock st = true -> codeBlockComplete st = false ->
  codeBlockComplete (snd (feed st chunks)) = false ->
  concat (fst (fst (feed st chunks)))
  ++ concat (fst (finalize (snd (feed st chunks))))
  = buffer st ++ concat chunks.
Proof.
  intros Hi Hc Hn.
  destruct (feed_open chunks st (conj Hi Hc) Hn) as [E [Hi2 Hc2]].
  rewrite <- E. f_equal. unfold finalize. rewrite Hi2, Hc2. cbn [negb andb].
  destruct (buffer (snd (feed st chunks))) as [|d r]; [reflexivity|].
  cbn. now rewrite app_nil_r.
Qed.

Lemma unterminated_block_is_kept_witness :
  let st := opened (lit "js") in
  let chunks := [lit "```"; lit "a = `b"; lit "`;`"] in
  (inCodeBlock st = true /\ codeBlockComplete st = false
   /\ codeBlockComplete (snd (feed st chunks)) = false)
  /\ concat (fst (fst (feed st chunks)))
     ++ concat (fst (finalize (snd (feed st chunks))))
     = lit "```a = `b`;`".
Proof.
  cbv zeta. split; [repeat split|].
  exact (unterminated_block_is_kept (opened (lit "js"))
           [lit "```"; lit "a = `b"; lit "`;`"] eq_refl eq_refl eq_refl).
Defined.

(** *** Fragments are never empty *)

Lemma nonEmpty_filled (s : str) : Forall (fun f => f <> []) (nonEmpty s).
Proof. destruct s; constructor; [discriminate|constructor]. Qed.

Lemma inBlock_filled (st : state) :
  Forall (fun f => f <> []) (fst (inBlock st)).
Proof.
  unfold inBlock. cbv zeta.
  destruct (inCodeBlock st && negb (codeBlockComplete st)); [|constructor].
  destruct (negb (_ =? -1) && (_ >? 0)); [apply nonEmpty_filled|].
  destruct (negb (_ =? -1) && (_ >=? _)); [apply nonEmpty_filled|].
  destruct (buffer st) eqn:B; constructor; [discriminate|constructor].
Qed.

Lemma processChunk_filled (st : state) (c : str) :
  Forall (fun f => f <> []) (fst (processChunk st c)).
Proof.
  destruct c as [|a c]; [constructor|]. cbn [processChunk].
  destruct (negb (inCodeBlock _)); [|apply inBlock_filled].
  destruct (negb (_ =? -1)); [apply inBlock_filled|constructor].
Qed.

Lemma feed_filled (chunks : list str) :
  forall st, Forall (fun f => f <> []) (fst (fst (feed st chunks))).
Proof.
  induction chunks as [|c chunks IH]; intros st; [constructor|].
  cbn [feed]. pose proof (processChunk_filled st c) as P.
  destruct (processChunk st c) as [o st1]. specialize (IH st1).
  destruct (feed st1 chunks) as [[os fl] st2]. cbn [fst] in *.
  apply Forall_app. now split.
Qed.

Lemma finalize_filled (st : state) :
  Forall (fun f => f <> []) (fst (finalize st)).
Proof.
  unfold finalize.
  destruct (inCodeBlock st && negb (codeBlockComplete st)); [|constructor].
  cbn [andb]. destruct (Z.ltb_spec 0 (len (buffer st))) as [L|_];
    [|constructor].
  constructor; [|constructor]. intros E. rewrite E in L. cbn in L. lia.
Qed.

End ParserMore.

(** ** The tag filter, beyond the claims *)

Module FilterMore.
Import Spec Inv JSFacts StreamProcessor StreamProcessorFacts Reset.

(** X5: the filter never takes anything back.  After any number of
    chunks, the text it has yielded is the beginning of the text with
    the reasoning spans removed, however the stream goes on: the rest
    is what removing the spans makes of the lookback buffer followed by
    the chunks still to come. *)
Theorem emitted_is_prefix (chunks more : list str) :
  removeSpans (concat (chunks ++ more))
  = text (fst (feed (new false) chunks))
    ++ strip (isThinking (snd (feed (new false) chunks))) 0
         (buffer (snd (feed (new false) chunks)) ++ concat more).
Proof.
  destruct (feed_spec chunks (new false) plain_new) as (out & st & E & _ & H).
  rewrite E. cbn [fst snd]. rewrite text_map, (H (concat more)).
  now rewrite concat_app.
Qed.

(** *** A span that is never closed *)

Lemma short_no_open (b : str) (c : ascii) :
  (length b <= 6)%nat -> c <> ">"%char ->
  strip false 0 (b ++ [c]) = b ++ [c].
Proof.
  intros L Hc.
  rewrite <- (app_nil_r (b ++ [c])) at 1. rewrite strip_text; [apply app_nil_r|].
  intros j Hj. rewrite app_nil_r.
  destruct (starts openTag (skipn j (b ++ [c]))) eqn:E; [|reflexivity].
  pose proof (starts_length _ _ E) as L1. rewrite length_skipn in L1.
  rewrite length_app in *. cbn [length] in *.
  change (length openTag) with 7%nat in L1.
  assert (j = 0%nat /\ length b = 6%nat) as [-> Lb] by lia.
  pose proof (starts_nth openTag _ 0 6 E ltac:(cbn; lia)) as N.
  rewrite nth_error_app2 in N by (cbn; lia).
  cbn [Nat.add] in N. rewrite Lb in N. cbn in N. congruence.
Qed.

Lemma hidden_to_the_end (b : str) (c : ascii) :
  find_first closeTag b = None -> c <> ">"%char ->
  strip true 0 (b ++ [c]) = [].
Proof.
  intros F Hc.
  rewrite <- (app_nil_r (b ++ [c])). rewrite strip_hidden; [reflexivity|].
  intros j Hj. rewrite app_nil_r.
  destruct (starts closeTag (skipn j (b ++ [c]))) eqn:E; [|reflexivity].
  pose proof (starts_length _ _ E) as L1. rewrite length_skipn in L1.
  rewrite length_app in *. cbn [length] in *.
  change (length closeTag) with 8%nat in L1.
  destruct (Nat.eq_dec (j + 8) (length b + 1)) as [Q|Q].
  - pose proof (starts_nth closeTag _ j 7 E ltac:(cbn; lia)) as N.
    rewrite nth_error_app2 in N by lia.
    replace (j + 7 - length b)%nat with 0%nat in N by lia.
    cbn in N. congruence.
  - rewrite occursAt_app in E by (change (length closeTag) with 8%nat; lia).
    now rewrite (find_first_none _ _ j F) in E.
Qed.

Lemma hidden_all (b : str) :
  find_first closeTag b = None -> strip true 0 b = [].
Proof.
  intros F. rewrite <- (app_nil_r b). rewrite strip_hidden; [reflexivity|].
  intros j _. rewrite app_nil_r. now apply find_first_none.
Qed.

Lemma strip_until_open (a r : str) :
  firstAt openTag (a ++ openTag ++ r) (length a) ->
  strip false 0 (a ++ openTag ++ r) = a ++ strip true 0 r.
Proof.
  intros [_ H]. rewrite strip_text, strip_open; [reflexivity|].
  intros j Hj. specialize (H j Hj). unfold occursAt in H.
  now destruct (starts openTag _).
Qed.

(** X6: text after an opening delimiter that is never closed does not
    come out.  When the whole stream is [a ++ "<think>" ++ b], with the
    first opening delimiter at the end of [a] and no closing delimiter
    in [b], then however the stream is cut into chunks the consumer
    receives exactly [a], and the processor ends inside the span. *)
Theorem open_span_hides_rest (chunks : list str) (a b : str) :
  concat chunks = a ++ openTag ++ b ->
  firstAt openTag (concat chunks) (length a) ->
  includes b closeTag = false ->
  filter chunks = a
  /\ isThinking (snd (feed (new false) chunks)) = true.
Proof.
  intros E Ho Hb. rewrite E in Ho.
  assert (F : find_first closeTag b = None).
  { unfold includes in Hb. now destruct (find_first closeTag b). }
  destruct (feed_spec chunks (new false) plain_new) as (out & st & Ef & P & H).
  unfold filter. rewrite Ef. cbn [fst snd].
  rewrite (finalize_plain st P). cbn [fst text]. rewrite app_nil_r, text_map.
  pose proof (H []) as H0. pose proof (H [ "a"%char ]) as H1.
  cbn [isThinking buffer new app] in H0, H1. rewrite !app_nil_r in H0.
  rewrite E in H0, H1. rewrite <- !app_assoc in H1.
  rewrite strip_until_open, (hidden_all b F), app_nil_r in H0 by exact Ho.
  rewrite strip_until_open in H1.
  2:{ destruct Ho as [Ho1 Ho2]. split.
      - unfold occursAt. rewrite skipn_app, skipn_all, Nat.sub_diag.
        cbn [app skipn]. apply starts_app.
      - intros j Hj Hc. apply (Ho2 j Hj). unfold occursAt in *.
        rewrite app_assoc, occursAt_app in Hc
          by (rewrite length_app; change (length openTag) with 7%nat; lia).
        rewrite app_assoc, occursAt_app
          by (rewrite length_app; change (length openTag) with 7%nat; lia).
        exact Hc. }
  rewrite (hidden_to_the_end b _ F) in H1 by discriminate.
  rewrite app_nil_r in H1.
  destruct (isThinking st) eqn:T.
  - split; [|reflexivity]. destruct P as [_ L]. rewrite T in L.
    rewrite hidden_all in H0; [now rewrite app_nil_r in H0|].
    destruct (find_first closeTag (buffer st)) as [i|] eqn:G; [|reflexivity].
    apply find_first_some in G as [G _]. apply occursAt_bound in G.
    change (length closeTag) with 8%nat in G. cbn [holds] in L. lia.
  - exfalso.
    assert (S0 : strip false 0 (buffer st) = buffer st).
    { pose proof (strip_withheld st P) as W.
      unfold withheld in W. now rewrite T in W. }
    destruct P as [_ L]. rewrite T in L. cbn [holds] in L.
    rewrite short_no_open in H1 by (assumption || discriminate).
    rewrite S0 in H0. rewrite app_assoc, H0 in H1.
    apply (f_equal (@length _)) in H1. rewrite length_app in H1.
    cbn in H1. lia.
Qed.

Lemma open_span_hides_rest_witness :
  let chunks := [lit "<p>x</p><th"; lit "ink>so </thi"; lit "nk ... <b>"] in
  (concat chunks = lit "<p>x</p>" ++ openTag ++ lit "so </think ... <b>"
   /\ firstAt openTag (concat chunks) 8
   /\ includes (lit "so </think ... <b>") closeTag = false)
  /\ filter chunks = lit "<p>x</p>".
Proof.
  cbv zeta.
  assert (Ho : firstAt openTag
                 (concat [lit "<p>x</p><th"; lit "ink>so </thi";
                          lit "nk ... <b>"]) 8).
  { apply find_first_some. reflexivity. }
  split; [repeat split; apply Ho|].
  exact (proj1 (open_span_hides_rest
                  [lit "<p>x</p><th"; lit "ink>so </thi"; lit "nk ... <b>"]
                  (lit "<p>x</p>") (lit "so </think ... <b>")
                  eq_refl Ho eq_refl)).
Defined.

(** *** A processor built to extract code blocks *)

Lemma process_extract (st : state) (p : CodeBlockParser.state) (c : str) :
  extractCodeBlock st = true -> codeBlockParser st = Some p ->
  buffer st = [] ->
  fst (process st c) = repeat ParserGenerator (length (List.filter nonEmptyb [c]))
  /\ extractCodeBlock (snd (process st c)) = true
  /\ codeBlockParser (snd (process st c)) = Some p
  /\ buffer (snd (process st c)) = []
  /\ codeBlockBuffer (snd (process st c)) = codeBlockBuffer st ++ c.
Proof.
  intros He Hp Hb. destruct c as [|a c].
  { cbn. rewrite app_nil_r. now repeat split. }
  cbn [process]. rewrite He, Hp, Hb. cbn. now repeat split.
Qed.

Lemma feed_extract (chunks : list str) :
  forall st p,
    extractCodeBlock st = true -> codeBlockParser st = Some p ->
    buffer st = [] ->
    fst (feed st chunks)
    = repeat ParserGenerator (length (List.filter nonEmptyb chunks))
    /\ codeBlockParser (snd (feed st chunks)) = Some p
    /\ extractCodeBlock (snd (feed st chunks)) = true
    /\ codeBlockBuffer (snd (feed st chunks))
       = codeBlockBuffer st ++ concat chunks.
Proof.
  induction chunks as [|c chunks IH]; intros st p He Hp Hb.
  { cbn. rewrite app_nil_r. now repeat split. }
  destruct (process_extract st p c He Hp Hb) as (A & B & C & D & E).
  cbn [feed]. destruct (process st c) as [o st1]. cbn [fst snd] in *.
  destruct (IH st1 p B C D) as (I1 & I2 & I3 & I4).
  destruct (feed st1 chunks) as [[|f fs] st2]; cbn [fst snd] in *;
    rewrite ?I4, ?E, <- ?app_assoc; (split; [|now repeat split]).
  - rewrite app_nil_r, A. cbn [List.filter].
    destruct (nonEmptyb c); cbn [length repeat app] in *;
      now rewrite <- ?I1.
  - rewrite A, I1. cbn [List.filter].
    destruct (nonEmptyb c); cbn [length repeat app]; reflexivity.
Qed.

Lemma text_generators (n : nat) : text (repeat ParserGenerator n) = [].
Proof. induction n; [reflexivity|exact IHn]. Qed.

(** X7: a processor built with [extractCodeBlock] set never yields
    text.  Each non-empty chunk makes [process] yield one generator
    object of the inner parser, which is never run: the inner parser
    stays as constructed, the chunks only pile up in [codeBlockBuffer],
    and [finalize] yields one more generator object. *)
Theorem extract_mode_yields_no_text (chunks : list str) :
  fst (feed (new true) chunks)
  = repeat ParserGenerator (length (List.filter nonEmptyb chunks))
  /\ text (fst (feed (new true) chunks)) = []
  /\ codeBlockParser (snd (feed (new true) chunks))
     = Some CodeBlockParser.init
  /\ codeBlockBuffer (snd (feed (new true) chunks)) = concat chunks
  /\ fst (finalize (snd (feed (new true) chunks))) = [ParserGenerator].
Proof.
  destruct (feed_extract chunks (new true) CodeBlockParser.init
              eq_refl eq_refl eq_refl) as (A & B & C & D).
  repeat split; try assumption.
  - rewrite A. apply text_generators.
  - unfold finalize. now rewrite B, C.
Qed.

(** *** reset *)

Lemma process_keeps_mode (st : state) (c : str) :
  extractCodeBlock (snd (process st c)) = extractCodeBlock st
  /\ codeBlockParser (snd (process st c)) = codeBlockParser st.
Proof.
  destruct c as [|a c]; [now split|]. cbn [process].
  destruct (extractCodeBlock st && _); [now split|].
  destruct (scan _ _ _ _) as [[[out t] b]|]; now split.
Qed.

Lemma feed_keeps_mode (chunks : list str) :
  forall st,
    extractCodeBlock (snd (feed st chunks)) = extractCodeBlock st
    /\ codeBlockParser (snd (feed st chunks)) = codeBlockParser st.
Proof.
  induction chunks as [|c chunks IH]; intros st; [now split|].
  cbn [feed]. pose proof (process_keeps_mode st c) as [P1 P2].
  destruct (process st c) as [o st1]. cbn [snd] in *.
  destruct (IH st1) as [I1 I2]. destruct (feed st1 chunks) as [os st2].
  cbn [snd] in *. split; congruence.
Qed.

(** X8: [reset] brings a processor back to the state its constructor
    gave it, in either mode and whatever it has been fed since. *)
Theorem reset_restores_constructor (extract : bool) (chunks : list str) :
  resetProcessor (snd (feed (new extract) chunks)) = new extract.
Proof.
  destruct (feed_keeps_mode chunks (new extract)) as [E P].
  unfold resetProcessor. rewrite E, P. now destruct extract.
Qed.

End FilterMore.

(** ** The stages of a response, beyond the claims *)

Module StageMore.
Import Spec Inv JSFacts ModelManager Server.
Import ModelManagerFacts ServerFacts PipelineFacts ParserMore.

Lemma yieldUntil_all (out : list str) : yieldUntil false out = (out, false).
Proof.
  induction out as [|f out IH]; [reflexivity|].
  cbn [yieldUntil]. now rewrite IH.
Qed.

(** The loop over the clean chunks is the parser fed with them: the
    [return] of line 82 is never reached. *)
Lemma overClean_feed (clean : list str) :
  forall cb,
    overClean cb clean
    = (fst (fst (CodeBlockParser.feed cb clean)),
       snd (CodeBlockParser.feed cb clean), false).
Proof.
  induction clean as [|c clean IH]; intros cb; [reflexivity|].
  cbn [overClean CodeBlockParser.feed].
  assert (Y : yieldUntil (CodeBlockParser.codeBlockComplete cb)
                (fst (CodeBlockParser.processChunk cb c))
              = (fst (CodeBlockParser.processChunk cb c), false)).
  { destruct (CodeBlockParser.codeBlockComplete cb) eqn:F.
    - destruct (processChunk_complete cb c F) as [E _]. now rewrite E.
    - apply yieldUntil_all. }
  destruct (CodeBlockParser.processChunk cb c) as [out cb1].
  cbn [fst] in Y. rewrite Y, (IH cb1).
  now destruct (CodeBlockParser.feed cb1 clean) as [[os fl] cb2].
Qed.

Lemma overRaw_feed (raw : list str) (fail : option str) :
  forall sp cb,
    overRaw sp cb raw fail
    = let fed := CodeBlockParser.feed cb
                   (map coerce (fst (StreamProcessor.feed sp raw))) in
      mkStream
        (fst (fst fed)
         ++ match fail with
            | Some _ => []
            | None => fst (CodeBlockParser.finalize (snd fed))
            end)
        fail.
Proof.
  induction raw as [|r raw IH]; intros sp cb; cbv zeta.
  - cbn. now destruct fail.
  - cbn [overRaw StreamProcessor.feed].
    destruct (StreamProcessor.process sp r) as [clean sp1].
    rewrite overClean_feed, (IH sp1). cbv zeta.
    destruct (StreamProcessor.feed sp1 raw) as [outs sp2]. cbn [fst snd].
    rewrite map_app, CodeBlockParserFacts.feed_app.
    destruct (CodeBlockParser.feed cb (map coerce clean)) as [[o1 f1] cb1].
    cbn [fst snd].
    destruct (CodeBlockParser.feed cb1 (map coerce outs)) as [[o2 f2] cb2].
    unfold prepend. cbn [fst snd items failure]. now rewrite app_assoc.
Qed.

(** X9: [streamCodeBlock] is the fence extractor run over what the tag
    filter yields for the raw chunks.  The provider's stream is always
    read to its end, so its error is the error of the result; when it
    ends without error the fragment of [finalize] follows, and when it
    fails the text the parser still holds is not yielded. *)
Theorem streamCodeBlock_composes (s : stream str) :
  streamCodeBlock s
  = let fed :=
      CodeBlockParser.feed CodeBlockParser.init
        (map coerce
             (fst (StreamProcessor.feed (StreamProcessor.new false)
                                        (items s)))) in
    mkStream
      (fst (fst fed)
       ++ match failure s with
          | Some _ => []
          | None => fst (CodeBlockParser.finalize (snd fed))
          end)
      (failure s).
Proof. apply overRaw_feed. Qed.

(** *** Fragments are never empty *)

Lemma streamCodeBlock_filled (s : stream str) :
  Forall (fun f => f <> []) (items (streamCodeBlock s)).
Proof.
  unfold streamCodeBlock. rewrite overRaw_feed. cbv zeta. cbn [items].
  apply Forall_app. split; [apply feed_filled|].
  destruct (failure s); [constructor|apply finalize_filled].
Qed.

Lemma sentinelLoop_filled (chunks : list str) :
  forall first buf,
    Forall (fun f => f <> []) chunks ->
    Forall (fun f => f <> []) (yielded (sentinelLoop first buf chunks)).
Proof.
  induction chunks as [|c chunks IH]; intros first buf H; [constructor|].
  inversion H as [|? ? Hc Hr]; subst. cbn [sentinelLoop].
  destruct first.
  - cbv zeta. destruct (startsWith NO_CHANGE (trim (buf ++ c))).
    + destruct (str_eqb _ NO_CHANGE); [constructor|now apply IH].
    + cbn [yieldFirst yielded]. constructor; [|now apply IH].
      intros E. apply app_eq_nil in E as [_ E]. contradiction.
  - cbn [yieldFirst yielded]. constructor; [exact Hc|now apply IH].
Qed.

Lemma processStep_filled (existing : str) (s : stream str) :
  Forall (fun f => f <> []) (items s) ->
  Forall (fun f => f <> []) (items (processStep existing s)).
Proof.
  intros H. destruct existing as [|a P]; [exact H|].
  cbn [processStep]. cbv zeta.
  pose proof (sentinelLoop_filled (items s) true [] H) as Y.
  assert (P1 : Forall (fun f : str => f <> []) [a :: P]).
  { constructor; [discriminate|constructor]. }
  destruct (reverted _); [apply Forall_app; now split|].
  destruct (failure s); [exact Y|].
  destruct (firstChunk _); cbn [andb]; [|exact Y].
  destruct (Z.ltb_spec 0 (len (buffer (sentinelLoop true [] (items s)))))
    as [L|_]; [|exact Y].
  destruct (str_eqb _ NO_CHANGE); cbn [items]; apply Forall_app;
    (split; [exact Y|]); [exact P1|].
  constructor; [|constructor]. intros E. rewrite E in L. cbn in L. lia.
Qed.

Lemma runStage_filled (p : provider) (model : option str) (t : stage)
    (context existing : str) :
  exists fs,
    Forall (fun f => f <> []) fs
    /\ fst (fst (runStage p model t context existing)) = stageEvents t fs
    /\ snd (fst (runStage p model t context existing)) = concat fs.
Proof.
  unfold runStage. cbv zeta.
  set (s := processStep existing
              (streamCodeBlock (p model t context existing))).
  exists (items s). split.
  - apply processStep_filled, streamCodeBlock_filled.
  - unfold stageEvents. pose proof (accumulate_final t (items s) []) as F.
    destruct (accumulate t [] (items s)) as [evs final]. cbn [fst snd] in *.
    now split.
Qed.

(** X10: whatever the providers do, the progress events of a response
    come stage by stage, html first, then css, then js, and within a
    stage every event adds at least one code unit to the content of
    the one before: the events are those of three lists of non-empty
    fragments. *)
Theorem response_shape (providers : str -> option provider)
    (modelString : str) (currentCodeMap : option codeMap) :
  exists f1 f2 f3,
    Forall (fun f => f <> []) (f1 ++ f2 ++ f3)
    /\ items (streamResponse providers modelString currentCodeMap)
       = stageEvents html f1 ++ stageEvents css f2 ++ stageEvents js f3.
Proof.
  unfold streamResponse.
  destruct (parseModelString modelString) as [pm|msg].
  2:{ exists [], [], []. split; [constructor|reflexivity]. }
  destruct (getProvider providers (providerName pm)) as [p|].
  2:{ exists [], [], []. split; [constructor|reflexivity]. }
  cbv zeta.
  destruct (runStage_filled p (modelName pm) html []
              (existingOf code_html currentCodeMap)) as (f1 & F1 & E1 & C1).
  destruct (runStage p (modelName pm) html [] _) as [[ev1 c1] [e|]];
    cbn [fst snd] in *.
  { exists f1, [], []. rewrite !app_nil_r. split; [exact F1|].
    cbn [items]. now rewrite E1. }
  destruct (runStage_filled p (modelName pm) css c1
              (existingOf code_css currentCodeMap)) as (f2 & F2 & E2 & C2).
  destruct (runStage p (modelName pm) css c1 _) as [[ev2 c2] [e|]];
    cbn [fst snd] in *.
  { exists f1, f2, []. rewrite !app_nil_r.
    split; [apply Forall_app; now split|]. cbn [items]. now rewrite E1, E2. }
  destruct (runStage_filled p (modelName pm) js (jsContext c1 c2)
              (existingOf code_js currentCodeMap)) as (f3 & F3 & E3 & C3).
  destruct (runStage p (modelName pm) js (jsContext c1 c2) _)
    as [[ev3 c3] f]; cbn [fst snd] in *.
  exists f1, f2, f3.
  split; [repeat (apply Forall_app; split); assumption|].
  cbn [items]. now rewrite E1, E2, E3.
Qed.

(** *** The sentinel still being awaited *)

(** X11: while [processStep] is holding back text that may still become
    the sentinel, the way the stream ends decides what happens to it.
    For prior code and chunks that make up a non-empty strict prefix of
    the sentinel: when the stream ends normally the held text comes out
    as one fragment, and when the stream fails the held text is lost
    and only the error comes out. *)
Theorem held_text_at_stream_end (P : str) (chunks : list str) :
  P <> [] -> strictPrefix (concat chunks) NO_CHANGE ->
  processStep P (mkStream chunks None) = mkStream [concat chunks] None
  /\ forall e,
       processStep P (mkStream chunks (Some e)) = mkStream [] (Some e).
Proof.
  intros HP [Hn (r & Hr & E)].
  assert (L : sentinelLoop true [] chunks
              = mkExit [] true (concat chunks) false).
  { rewrite <- (app_nil_r chunks) at 1.
    rewrite (sentinelLoop_buffers chunks [] [] r Hr); [reflexivity|].
    exact E. }
  assert (T : str_eqb (trim (concat chunks)) NO_CHANGE = false).
  { assert (K : concat chunks = firstn (length (concat chunks)) NO_CHANGE).
    { rewrite E. now rewrite firstn_own. }
    rewrite K. apply trim_prefix.
    apply (f_equal (@length _)) in E. rewrite length_app in E.
    change (length NO_CHANGE) with 11%nat in E.
    destruct r; [contradiction|]. cbn [length] in E. lia. }
  destruct P as [|a P]; [contradiction|]. cbn [processStep]. cbv zeta.
  cbn [items failure]. rewrite L. cbn [reverted yielded firstChunk buffer].
  split; [|reflexivity]. rewrite T.
  destruct (concat chunks) as [|c cs]; [contradiction|]. reflexivity.
Qed.

Lemma held_text_at_stream_end_witness :
  let P := lit "<p>old</p>" in
  let chunks := [lit "[N"; lit "O CH"] in
  (P <> [] /\ strictPrefix (concat chunks) NO_CHANGE)
  /\ processStep P (mkStream chunks (Some (lit "reset")))
     = mkStream [] (Some (lit "reset")).
Proof.
  cbv zeta.
  assert (H1 : lit "<p>old</p>" <> []) by discriminate.
  assert (H2 : strictPrefix (concat [lit "[N"; lit "O CH"]) NO_CHANGE).
  { split; [discriminate|]. exists (lit "ANGE]").
    split; [discriminate|reflexivity]. }
  split; [split; assumption|].
  exact (proj2 (held_text_at_stream_end (lit "<p>old</p>")
                  [lit "[N"; lit "O CH"] H1 H2) (lit "reset")).
Defined.

(** *** Identifiers that name no provider *)

Lemma includes_slash (a r : str) :
  ~ In slash a -> includes (a ++ slash :: r) [slash] = true.
Proof. intros H. unfold includes. now rewrite (find_slash_some a r H). Qed.

Lemma includes_no_slash (a : str) :
  ~ In slash a -> includes a [slash] = false.
Proof. intros H. unfold includes. now rewrite (find_slash_none a H). Qed.

(** X12: a model identifier that names no configured provider costs
    its model exactly one record, the error.  Without a slash the
    message is that of [parseModelString]; with a slash after a name
    that is not configured, it names the part before the first slash.
    In both cases no provider is called and no data record is
    written. *)
Theorem unknown_provider_single_error (providers : str -> option provider)
    (contextMap : str -> option codeMap) (a : str) :
  ~ In slash a -> providers a = None ->
  taskOf providers contextMap a
  = [Error a (lit "Invalid model format. Expected 'Provider/Model'")]
  /\ forall r,
       taskOf providers contextMap (a ++ slash :: r)
       = [Error (a ++ slash :: r)
                (lit "Provider '" ++ a ++ lit "' not found")].
Proof.
  intros Ha Hp. split.
  - unfold taskOf, streamResponse, parseModelString.
    now rewrite (includes_no_slash a Ha).
  - intros r. unfold taskOf, streamResponse, parseModelString.
    rewrite (includes_slash a r Ha), (split_at_slash a r Ha).
    cbn [nth_error providerName getProvider]. rewrite Hp. reflexivity.
Qed.

Lemma unknown_provider_single_error_witness :
  (~ In slash (lit "Z") /\ twoProviders (lit "Z") = None)
  /\ taskOf twoProviders (fun _ => None) (lit "Z/m")
     = [Error (lit "Z/m") (lit "Provider 'Z' not found")].
Proof.
  assert (H : ~ In slash (lit "Z")).
  { intros [E|[]]. discriminate. }
  split; [split; [exact H|reflexivity]|].
  exact (proj2 (unknown_provider_single_error twoProviders (fun _ => None)
                  (lit "Z") H eq_refl) (lit "m")).
Defined.

(** *** Every way a stage with prior code can end *)

Lemma sentinelLoop_first (chunks : list str) :
  forall buf,
    let e := sentinelLoop true buf chunks in
    (reverted e = true -> yielded e = [])
    /\ (reverted e = false -> firstChunk e = true ->
        yielded e = [] /\ buffer e = buf ++ concat chunks
        /\ (str_eqb (trim buf) NO_CHANGE = false ->
            str_eqb (trim (buffer e)) NO_CHANGE = false))
    /\ (reverted e = false -> firstChunk e = false ->
        concat (yielded e) = buf ++ concat chunks).
Proof.
  induction chunks as [|c chunks IH]; intros buf; cbv zeta.
  - cbn. rewrite app_nil_r. repeat split; try discriminate; auto.
  - cbn [sentinelLoop concat]. cbv zeta.
    destruct (startsWith NO_CHANGE (trim (buf ++ c))).
    + destruct (str_eqb (trim (buf ++ c)) NO_CHANGE) eqn:Q.
      * cbn. repeat split; discriminate.
      * destruct (IH (buf ++ c)) as (A & B & C). cbv zeta in A, B, C.
        rewrite <- app_assoc in B, C.
        split; [exact A|]. split; [|exact C].
        intros R F. destruct (B R F) as (B1 & B2 & B3).
        repeat split; auto.
    + rewrite sentinelLoop_passes. cbn [yieldFirst reverted firstChunk yielded].
      repeat split; try discriminate.
      cbn [concat]. now rewrite app_assoc.
Qed.

(** X13: the second test for the sentinel, made once the stream has
    ended (line 174), never succeeds.  Whenever the loop is left
    without a [break] and without having yielded, the text held back
    is not the sentinel: had it been, the loop would have been left by
    the [break] on the chunk that completed it. *)
Theorem sentinel_recheck_never_succeeds (chunks : list str) :
  reverted (sentinelLoop true [] chunks) = false ->
  firstChunk (sentinelLoop true [] chunks) = true ->
  str_eqb (trim (buffer (sentinelLoop true [] chunks))) NO_CHANGE = false.
Proof.
  intros R F.
  destruct (sentinelLoop_first chunks []) as (_ & B & _). cbv zeta in B.
  destruct (B R F) as (_ & _ & B3). now apply B3.
Qed.

Lemma sentinel_recheck_never_succeeds_witness :
  let chunks := [lit " [NO"; lit " CHANGE"] in
  (reverted (sentinelLoop true [] chunks) = false
   /\ firstChunk (sentinelLoop true [] chunks) = true)
  /\ str_eqb (trim (buffer (sentinelLoop true [] chunks))) NO_CHANGE = false.
Proof.
  cbv zeta. split; [repeat split|].
  exact (sentinel_recheck_never_succeeds [lit " [NO"; lit " CHANGE"]
           eq_refl eq_refl).
Defined.

Lemma reaches_next (buf c : str) (chunks : list str) :
  (exists k, trim ((buf ++ c) ++ concat (firstn k chunks)) = NO_CHANGE) ->
  exists k, trim (buf ++ concat (firstn k (c :: chunks))) = NO_CHANGE.
Proof.
  intros [k E]. exists (S k). cbn [firstn concat]. now rewrite app_assoc.
Qed.

Lemma reaches_later (buf c : str) (chunks : list str) :
  awaits buf ->
  (exists k, trim (buf ++ concat (firstn k (c :: chunks))) = NO_CHANGE) ->
  exists k, trim ((buf ++ c) ++ concat (firstn k chunks)) = NO_CHANGE.
Proof.
  intros H [[|k] E].
  - exfalso. cbn [firstn concat] in E. rewrite app_nil_r in E.
    destruct (awaits_test buf H) as [_ Q]. rewrite E in Q.
    now rewrite str_eqb_refl in Q.
  - exists k. cbn [firstn concat] in E. now rewrite <- app_assoc.
Qed.

(** What the exit of the loop says about the fragments it was given:
    it is left by [break] when some run of them makes up the sentinel,
    without a yield when all of them may still become it, and after a
    yield otherwise. *)
Lemma sentinelLoop_cases (chunks : list str) :
  forall buf,
    awaits buf ->
    let e := sentinelLoop true buf chunks in
    (reverted e = true ->
     (exists k, trim (buf ++ concat (firstn k chunks)) = NO_CHANGE)
     /\ yielded e = [])
    /\ (reverted e = false ->
        ~ (exists k, trim (buf ++ concat (firstn k chunks)) = NO_CHANGE)
        /\ (firstChunk e = true ->
            awaits (buf ++ concat chunks)
            /\ yielded e = [] /\ buffer e = buf ++ concat chunks)
        /\ (firstChunk e = false ->
            ~ awaits (buf ++ concat chunks)
            /\ concat (yielded e) = buf ++ concat chunks)).
Proof.
  induction chunks as [|c chunks IH]; intros buf H; cbv zeta.
  - cbn [sentinelLoop reverted firstChunk yielded buffer concat].
    rewrite app_nil_r. split; [discriminate|]. intros _. split.
    + intros [k E]. rewrite firstn_nil in E. cbn [concat] in E.
      rewrite app_nil_r in E. destruct (awaits_test buf H) as [_ Q].
      rewrite E in Q. now rewrite str_eqb_refl in Q.
    + split; [now intros _|discriminate].
  - cbn [sentinelLoop concat]. cbv zeta.
    destruct (startsWith NO_CHANGE (trim (buf ++ c))) eqn:S.
    + destruct (str_eqb (trim (buf ++ c)) NO_CHANGE) eqn:Q.
      * cbn [reverted yielded]. split; [|discriminate]. intros _.
        split; [|reflexivity]. exists 1%nat. cbn [firstn concat].
        rewrite app_nil_r. now apply str_eqb_eq.
      * pose proof (test_awaits _ S Q) as H1.
        destruct (IH (buf ++ c) H1) as [A B]. cbv zeta in A, B.
        rewrite <- app_assoc in B. split.
        -- intros R. destruct (A R) as [A1 A2].
           split; [now apply reaches_next|exact A2].
        -- intros R. destruct (B R) as (B1 & B2 & B3).
           split; [|now split].
           intros N. apply B1. now apply reaches_later.
    + rewrite sentinelLoop_passes.
      cbn [yieldFirst reverted firstChunk yielded concat].
      split; [discriminate|]. intros _.
      assert (N : forall r, ~ awaits ((buf ++ c) ++ r)).
      { intros r W. apply awaits_before in W.
        destruct (awaits_test _ W) as [T _]. congruence. }
      split; [|split; [discriminate|]].
      * intros N1. apply (reaches_later buf c chunks H) in N1 as [k E].
        destruct (trim_grows (buf ++ c) (concat (firstn k chunks)))
          as (t & T).
        rewrite E in T. unfold startsWith in S. rewrite T in S.
        now rewrite starts_app in S.
      * intros _. split; [|now rewrite app_assoc].
        rewrite app_assoc. apply N.
Qed.

Lemma awaits_nothing : awaits [].
Proof. exists NO_CHANGE. split; [discriminate|reflexivity]. Qed.

(** X14: with prior code, exactly one of three cases applies, and the
    fragments alone decide which.  When some initial run of the
    fragments, taken together and trimmed, is the sentinel, only the
    prior code is yielded, without error, whatever follows that run.
    When no run is and all the fragments together may still become the
    sentinel, the text was held back to the end: a normal end yields it
    as one fragment (nothing when it is empty), a failure yields only
    the error.  In every other case what is yielded makes up, taken
    together, what was received, and the error, if any, is that of the
    stream. *)
Theorem processStep_outcomes (P : str) (s : stream str) :
  P <> [] ->
  (reaches (items s) /\ processStep P s = mkStream [P] None)
  \/ (~ reaches (items s) /\ awaits (concat (items s))
      /\ processStep P s
         = match failure s with
           | Some e => mkStream [] (Some e)
           | None =>
               mkStream match concat (items s) with
                        | [] => []
                        | _ :: _ => [concat (items s)]
                        end None
           end)
  \/ (~ reaches (items s) /\ ~ awaits (concat (items s))
      /\ concat (items (processStep P s)) = concat (items s)
      /\ failure (processStep P s) = failure s).
Proof.
  intros HP. destruct P as [|a P]; [contradiction|].
  cbn [processStep]. cbv zeta. unfold reaches.
  destruct (sentinelLoop_cases (items s) [] awaits_nothing) as [A B].
  cbv zeta in A, B. cbn [app] in A, B.
  destruct (reverted (sentinelLoop true [] (items s))) eqn:R.
  { left. destruct (A eq_refl) as [A1 A2]. split; [exact A1|].
    now rewrite A2. }
  destruct (B eq_refl) as (N & B1 & B2). right.
  destruct (firstChunk (sentinelLoop true [] (items s))) eqn:F.
  - left. destruct (B1 eq_refl) as (W & Y & E).
    split; [exact N|]. split; [exact W|]. rewrite Y, E.
    destruct (failure s) as [e|]; [reflexivity|]. cbn [andb].
    destruct (concat (items s)) as [|c t] eqn:T; [reflexivity|].
    change (0 <? len (c :: t)) with true. cbv iota.
    destruct (awaits_test _ W) as [_ Q]. now rewrite Q.
  - right. destruct (B2 eq_refl) as [W Y].
    split; [exact N|]. split; [exact W|].
    destruct (failure s); cbn [andb items failure]; now split.
Qed.

Lemma processStep_outcomes_witness :
  let P := lit "x" in
  let s := mkStream [lit "x"] None in
  P <> []
  /\ ((reaches (items s) /\ processStep P s = mkStream [P] None)
      \/ (~ reaches (items s) /\ awaits (concat (items s))
          /\ processStep P s
             = match failure s with
               | Some e => mkStream [] (Some e)
               | None =>
                   mkStream match concat (items s) with
                            | [] => []
                            | _ :: _ => [concat (items s)]
                            end None
               end)
      \/ (~ reaches (items s) /\ ~ awaits (concat (items s))
          /\ concat (items (processStep P s)) = concat (items s)
          /\ failure (processStep P s) = failure s)).
Proof.
  cbv zeta. split; [discriminate|].
  exact (processStep_outcomes (lit "x") (mkStream [lit "x"] None)
           ltac:(discriminate)).
Defined.

(** *** A response without code *)

Lemma silent_stage (p : provider) (model : option str) (t : stage)
    (context existing : str) :
  failure (p model t context existing) = None ->
  Forall clean (items (p model t context existing)) ->
  runStage p model t context existing = ([], [], None).
Proof.
  intros F H. destruct (p model t context existing) as [raw fl] eqn:E.
  cbn [failure items] in F, H. subst fl.
  now apply (no_backtick_stage_empty p model t context existing raw).
Qed.

(** X15: a model that answers every stage without a backtick and
    without error leaves no trace but the record that it is done: no
    data record is written for it and no error, so its tab stays
    empty. *)
Theorem prose_only_response_is_silent (providers : str -> option provider)
    (contextMap : str -> option codeMap) (name model : str) (p : provider) :
  ~ In slash name -> ~ In slash model -> providers name = Some p ->
  (forall t context existing,
     failure (p (Some model) t context existing) = None
     /\ Forall clean (items (p (Some model) t context existing))) ->
  taskOf providers contextMap (name ++ slash :: model)
  = [Done (name ++ slash :: model)].
Proof.
  intros Hn Hm Hp H.
  unfold taskOf, streamResponse, parseModelString.
  rewrite (includes_slash name model Hn), (split_at_slash name model Hn).
  rewrite (split_plain model Hm).
  cbn [nth_error providerName modelName getProvider]. rewrite Hp. cbv zeta.
  rewrite !silent_stage by apply H. reflexivity.
Qed.

Lemma prose_only_response_is_silent_witness :
  let p : provider :=
    fun _ _ _ _ => mkStream [lit "I can not "; lit "do that."] None in
  let providers (n : str) := if str_eqb n (lit "P") then Some p else None in
  (~ In slash (lit "P") /\ ~ In slash (lit "m")
   /\ providers (lit "P") = Some p
   /\ forall t context existing,
        failure (p (Some (lit "m")) t context existing) = None
        /\ Forall clean (items (p (Some (lit "m")) t context existing)))
  /\ taskOf providers (fun _ => None) (lit "P/m") = [Done (lit "P/m")].
Proof.
  cbv zeta.
  assert (H1 : ~ In slash (lit "P")).
  { intros [E|[]]. discriminate. }
  assert (H2 : ~ In slash (lit "m")).
  { intros [E|[]]. discriminate. }
  assert (H3 : forall (t : stage) (context existing : str),
             failure (mkStream [lit "I can not "; lit "do that."] None) = None
             /\ Forall clean
                  (items (mkStream [lit "I can not "; lit "do that."] None))).
  { intros _ _ _. split; [reflexivity|].
    repeat constructor; discriminate. }
  split; [repeat split; try assumption; apply H3; assumption|].
  exact (prose_only_response_is_silent
           (fun n => if str_eqb n (lit "P")
                     then Some (fun _ _ _ _ =>
                                  mkStream [lit "I can not "; lit "do that."]
                                           None)
                     else None)
           (fun _ => None) (lit "P") (lit "m")
           (fun _ _ _ _ => mkStream [lit "I can not "; lit "do that."] None)
           H1 H2 eq_refl H3).
Defined.

End StageMore.

(** ** From the handler to the page *)

Module PageMore.
Import Spec Inv JSFacts ModelManager Server Client More.
Import CodeBlockParserFacts ModelManagerFacts ServerFacts.

(** *** What the handler writes for a model *)

Lemma rawOf_app (a b : list sse) : rawOf (a ++ b) = rawOf a ++ rawOf b.
Proof.
  induction a as [|[m d|m|m e|] a IH]; cbn [app rawOf]; [reflexivity| |assumption..].
  now rewrite IH, app_assoc.
Qed.

Lemma rawOf_data (m : str) (ds : list str) :
  rawOf (map (Data m) ds) = concat ds.
Proof. induction ds as [|d ds IH]; [reflexivity|]. cbn. now rewrite IH. Qed.

Lemma writeLoop_app (m : str) (e1 e2 : list progress) :
  forall c,
    writeLoop m c (e1 ++ e2)
    = (fst (writeLoop m c e1)
       ++ fst (writeLoop m (snd (writeLoop m c e1)) e2),
       snd (writeLoop m (snd (writeLoop m c e1)) e2)).
Proof.
  induction e1 as [|x e1 IH]; intros c.
  - cbn [app writeLoop fst snd]. now destruct (writeLoop m c e2).
  - cbn [app writeLoop]. cbv zeta.
    destruct (negb (sameType c (type x))).
    + rewrite IH.
      destruct (writeLoop m (mkCursor (Some (type x)) (content x)) e1)
        as [w1 c1]. cbn [fst snd].
      destruct (writeLoop m c1 e2) as [w2 c2]. cbn [fst snd].
      now rewrite <- app_assoc.
    + destruct (len _ >? 0).
      * rewrite IH.
        destruct (writeLoop m (mkCursor (currentType c) (content x)) e1)
          as [w1 c1]. cbn [fst snd].
        now destruct (writeLoop m c1 e2) as [w2 c2].
      * apply IH.
Qed.

(** The cursor after a stage, and the text written for it: nothing for
    a stage without fragments, otherwise the closing marker of the
    block that was open, the marker of the stage and its content. *)
Lemma stage_written (m : str) (t : stage) (c : cursor) (fs : list str) :
  sameType c t = false ->
  rawOf (fst (writeLoop m c (stageEvents t fs)))
  = match fs with
    | [] => []
    | _ => rawOf (closing m c) ++ marker t ++ concat fs
    end
  /\ snd (writeLoop m c (stageEvents t fs))
     = match fs with
       | [] => c
       | _ => mkCursor (Some t) (concat fs)
       end.
Proof.
  intros Hs. destruct fs as [|f fs]; [now split|].
  unfold stageEvents. cbn [accumulate app].
  pose proof (writeLoop_same m t fs f) as W.
  destruct (accumulate t f fs) as [evs final]. cbn [fst snd] in *.
  cbn [writeLoop type content]. rewrite Hs. cbn [negb]. cbv zeta.
  rewrite W. cbn [fst snd]. split; [|reflexivity].
  rewrite rawOf_app. cbn [rawOf]. rewrite rawOf_data, concat_filter_nonEmpty.
  now rewrite <- app_assoc.
Qed.

Lemma frames_raw (m : str) (f1 f2 f3 : list str) (c : cursor) (w : list sse) :
  writeLoop m (mkCursor None [])
            (stageEvents html f1 ++ stageEvents css f2 ++ stageEvents js f3)
  = (w, c) ->
  rawOf (w ++ closing m c)
  = blockOf html f1 ++ blockOf css f2 ++ blockOf js f3
  /\ rawOf w ++ match f1 ++ f2 ++ f3 with [] => [] | _ => closeMarker end
     = blockOf html f1 ++ blockOf css f2 ++ blockOf js f3.
Proof.
  rewrite !writeLoop_app.
  destruct (stage_written m html (mkCursor None []) f1 eq_refl) as [R1 C1].
  set (c1 := snd (writeLoop m (mkCursor None []) (stageEvents html f1))) in *.
  assert (S2 : sameType c1 css = false).
  { rewrite C1. now destruct f1. }
  destruct (stage_written m css c1 f2 S2) as [R2 C2].
  set (c2 := snd (writeLoop m c1 (stageEvents css f2))) in *.
  assert (S3 : sameType c2 js = false).
  { rewrite C2, C1. now destruct f2, f1. }
  destruct (stage_written m js c2 f3 S3) as [R3 C3].
  intros E. injection E as <- <-. fold c1. fold c2.
  rewrite !rawOf_app, R1, R2, R3, C3, C2, C1.
  unfold blockOf, block.
  destruct f1 as [|a1 f1], f2 as [|a2 f2], f3 as [|a3 f3];
    cbn [closing currentType rawOf app];
    rewrite ?app_nil_r, <- ?app_assoc; split; reflexivity.
Qed.

(** X16: what the handler writes for a model whose response succeeds
    is, taken together, the content of each stage between the marker
    of the stage and the closing marker, in the order html, css, js; a
    stage that yielded nothing leaves no block.  When the response
    fails, the same is written except for the last closing marker:
    the block that was open stays open. *)
Theorem handler_frames_stages (m : str) (f1 f2 f3 : list str) :
  rawOf (modelTask m
           (mkStream (stageEvents html f1 ++ stageEvents css f2
                      ++ stageEvents js f3) None))
  = blockOf html f1 ++ blockOf css f2 ++ blockOf js f3
  /\ forall e,
       rawOf (modelTask m
                (mkStream (stageEvents html f1 ++ stageEvents css f2
                           ++ stageEvents js f3) (Some e)))
       ++ match f1 ++ f2 ++ f3 with [] => [] | _ => closeMarker end
       = blockOf html f1 ++ blockOf css f2 ++ blockOf js f3.
Proof.
  unfold modelTask. cbn [items failure].
  destruct (writeLoop m (mkCursor None []) _) as [w c] eqn:E.
  destruct (frames_raw m f1 f2 f3 c w E) as [A B]. split.
  - rewrite app_assoc, rawOf_app. cbn [rawOf]. now rewrite app_nil_r.
  - intros e. rewrite rawOf_app. cbn [rawOf]. now rewrite app_nil_r.
Qed.

(** *** What the page makes of it *)

Lemma sameLetter_tick (x : ascii) :
  sameLetter "`" x = Ascii.eqb "`" x.
Proof. destruct x as [[] [] [] [] [] [] [] []]; reflexivity. Qed.

Lemma sameLetter_refl (x : ascii) : sameLetter x x = true.
Proof. unfold sameLetter. apply Ascii.eqb_refl. Qed.

Lemma startsCI_app (pat r : str) : startsCI pat (pat ++ r) = true.
Proof.
  induction pat as [|p pat IH]; [reflexivity|].
  cbn [app startsCI]. now rewrite sameLetter_refl.
Qed.

Lemma afterCI_step (pat : str) (c : ascii) (s : str) :
  startsCI pat (c :: s) = false -> afterCI pat (c :: s) = afterCI pat s.
Proof. intros H. cbn [afterCI]. now rewrite H. Qed.

Lemma afterCI_hit (pat s : str) :
  startsCI pat s = true -> afterCI pat s = Some (skipn (length pat) s).
Proof. intros H. destruct s; cbn [afterCI]; now rewrite H. Qed.

Lemma before_step (pat : str) (c : ascii) (s : str) :
  starts pat (c :: s) = false ->
  before pat (c :: s) = option_map (cons c) (before pat s).
Proof. intros H. cbn [before]. now rewrite H. Qed.

(** An opening of the page's pattern begins with a fence. *)
Lemma startsCI_fence (lang s : str) :
  startsCI (CodeBlockParser.fence ++ lang) s = true ->
  starts CodeBlockParser.fence s = true.
Proof.
  change (CodeBlockParser.fence ++ lang)
    with ("`"%char :: "`"%char :: "`"%char :: lang).
  change CodeBlockParser.fence with ["`"%char; "`"%char; "`"%char].
  destruct s as [|a [|b [|c s]]]; cbn [startsCI starts];
    rewrite ?sameLetter_tick; intros H;
    try (rewrite ?andb_false_r in H; discriminate).
  apply andb_true_iff in H as [H1 H]. apply andb_true_iff in H as [H2 H].
  apply andb_true_iff in H as [H3 _]. now rewrite H1, H2, H3.
Qed.

(** No fence begins in text without a fence that a line feed follows. *)
Lemma fence_not_across (h r : str) :
  free h -> starts CodeBlockParser.fence (h ++ nl :: r) = false.
Proof.
  intros F. destruct h as [|a [|b [|c h]]].
  - reflexivity.
  - change CodeBlockParser.fence with ["`"%char; "`"%char; "`"%char].
    cbn [app starts]. change (Ascii.eqb "`" nl) with false.
    cbn [andb]. now rewrite andb_false_r.
  - change CodeBlockParser.fence with ["`"%char; "`"%char; "`"%char].
    cbn [app starts]. change (Ascii.eqb "`" nl) with false.
    cbn [andb]. now rewrite !andb_false_r.
  - pose proof (F 0%nat) as F0. cbn [skipn] in F0.
    change (a :: b :: c :: h) with ([a; b; c] ++ h) in *.
    rewrite <- app_assoc. rewrite starts_app_l; [|cbn; lia].
    rewrite starts_app_l in F0; [exact F0|cbn; lia].
Qed.

Lemma free_tail (c : ascii) (h : str) : free (c :: h) -> free h.
Proof. intros F j. exact (F (S j)). Qed.

Lemma afterCI_free (lang h r : str) :
  free h ->
  afterCI (CodeBlockParser.fence ++ lang) (h ++ nl :: r)
  = afterCI (CodeBlockParser.fence ++ lang) r.
Proof.
  intros F. induction h as [|c h IH].
  - now apply afterCI_step.
  - cbn [app]. rewrite afterCI_step; [apply IH, (free_tail c), F|].
    destruct (startsCI _ _) eqn:E; [|reflexivity].
    apply startsCI_fence in E.
    change (c :: h ++ nl :: r) with ((c :: h) ++ nl :: r) in E.
    now rewrite fence_not_across in E.
Qed.

Lemma before_free (h z : str) :
  free h ->
  before CodeBlockParser.fence
         (h ++ nl :: "`"%char :: "`"%char :: "`"%char :: z)
  = Some (h ++ [nl]).
Proof.
  intros F. induction h as [|c h IH].
  - reflexivity.
  - cbn [app]. rewrite before_step.
    + rewrite (IH (free_tail c h F)). reflexivity.
    + change (c :: h ++ nl :: "`"%char :: "`"%char :: "`"%char :: z)
        with ((c :: h) ++ nl :: "`"%char :: "`"%char :: "`"%char :: z).
      now apply fence_not_across.
Qed.

Lemma trim_end_spaces (s ws : str) :
  allSpace ws -> trim (s ++ ws) = trim s.
Proof.
  intros H. unfold trim. induction s as [|c s IH].
  - cbn [app]. now rewrite (trimStart_all ws H).
  - cbn [app trimStart]. destruct (is_space c); [exact IH|].
    change (c :: s ++ ws) with ((c :: s) ++ ws).
    now apply trimEnd_spaces.
Qed.

Lemma trim_line (h : str) : trim (nl :: h ++ [nl]) = trim h.
Proof.
  change (nl :: h ++ [nl]) with ([nl] ++ h ++ [nl]).
  rewrite trim_spaces; [apply trim_end_spaces| |];
    repeat constructor.
Qed.

(** The group the page cuts out for each language, from the text of a
    response with the three blocks. *)
Lemma extract_blocks (h c j : str) :
  free h -> free c -> free j ->
  extract (block html h ++ block css c ++ block js j) (lit "html")
  = Some (trim h)
  /\ extract (block html h ++ block css c ++ block js j) (lit "css")
     = Some (trim c)
  /\ extract (block html h ++ block css c ++ block js j) (lit "js")
     = Some (trim j).
Proof.
  intros Fh Fc Fj.
  assert (E : block html h ++ block css c ++ block js j
              = lit "```html" ++ nl :: h ++ nl :: CodeBlockParser.fence
                ++ lit "```css" ++ nl :: c ++ nl :: CodeBlockParser.fence
                ++ lit "```js" ++ nl :: j ++ nl :: CodeBlockParser.fence ++ []).
  { unfold block, marker, closeMarker. rewrite <- !app_assoc.
    cbn [app]. rewrite !app_nil_r. reflexivity. }
  rewrite E. unfold extract.
  cbn [CodeBlockParser.fence lit list_ascii_of_string app].
  repeat split.
  - rewrite afterCI_hit by reflexivity.
    cbn [skipn length CodeBlockParser.fence lit list_ascii_of_string app].
    rewrite before_step by reflexivity.
    rewrite (before_free h _ Fh). cbn [option_map]. now rewrite trim_line.
  - do 8 (rewrite afterCI_step by reflexivity).
    rewrite (afterCI_free (lit "css") h _ Fh).
    do 3 (rewrite afterCI_step by reflexivity).
    rewrite afterCI_hit by reflexivity.
    cbn [skipn length CodeBlockParser.fence lit list_ascii_of_string app].
    rewrite before_step by reflexivity.
    rewrite (before_free c _ Fc). cbn [option_map]. now rewrite trim_line.
  - do 8 (rewrite afterCI_step by reflexivity).
    rewrite (afterCI_free (lit "js") h _ Fh).
    do 10 (rewrite afterCI_step by reflexivity).
    rewrite (afterCI_free (lit "js") c _ Fc).
    do 3 (rewrite afterCI_step by reflexivity).
    rewrite afterCI_hit by reflexivity.
    cbn [skipn length CodeBlockParser.fence lit list_ascii_of_string app].
    rewrite before_step by reflexivity.
    rewrite (before_free j _ Fj). cbn [option_map]. now rewrite trim_line.
Qed.

Lemma receive_data (m : str) (d : tabData) (x : str) :
  m <> [] ->
  receive m d (Data m x) = handleStreamChunk d (Some x).
Proof.
  intros Hm. cbn [receive]. rewrite str_eqb_refl.
  destruct m; [contradiction|reflexivity].
Qed.

Lemma receiveAll_data (m : str) (ws : list sse) :
  m <> [] -> Forall (fun e => exists d, e = Data m d) ws ->
  forall d0,
    t_raw (receiveAll m d0 ws) = t_raw d0 ++ rawOf ws
    /\ (ws <> [] ->
        exists h c j,
          receiveAll m d0 ws
          = parseAndAssign (mkTab h c j (t_raw d0 ++ rawOf ws))).
Proof.
  intros Hm H. induction H as [|e ws [x ->] _ IH]; intros d0.
  - cbn. rewrite app_nil_r. split; [reflexivity|contradiction].
  - unfold receiveAll. cbn [fold_left]. rewrite (receive_data m d0 x Hm).
    fold (receiveAll m (handleStreamChunk d0 (Some x)) ws).
    destruct (IH (handleStreamChunk d0 (Some x))) as [R P].
    cbn [rawOf]. cbn [handleStreamChunk parseAndAssign t_raw appended] in R, P.
    rewrite <- app_assoc in R, P. split; [exact R|]. intros _.
    destruct ws as [|e' ws'].
    + cbn [receiveAll fold_left rawOf]. rewrite app_nil_r.
      now exists (t_html d0), (t_css d0), (t_js d0).
    + apply P. discriminate.
Qed.

(** X17: the page shows the code the stages produced.  For a model
    with a non-empty name whose three stages each yielded something
    without a fence, and whose response succeeded: after the records
    the handler wrote have arrived, each whole, the tab of the model
    holds the trimmed content of each stage under its language, and as
    raw text the three blocks. *)
Theorem page_shows_the_code (m : str) (f1 f2 f3 : list str) :
  m <> [] -> f1 <> [] -> f2 <> [] -> f3 <> [] ->
  includes (concat f1) CodeBlockParser.fence = false ->
  includes (concat f2) CodeBlockParser.fence = false ->
  includes (concat f3) CodeBlockParser.fence = false ->
  receiveAll m emptyTab
    (modelTask m
       (mkStream (stageEvents html f1 ++ stageEvents css f2
                  ++ stageEvents js f3) None))
  = mkTab (trim (concat f1)) (trim (concat f2)) (trim (concat f3))
          (block html (concat f1) ++ block css (concat f2)
           ++ block js (concat f3)).
Proof.
  intros Hm N1 N2 N3 I1 I2 I3.
  apply includes_free in I1, I2, I3.
  unfold modelTask. cbn [items failure].
  destruct (writeLoop m (mkCursor None []) _) as [w c] eqn:E.
  destruct (frames_raw m f1 f2 f3 c w E) as [A _].
  assert (D : Forall (fun e => exists d, e = Data m d) (w ++ closing m c)).
  { apply Forall_app. split; [|apply closing_data].
    pose proof (writeLoop_data m
                  (stageEvents html f1 ++ stageEvents css f2
                   ++ stageEvents js f3) (mkCursor None [])) as W.
    now rewrite E in W. }
  rewrite app_assoc. unfold receiveAll. rewrite fold_left_app.
  cbn [fold_left receive]. fold (receiveAll m emptyTab (w ++ closing m c)).
  destruct (receiveAll_data m (w ++ closing m c) Hm D emptyTab) as [_ P].
  assert (B : blockOf html f1 ++ blockOf css f2 ++ blockOf js f3
              = block html (concat f1) ++ block css (concat f2)
                ++ block js (concat f3)).
  { unfold blockOf. destruct f1, f2, f3; try contradiction. reflexivity. }
  destruct P as (h0 & c0 & j0 & P).
  { intros Z. rewrite Z in A. cbn [rawOf] in A. rewrite B in A.
    destruct f1; [contradiction|]. discriminate. }
  rewrite P. cbn [t_raw emptyTab app]. rewrite A, B.
  destruct (extract_blocks (concat f1) (concat f2) (concat f3) I1 I2 I3)
    as (X1 & X2 & X3).
  unfold parseAndAssign. cbn [t_raw t_html t_css t_js].
  now rewrite X1, X2, X3.
Qed.

Lemma page_shows_the_code_witness :
  let m := lit "Y/m" in
  let f1 := [lit "<p>"; lit "`hi`</p>"] in
  let f2 := [lit " p { }"] in
  let f3 := [lit "go();"; [nl]] in
  (m <> [] /\ f1 <> [] /\ f2 <> [] /\ f3 <> []
   /\ includes (concat f1) CodeBlockParser.fence = false
   /\ includes (concat f2) CodeBlockParser.fence = false
   /\ includes (concat f3) CodeBlockParser.fence = false)
  /\ receiveAll m emptyTab
       (modelTask m
          (mkStream (stageEvents html f1 ++ stageEvents css f2
                     ++ stageEvents js f3) None))
     = mkTab (lit "<p>`hi`</p>") (lit "p { }") (lit "go();")
             (block html (lit "<p>`hi`</p>") ++ block css (lit " p { }")
              ++ block js (lit "go();" ++ [nl])).
Proof.
  cbv zeta. split; [repeat split; discriminate|].
  exact (page_shows_the_code (lit "Y/m") [lit "<p>"; lit "`hi`</p>"]
           [lit " p { }"] [lit "go();"; [nl]]
           ltac:(discriminate) ltac:(discriminate) ltac:(discriminate)
           ltac:(discriminate) eq_refl eq_refl eq_refl).
Defined.

(** X27: the page never shows why a model failed.  The error record
    has no content, so the page appends the text of [undefined] to the
    raw text of the model's tab: after the records of a failed response
    have arrived, each whole, the raw text is what the data records
    carried followed by [undefined], whatever the error message was. *)
Theorem error_shows_as_undefined (m : str) (evs : list progress)
    (message : str) :
  m <> [] ->
  t_raw (receiveAll m emptyTab (modelTask m (mkStream evs (Some message))))
  = rawOf (fst (writeLoop m (mkCursor None []) evs)) ++ lit "undefined".
Proof.
  intros Hm. unfold modelTask. cbn [items failure].
  pose proof (writeLoop_data m evs (mkCursor None [])) as D.
  destruct (writeLoop m (mkCursor None []) evs) as [w c]. cbn [fst] in *.
  unfold receiveAll. rewrite fold_left_app. cbn [fold_left].
  fold (receiveAll m emptyTab w).
  assert (E : receive m (receiveAll m emptyTab w) (Error m message)
              = handleStreamChunk (receiveAll m emptyTab w) None).
  { cbn [receive]. rewrite str_eqb_refl.
    destruct m; [contradiction|reflexivity]. }
  rewrite E. destruct (receiveAll_data m w Hm D emptyTab) as [R _].
  cbn [handleStreamChunk parseAndAssign t_raw appended]. now rewrite R.
Qed.

Lemma error_shows_as_undefined_witness :
  let m := lit "X/m" in
  let evs := stageEvents html [lit "<p>"; lit "hi"] in
  m <> []
  /\ t_raw (receiveAll m emptyTab
              (modelTask m (mkStream evs (Some (lit "connection reset")))))
     = lit "```html" ++ [nl] ++ lit "<p>hiundefined".
Proof.
  cbv zeta. split; [discriminate|].
  exact (error_shows_as_undefined (lit "X/m")
           (stageEvents html [lit "<p>"; lit "hi"])
           (lit "connection reset") ltac:(discriminate)).
Defined.

End PageMore.

(** ** The request on its way in *)

Module RequestMore.
Import Spec Inv JSFacts ModelManager Request Client.

Lemma split_plain_at (sep : ascii) (s : str) :
  ~ In sep s -> split sep s = [s].
Proof.
  induction s as [|c s IH]; intros H; [reflexivity|].
  cbn [split]. destruct (Ascii.eqb_spec c sep) as [E|_].
  - exfalso. apply H. left. now symmetry.
  - rewrite IH; [reflexivity|]. intros I. apply H. now right.
Qed.

Lemma split_at (sep : ascii) (a r : str) :
  ~ In sep a -> split sep (a ++ sep :: r) = a :: split sep r.
Proof.
  induction a as [|c a IH]; intros H.
  - cbn [app split]. now rewrite Ascii.eqb_refl.
  - cbn [app split]. destruct (Ascii.eqb_spec c sep) as [E|_].
    + exfalso. apply H. left. now symmetry.
    + rewrite IH; [reflexivity|]. intros I. apply H. now right.
Qed.

Section Auth.

Variable user : Type.
Variable getUserById : str -> option user.

(** X18: [checkAuth] looks up the second space-separated piece of the
    header and never reads the first: whatever stands before the first
    space, even nothing, a non-empty second piece is taken for the
    user id, and what follows a second space is ignored.  A header
    without a space names no user. *)
Theorem checkAuth_reads_second_piece (scheme id : str) (tail : option str) :
  ~ In " "%char scheme -> ~ In " "%char id -> id <> [] ->
  checkAuth user getUserById
    (Some (scheme ++ " "%char :: id
             ++ match tail with Some r => " "%char :: r | None => [] end))
  = getUserById id
  /\ checkAuth user getUserById (Some id) = None.
Proof.
  intros Hs Hi Hn. split.
  - unfold checkAuth.
    destruct (scheme ++ " "%char :: id ++ _) as [|c h] eqn:E.
    { destruct scheme; discriminate. }
    rewrite <- E, (split_at " " scheme _ Hs). cbn [nth_error].
    assert (S1 : exists ws,
               split " " (id ++ match tail with
                                | Some r => " "%char :: r
                                | None => []
                                end) = id :: ws).
    { destruct tail as [r|].
      - rewrite (split_at " " id r Hi). now eexists.
      - rewrite app_nil_r, (split_plain_at " " id Hi). now eexists. }
    destruct S1 as [ws ->]. destruct id; [contradiction|reflexivity].
  - unfold checkAuth. destruct id as [|c h]; [contradiction|].
    now rewrite (split_plain_at " " (c :: h) Hi).
Qed.

End Auth.

Lemma checkAuth_reads_second_piece_witness :
  let getUserById (id : str) :=
    if str_eqb id (lit "7") then Some 7%nat else None in
  (~ In " "%char (lit "Basic") /\ ~ In " "%char (lit "7") /\ lit "7" <> [])
  /\ checkAuth nat getUserById (Some (lit "Basic 7 and more")) = Some 7%nat.
Proof.
  cbv zeta.
  assert (H1 : ~ In " "%char (lit "Basic")).
  { cbn. intros H. repeat (destruct H as [H|H]; [discriminate|]). exact H. }
  assert (H2 : ~ In " "%char (lit "7")).
  { cbn. intros H. repeat (destruct H as [H|H]; [discriminate|]). exact H. }
  assert (H3 : lit "7" <> []) by discriminate.
  split; [repeat split; assumption|].
  exact (proj1 (checkAuth_reads_second_piece nat
                  (fun id => if str_eqb id (lit "7") then Some 7%nat else None)
                  (lit "Basic") (lit "7") (Some (lit "and more"))
                  H1 H2 H3)).
Defined.

(** X19: the map of prior code never holds an entry without code.  An
    entry comes from the request when the request has code for the
    model, and otherwise from the saved state; either way at least one
    of its three fields is not empty. *)
Theorem contextMap_has_code (currentCodes : option (str -> option codeMap))
    (savedData : option codeMap) (m : str) (c : codeMap) :
  contextMapOf currentCodes savedData m = Some c ->
  hasCode c = true
  /\ ((exists codes, currentCodes = Some codes /\ codes m = Some c)
      \/ savedData = Some c).
Proof.
  unfold contextMapOf. cbv zeta.
  assert (S : match savedData with
              | Some s => if hasCode s then Some s else None
              | None => None
              end = Some c -> hasCode c = true /\ savedData = Some c).
  { destruct savedData as [s|]; [|discriminate].
    destruct (hasCode s) eqn:Hs; [|discriminate].
    intros E. injection E as <-. now split. }
  destruct currentCodes as [codes|].
  - destruct (codes m) as [c'|] eqn:Ec.
    + destruct (hasCode c') eqn:Hc.
      * intros E. injection E as <-. split; [exact Hc|].
        left. now exists codes.
      * intros E. destruct (S E) as [A B]. now split; [|right].
    + intros E. destruct (S E) as [A B]. now split; [|right].
  - intros E. destruct (S E) as [A B]. now split; [|right].
Qed.

Lemma contextMap_has_code_witness :
  let saved := Some (mkCode (lit "<p>old</p>") [] []) in
  let codes (m : str) := Some (mkCode [] [] []) in
  contextMapOf (Some codes) saved (lit "Y/m")
  = Some (mkCode (lit "<p>old</p>") [] [])
  /\ hasCode (mkCode (lit "<p>old</p>") [] []) = true.
Proof.
  cbv zeta. split; [reflexivity|].
  exact (proj1 (contextMap_has_code
                  (Some (fun _ => Some (mkCode [] [] [])))
                  (Some (mkCode (lit "<p>old</p>") [] []))
                  (lit "Y/m") (mkCode (lit "<p>old</p>") [] []) eq_refl)).
Defined.

(** X20: the codes the page sends are never used.  [handleSubmit]
    empties the tab of every selected model before it collects the
    codes of the selected models, so for every model the handler finds
    no code in the request and falls back on the saved state, exactly
    as if the request had carried no codes at all. *)
Theorem page_codes_never_used (selected : list str)
    (tabs : str -> option tabData) (savedData : option codeMap) (m : str) :
  contextMapOf (Some (collectCodes selected (resetTabs selected tabs)))
               savedData m
  = contextMapOf None savedData m.
Proof.
  unfold contextMapOf, collectCodes, resetTabs. cbv zeta.
  destruct (existsb (str_eqb m) selected); reflexivity.
Qed.

End RequestMore.

(** ** Prompts and providers *)

Module PromptsMore.
Import Spec Inv JSFacts ModelManager Prompts.

Lemma find_first_match {A} (f : A -> bool) (before : list A) (o : A)
    (after : list A) :
  Forall (fun x => f x = false) before -> f o = true ->
  find f (before ++ o :: after) = Some o.
Proof.
  intros H Ho. induction H as [|x before Hx _ IH]; cbn [app find].
  - now rewrite Ho.
  - now rewrite Hx.
Qed.

(** X21: of the overrides that name a model only the first counts.
    Its prompt for the stage is used if it has a non-empty one, and
    otherwise the default of the stage, even when a later override for
    the same model has a prompt for the stage. *)
Theorem first_override_decides
    (defaultPrompts : stage -> option promptEntry)
    (before : list override) (o : override) (after : list override)
    (t : stage) (modelName : option str) :
  Forall (fun o' => same (o_model o') modelName = false) before ->
  same (o_model o) modelName = true ->
  getPromptForType defaultPrompts (before ++ o :: after) t modelName
  = match systemOf (entryOf o t) with
    | Some s => s
    | None => getPromptForType defaultPrompts [] t modelName
    end.
Proof.
  intros Hb Ho. unfold getPromptForType. cbv zeta.
  now rewrite (find_first_match _ before o after Hb Ho).
Qed.

Lemma first_override_decides_witness :
  let defaults (t : stage) := Some (mkEntry (Some (lit "default"))) in
  let first :=
    mkOverride (Some (lit "m")) None (Some (mkEntry (Some (lit "one")))) None in
  let second :=
    mkOverride (Some (lit "m")) (Some (mkEntry (Some (lit "two")))) None None in
  let other := mkOverride (Some (lit "n")) None None None in
  (Forall (fun o' => same (o_model o') (Some (lit "m")) = false) [other]
   /\ same (o_model first) (Some (lit "m")) = true)
  /\ getPromptForType defaults [other; first; second] html (Some (lit "m"))
     = lit "default".
Proof.
  cbv zeta. split; [split; [repeat constructor|reflexivity]|].
  exact (first_override_decides
           (fun _ => Some (mkEntry (Some (lit "default"))))
           [mkOverride (Some (lit "n")) None None None]
           (mkOverride (Some (lit "m")) None
                       (Some (mkEntry (Some (lit "one")))) None)
           [mkOverride (Some (lit "m"))
                       (Some (mkEntry (Some (lit "two")))) None None]
           html (Some (lit "m"))
           ltac:(repeat constructor) eq_refl).
Defined.

(** *** The messages of a stage *)

Lemma copy_id (history : list message) :
  map (fun m => mkMessage (role m) (content m)) history = history.
Proof.
  induction history as [|[r c] h IH]; [reflexivity|].
  cbn [map role content]. now rewrite IH.
Qed.

Lemma lastMessage_snoc {A} (h : list A) (x : A) :
  lastMessage (h ++ [x]) = Some x.
Proof.
  unfold lastMessage. destruct (h ++ [x]) eqn:E.
  - destruct h; discriminate.
  - rewrite <- E. rewrite length_app. cbn [length].
    replace (length h + 1 - 1)%nat with (length h) by lia.
    rewrite nth_error_app2 by lia. now rewrite Nat.sub_diag.
Qed.

Lemma createMessages_cases (t : stage) (history : list message)
    (context existingCode : str) :
  (exists h c,
     history = h ++ [mkMessage (lit "user") c]
     /\ createMessagesForType t history context existingCode
        = h ++ [mkMessage (lit "user")
                          (c ++ promptSuffix t context existingCode)])
  \/ ((forall h c, history <> h ++ [mkMessage (lit "user") c])
      /\ createMessagesForType t history context existingCode
         = history
           ++ [mkMessage (lit "user")
                 (generateLine t ++ promptSuffix t context existingCode)]).
Proof.
  unfold createMessagesForType. cbv zeta. rewrite copy_id.
  induction history as [|x h _] using rev_ind.
  - right. split; [|reflexivity]. intros h c E. destruct h; discriminate.
  - rewrite lastMessage_snoc.
    destruct (str_eqb (role x) (lit "user")) eqn:R.
    + left. apply str_eqb_eq in R. destruct x as [r c]. cbn [role] in R.
      subst r. exists h, c. split; [reflexivity|].
      now rewrite removelast_last.
    + right. split; [|reflexivity]. intros h' c E.
      apply app_inj_tail in E as [_ E]. subst x. cbn [role] in R.
      now rewrite str_eqb_refl in R.
Qed.

(** X22: the messages built for a stage leave every earlier turn as it
    was and end with a user turn that ends with the suffix of the
    stage.  When the history ends with a user turn the suffix is added
    to that turn; in every other case, an empty history included, a
    new user turn is added that begins with the instruction line. *)
Theorem stage_messages (t : stage) (history : list message)
    (context existingCode : str) :
  exists h c,
    createMessagesForType t history context existingCode
    = h ++ [mkMessage (lit "user")
                      (c ++ promptSuffix t context existingCode)]
    /\ (history = h ++ [mkMessage (lit "user") c]
        \/ history = h /\ c = generateLine t
           /\ forall h' c', history <> h' ++ [mkMessage (lit "user") c']).
Proof.
  destruct (createMessages_cases t history context existingCode)
    as [(h & c & E & R)|[N R]].
  - exists h, c. split; [exact R|now left].
  - exists history, (generateLine t). split; [exact R|right].
    now repeat split.
Qed.

(** *** What the Google provider sends *)

Lemma googleHistory_app (a b : list message) :
  googleHistory (a ++ b) = googleHistory a ++ googleHistory b.
Proof. unfold googleHistory. now rewrite filter_app, map_app. Qed.

(** X23: for the messages of a stage the Google provider always has a
    last message to send: whatever the history, even an empty one or
    one of system turns only, the text it sends is a user turn that
    ends with the suffix of the stage, and the chat is started on the
    turns before it, system turns left out.  Given the bare history
    with no turn other than system turns, it fails instead. *)
Theorem google_sends_stage_prompt (t : stage) (history : list message)
    (context existingCode : str) :
  (exists h c,
     createMessagesForType t history context existingCode
     = h ++ [mkMessage (lit "user")
                       (c ++ promptSuffix t context existingCode)]
     /\ googleRequest (createMessagesForType t history context existingCode)
        = Sent (googleHistory h) (c ++ promptSuffix t context existingCode))
  /\ (Forall (fun m => role m = lit "system") history ->
      googleRequest history = TypeError).
Proof.
  split.
  - destruct (createMessages_cases t history context existingCode)
      as [(h & c & _ & R)|[_ R]]; rewrite R; eexists _, _;
      (split; [reflexivity|]);
      unfold googleRequest; cbv zeta; rewrite googleHistory_app;
      change (googleHistory [mkMessage (lit "user") ?x])
        with [mkPart (lit "user") x];
      rewrite lastMessage_snoc, removelast_last; reflexivity.
  - intros H. unfold googleRequest. cbv zeta.
    assert (E : googleHistory history = []).
    { induction H as [|m h Hm _ IH]; [reflexivity|].
      unfold googleHistory in *. cbn [filter]. rewrite Hm.
      cbn [negb]. exact IH. }
    now rewrite E.
Qed.

(** *** The table of providers *)

Lemma set_other (cs : list pConfig) :
  forall (m : str -> option (kind * pConfig)) (n : str),
    Forall (fun c => p_name c <> n) cs ->
    fold_left (fun m c => mapSet m (p_name c) (kindOf (p_type c), c)) cs m n
    = m n.
Proof.
  induction cs as [|c cs IH]; intros m n H; [reflexivity|].
  inversion H as [|? ? Hc Hr]; subst. cbn [fold_left]. rewrite (IH _ n Hr).
  unfold mapSet. rewrite str_eqb_neq; [reflexivity|]. congruence.
Qed.

(** X24: of the configured providers with one name the last is the one
    registered, built by the class its type selects (the OpenAI class
    for a type that is missing or unknown); a name no configuration has
    is not registered. *)
Theorem last_provider_wins (before : list pConfig) (c : pConfig)
    (after : list pConfig) (n : str) :
  Forall (fun c' => p_name c' <> p_name c) after ->
  Forall (fun c' => p_name c' <> n) (before ++ c :: after) ->
  initializeProviders (before ++ c :: after) (p_name c)
  = Some (kindOf (p_type c), c)
  /\ initializeProviders (before ++ c :: after) n = None.
Proof.
  intros Ha Hn. unfold initializeProviders. split.
  - rewrite fold_left_app. cbn [fold_left]. rewrite (set_other after _ _ Ha).
    unfold mapSet. now rewrite str_eqb_refl.
  - now rewrite (set_other _ _ n Hn).
Qed.

Lemma last_provider_wins_witness :
  let a := mkConfig (Some (lit "anthropic")) (lit "Main") in
  let b := mkConfig (Some (lit "ollama")) (lit "Main") in
  let c := mkConfig None (lit "Other") in
  (Forall (fun c' => p_name c' <> p_name b) [c]
   /\ Forall (fun c' => p_name c' <> lit "X") ([a] ++ b :: [c]))
  /\ initializeProviders [a; b; c] (lit "Main") = Some (OpenAI, b).
Proof.
  cbv zeta.
  assert (H1 : Forall (fun c' => p_name c' <> lit "Main")
                 [mkConfig None (lit "Other")]).
  { repeat constructor. discriminate. }
  assert (H2 : Forall (fun c' => p_name c' <> lit "X")
                 ([mkConfig (Some (lit "anthropic")) (lit "Main")]
                  ++ mkConfig (Some (lit "ollama")) (lit "Main")
                  :: [mkConfig None (lit "Other")])).
  { repeat constructor; discriminate. }
  split; [split; assumption|].
  exact (proj1 (last_provider_wins
                  [mkConfig (Some (lit "anthropic")) (lit "Main")]
                  (mkConfig (Some (lit "ollama")) (lit "Main"))
                  [mkConfig None (lit "Other")] (lit "X") H1 H2)).
Defined.

End PromptsMore.

(** ** Escaping *)

Module EscapeMore.
Import Client More.

Lemma escapeChar_cases (c : ascii) :
  (c = "&"%char \/ c = "<"%char \/ c = ">"%char \/ c = "034"%char
   \/ c = "'"%char)
  \/ (escapeChar c = [c] /\ c <> "&"%char /\ isMarkup c = false).
Proof.
  unfold escapeChar, isMarkup.
  destruct (Ascii.eqb_spec c "&"); [now left; left|].
  destruct (Ascii.eqb_spec c "<"); [now left; right; left|].
  destruct (Ascii.eqb_spec c ">"); [now left; right; right; left|].
  destruct (Ascii.eqb_spec c "034"); [now left; right; right; right; left|].
  destruct (Ascii.eqb_spec c "'"); [now left; right; right; right; right|].
  right. now repeat split.
Qed.

(** X25: what [escapeHtml] returns holds none of the characters
    [<], [>], the double quote and the single quote, whatever the
    text. *)
Theorem escapeHtml_no_markup (text : str) :
  Forall (fun c => isMarkup c = false) (escapeHtml text).
Proof.
  induction text as [|c text IH]; [constructor|].
  unfold escapeHtml in *. cbn [flat_map]. apply Forall_app. split; [|exact IH].
  destruct (escapeChar_cases c) as [[->|[->|[->|[->| ->]]]]|(E & _ & M)];
    try (repeat constructor).
  rewrite E. now repeat constructor.
Qed.

Lemma escapeChar_apart (x y : ascii) (a b : str) :
  escapeChar x ++ a = escapeChar y ++ b -> x = y /\ a = b.
Proof.
  destruct (escapeChar_cases x) as [[->|[->|[->|[->| ->]]]]|(Ex & Nx & _)];
    destruct (escapeChar_cases y) as [[->|[->|[->|[->| ->]]]]|(Ey & Ny & _)];
    rewrite ?Ex, ?Ey; cbn; intros E;
    try discriminate;
    try (injection E as E1 E2; subst; now split);
    try (injection E as E1 E2; congruence);
    try (injection E as E2; subst; now split).
Qed.

(** X26: [escapeHtml] loses nothing: two texts with the same escaped
    form are the same text. *)
Theorem escapeHtml_injective (a b : str) :
  escapeHtml a = escapeHtml b -> a = b.
Proof.
  revert b. induction a as [|x a IH]; intros [|y b]; unfold escapeHtml in *;
    cbn [flat_map].
  - reflexivity.
  - intros E. exfalso.
    destruct (escapeChar_cases y) as [[->|[->|[->|[->| ->]]]]|(Ey & _)];
      rewrite ?Ey in E; discriminate.
  - intros E. exfalso.
    destruct (escapeChar_cases x) as [[->|[->|[->|[->| ->]]]]|(Ex & _)];
      rewrite ?Ex in E; discriminate.
  - intros E. apply escapeChar_apart in E as [-> E]. f_equal. now apply IH.
Qed.

Lemma escapeHtml_injective_witness :
  let a := lit "<a href='x'>" in
  let b := lit "<a" ++ lit " href='x'>" in
  escapeHtml a = escapeHtml b /\ a = b.
Proof.
  cbv zeta. split; [reflexivity|].
  exact (escapeHtml_injective (lit "<a href='x'>")
           (lit "<a" ++ lit " href='x'>") eq_refl).
Defined.

End EscapeMore.
